(** * Rainbow Taxi front end: carousel and reveal dispatchers

    A shallow embedding of the interaction logic of
    [src/js/components.js] ([TestimonialsSlider], [ScrollReveal]) and
    [src/js/animations.js] ([ScrollAnimationController],
    [IntersectionAnimationController]), with the properties stated for
    them.

    Numbers.  The slide cursor is a JavaScript number.  Every value it
    takes on a page is an integer far below 2^53 or the not-a-number
    value, so it is modelled by [jsnum]: an exact integer or [NaN]; the
    arithmetic on it is the arithmetic of the code as long as the integers
    stay within 2^53.  Coordinates handed over by the browser (the
    [clientX] of a touch, the top of a bounding box) are doubles and need
    not be integers: they are IEEE 754 binary64 values ([Double.double]),
    with the arithmetic and the comparisons of that format. *)

From Stdlib Require Import ZArith QArith Lia List Bool.
From Stdlib Require Floats.SpecFloat.
From stdpp Require Import base gmap strings list.

Local Open Scope Z_scope.

(** ** JavaScript numbers as binary64 values

    [SpecFloat] is the Standard Library's executable specification of
    IEEE 754 arithmetic, rounding to nearest with ties to even; binary64
    is the instance with a precision of 53 bits and infinities at exponent
    1024. *)

Module Double.

Definition prec : Z := 53.
Definition emax : Z := 1024.

Definition double : Type := SpecFloat.spec_float.

(** The values a JavaScript number can take, among the terms of
    [spec_float]. *)
Definition is_double (a : double) : bool := SpecFloat.valid_binary prec emax a.

(** The double nearest to an integer, and to [m * 2^e]. *)
Definition of_Z (z : Z) : double := SpecFloat.binary_normalize prec emax z 0 false.

Definition of_dyadic (m e : Z) : double :=
  SpecFloat.binary_normalize prec emax m e false.

(** [a - b], [a * b], [a / b], [Math.abs(a)] *)
Definition sub (a b : double) : double := SpecFloat.SFsub prec emax a b.
Definition mul (a b : double) : double := SpecFloat.SFmul prec emax a b.
Definition div (a b : double) : double := SpecFloat.SFdiv prec emax a b.
Definition abs (a : double) : double := SpecFloat.SFabs a.

(** [a < b], [a <= b], [a > b], [a >= b]: false when either side is NaN. *)
Definition ltb (a b : double) : bool := SpecFloat.SFltb a b.
Definition leb (a b : double) : bool := SpecFloat.SFleb a b.
Definition gtb (a b : double) : bool := ltb b a.
Definition geb (a b : double) : bool := leb b a.

Definition is_nan (a : double) : bool :=
  match a with
  | SpecFloat.S754_nan => true
  | _ => false
  end.

(** The literal [0.1]: the double nearest to one tenth,
    0x3FB999999999999A. *)
Definition point_one : double := SpecFloat.S754_finite false 7205759403792794 (-56).

End Double.

(** An integer literal of the source is the double of that integer. *)
Coercion Double.of_Z : Z >-> Double.double.

Arguments Double.of_Z : simpl never.

(** ** JavaScript numbers restricted to integers and NaN

    The slide cursor.  Sums, differences and products are exact here; in
    the source they are exact as long as the operands and the result are
    integers of magnitude at most 2^53. *)

Inductive jsnum : Type :=
| Num (z : Z)
| NaN.

#[global] Instance jsnum_eq_dec : EqDecision jsnum.
Proof. solve_decision. Defined.

(** [a + b] *)
Definition js_add (a b : jsnum) : jsnum :=
  match a, b with
  | Num x, Num y => Num (x + y)
  | _, _ => NaN
  end.

(** [a - b] *)
Definition js_sub (a b : jsnum) : jsnum :=
  match a, b with
  | Num x, Num y => Num (x - y)
  | _, _ => NaN
  end.

(** [a * b] *)
Definition js_mul (a b : jsnum) : jsnum :=
  match a, b with
  | Num x, Num y => Num (x * y)
  | _, _ => NaN
  end.

(** unary [-a] *)
Definition js_neg (a : jsnum) : jsnum :=
  match a with
  | Num x => Num (- x)
  | NaN => NaN
  end.

(** [a % b]: the remainder takes the sign of the dividend, and a zero
    divisor gives NaN. *)
Definition js_rem (a b : jsnum) : jsnum :=
  match a, b with
  | Num x, Num y => if y =? 0 then NaN else Num (Z.rem x y)
  | _, _ => NaN
  end.

(** [a === b] on numbers: NaN is equal to nothing. *)
Definition js_strict_eq (a b : jsnum) : bool :=
  match a, b with
  | Num x, Num y => x =? y
  | _, _ => false
  end.

(** ** Statements: a state transformer that may throw

    A method body runs its statements in order; a [TypeError] (a property
    read or a method call on [null]) abandons the rest and keeps the
    writes made so far. *)

Inductive completion : Type :=
| Normal
| Throw.

Section Statements.
Context {St : Type}.

Definition stmt : Type := St -> completion * St.

Definition skip : stmt := fun s => (Normal, s).

Definition modify (f : St -> St) : stmt := fun s => (Normal, f s).

Definition seq (a b : stmt) : stmt :=
  fun s =>
    match a s with
    | (Normal, s') => b s'
    | (Throw, s') => (Throw, s')
    end.

(** The state a statement leaves behind, however it completes. *)
Definition exec (m : stmt) (s : St) : St := snd (m s).

(** [list.forEach((x, index) => body)] *)
Fixpoint forEach_from {A : Type} (index : nat) (body : A -> nat -> stmt)
    (l : list A) : stmt :=
  match l with
  | [] => skip
  | x :: l' => seq (body x index) (forEach_from (S index) body l')
  end.

Definition forEach {A : Type} (body : A -> nat -> stmt) (l : list A) : stmt :=
  forEach_from 0 body l.
End Statements.

Arguments stmt St : clear implicits.

Declare Scope stmt_scope.
Delimit Scope stmt_scope with stmt.
Notation "a ;; b" := (seq a b%stmt)
  (at level 100, b at level 200, right associativity) : stmt_scope.

(** DOM elements are opaque handles. *)
Abbreviation Element := positive.

(** ** TestimonialsSlider (components.js) *)

Module Slider.

(** The inline [style.transform] of the track element: not set yet, or
    the string [translateX(p%)]. *)
Inductive css_transform : Type :=
| transform_unset
| translateX (percent : jsnum).

(** [style.transform = v]: the string [translateX(NaN%)] is not a
    transform the style accepts, and the property then keeps the value it
    had. *)
Definition style_assign (old v : css_transform) : css_transform :=
  match v with
  | translateX NaN => old
  | _ => v
  end.

Inductive Target : Type :=
| PrevBtnEl
| NextBtnEl
| DotEl (index : nat)
| TrackEl.

Inductive EvType : Type :=
| click
| mouseenter
| mouseleave
| touchstart
| touchend.

(** The closures handed to [addEventListener] in [bindEvents] and
    [handleTouchEvents]. *)
Inductive Handler : Type :=
| OnPrevClick
| OnNextClick
| OnDotClick (index : nat)
| OnMouseEnter
| OnMouseLeave
| OnTouchStart
| OnTouchEnd.

#[global] Instance Target_eq_dec : EqDecision Target.
Proof. solve_decision. Defined.
#[global] Instance EvType_eq_dec : EqDecision EvType.
Proof. solve_decision. Defined.

Record Listener : Type := mkListener {
  l_target : Target;
  l_type : EvType;
  l_handler : Handler
}.

(** Method entries, recorded in the ghost history [calls]. *)
Inductive Call : Type :=
| CallGoTo (index : jsnum)
| CallNext
| CallPrev.

(** The slider object together with the part of the page it touches. *)
Record State : Type := mkState {
  (* fields of the object *)
  track : option css_transform;   (* None: no #testimonial-track *)
  prevBtn : bool;                 (* #prev-testimonial found *)
  nextBtn : bool;                 (* #next-testimonial found *)
  dots : list bool;               (* per dot: classList has 'active' *)
  currentSlide : jsnum;
  totalSlides : Z;                (* cards.length *)
  autoPlayInterval : option positive;
  autoPlayDelay : Z;
  (* the variables captured by the touch closures *)
  startX : Double.double;
  endX : Double.double;
  (* the browser: registered listeners, armed interval timers of this
     slider (handle -> period), next fresh timer handle *)
  listeners : list Listener;
  timers : gmap positive Z;
  next_handle : positive;
  (* ghost: navigation methods entered so far, oldest first *)
  calls : list Call
}.

Definition set_track (v : option css_transform) (s : State) : State :=
  mkState v (prevBtn s) (nextBtn s) (dots s) (currentSlide s)
    (totalSlides s) (autoPlayInterval s) (autoPlayDelay s) (startX s)
    (endX s) (listeners s) (timers s) (next_handle s) (calls s).

Definition set_dots (v : list bool) (s : State) : State :=
  mkState (track s) (prevBtn s) (nextBtn s) v (currentSlide s)
    (totalSlides s) (autoPlayInterval s) (autoPlayDelay s) (startX s)
    (endX s) (listeners s) (timers s) (next_handle s) (calls s).

Definition set_currentSlide (v : jsnum) (s : State) : State :=
  mkState (track s) (prevBtn s) (nextBtn s) (dots s) v
    (totalSlides s) (autoPlayInterval s) (autoPlayDelay s) (startX s)
    (endX s) (listeners s) (timers s) (next_handle s) (calls s).

Definition set_autoPlayInterval (v : option positive) (s : State) : State :=
  mkState (track s) (prevBtn s) (nextBtn s) (dots s) (currentSlide s)
    (totalSlides s) v (autoPlayDelay s) (startX s)
    (endX s) (listeners s) (timers s) (next_handle s) (calls s).

Definition set_startX (v : Double.double) (s : State) : State :=
  mkState (track s) (prevBtn s) (nextBtn s) (dots s) (currentSlide s)
    (totalSlides s) (autoPlayInterval s) (autoPlayDelay s) v
    (endX s) (listeners s) (timers s) (next_handle s) (calls s).

Definition set_endX (v : Double.double) (s : State) : State :=
  mkState (track s) (prevBtn s) (nextBtn s) (dots s) (currentSlide s)
    (totalSlides s) (autoPlayInterval s) (autoPlayDelay s) (startX s)
    v (listeners s) (timers s) (next_handle s) (calls s).

Definition set_listeners (v : list Listener) (s : State) : State :=
  mkState (track s) (prevBtn s) (nextBtn s) (dots s) (currentSlide s)
    (totalSlides s) (autoPlayInterval s) (autoPlayDelay s) (startX s)
    (endX s) v (timers s) (next_handle s) (calls s).

Definition set_timers (v : gmap positive Z) (s : State) : State :=
  mkState (track s) (prevBtn s) (nextBtn s) (dots s) (currentSlide s)
    (totalSlides s) (autoPlayInterval s) (autoPlayDelay s) (startX s)
    (endX s) (listeners s) v (next_handle s) (calls s).

Definition set_next_handle (v : positive) (s : State) : State :=
  mkState (track s) (prevBtn s) (nextBtn s) (dots s) (currentSlide s)
    (totalSlides s) (autoPlayInterval s) (autoPlayDelay s) (startX s)
    (endX s) (listeners s) (timers s) v (calls s).

Definition set_calls (v : list Call) (s : State) : State :=
  mkState (track s) (prevBtn s) (nextBtn s) (dots s) (currentSlide s)
    (totalSlides s) (autoPlayInterval s) (autoPlayDelay s) (startX s)
    (endX s) (listeners s) (timers s) (next_handle s) v.

Definition M : Type := stmt State.

Local Open Scope stmt_scope.

(** *** Methods *)

(** [updateSlider]: [translateX = -currentSlide * 100], written to
    [track.style.transform]. *)
Definition updateSlider : M :=
  fun s =>
    match track s with
    | None => (Throw, s)
    | Some old =>
        let translate := js_mul (js_neg (currentSlide s)) (Num 100) in
        (Normal, set_track (Some (style_assign old (translateX translate))) s)
    end.

(** [updateDots]: [classList.toggle('active', index === currentSlide)] on
    every dot. *)
Definition updateDots : M :=
  fun s =>
    (Normal,
     set_dots
       (imap (fun index _ => js_strict_eq (Num (Z.of_nat index)) (currentSlide s))
             (dots s))
       s).

Definition log (c : Call) : M := modify (fun s => set_calls (calls s ++ [c]) s).

Definition goToSlide (index : jsnum) : M :=
  log (CallGoTo index) ;;
  modify (set_currentSlide index) ;;
  updateSlider ;;
  updateDots.

Definition nextSlide : M :=
  log CallNext ;;
  modify (fun s =>
    set_currentSlide
      (js_rem (js_add (currentSlide s) (Num 1)) (Num (totalSlides s))) s) ;;
  updateSlider ;;
  updateDots.

Definition prevSlide : M :=
  log CallPrev ;;
  modify (fun s =>
    set_currentSlide
      (js_rem (js_add (js_sub (currentSlide s) (Num 1)) (Num (totalSlides s)))
              (Num (totalSlides s))) s) ;;
  updateSlider ;;
  updateDots.

(** [handleSwipe(startX, endX)] *)
Definition handleSwipe (startX endX : Double.double) : M :=
  let threshold : Double.double := 50 in
  let diff := Double.sub startX endX in
  if Double.gtb (Double.abs diff) threshold then
    if Double.gtb diff 0 then nextSlide else prevSlide
  else skip.

(** [stopAutoPlay]: a timer handle is a positive integer, so the test
    [if (this.autoPlayInterval)] is the test for non-null. *)
Definition stopAutoPlay : M :=
  fun s =>
    match autoPlayInterval s with
    | Some h =>
        (Normal, set_autoPlayInterval None (set_timers (delete h (timers s)) s))
    | None => (Normal, s)
    end.

(** [setInterval(() => this.nextSlide(), delay)] followed by the
    assignment of the returned handle. *)
Definition armInterval : M :=
  fun s =>
    let h := next_handle s in
    (Normal,
     set_autoPlayInterval (Some h)
       (set_next_handle (Pos.succ h)
          (set_timers (<[h := autoPlayDelay s]> (timers s)) s))).

Definition startAutoPlay : M := stopAutoPlay ;; armInterval.

Definition addEventListener (t : Target) (ty : EvType) (h : Handler) : M :=
  modify (fun s => set_listeners (listeners s ++ [mkListener t ty h]) s).

(** [this.track.addEventListener(...)]: throws when the track is null. *)
Definition track_addEventListener (ty : EvType) (h : Handler) : M :=
  fun s =>
    match track s with
    | None => (Throw, s)
    | Some _ => addEventListener TrackEl ty h s
    end.

Definition handleTouchEvents : M :=
  modify (fun s => set_endX 0 (set_startX 0 s)) ;;
  track_addEventListener touchstart OnTouchStart ;;
  track_addEventListener touchend OnTouchEnd.

Definition bindEvents : M :=
  (fun s => if prevBtn s then addEventListener PrevBtnEl click OnPrevClick s
            else skip s) ;;
  (fun s => if nextBtn s then addEventListener NextBtnEl click OnNextClick s
            else skip s) ;;
  (fun s =>
     forEach (fun _ index => addEventListener (DotEl index) click (OnDotClick index))
             (dots s) s) ;;
  track_addEventListener mouseenter OnMouseEnter ;;
  track_addEventListener mouseleave OnMouseLeave ;;
  handleTouchEvents.

Definition init : M :=
  fun s =>
    match track s with
    | None => (Normal, s)
    | Some _ =>
        if totalSlides s =? 0 then (Normal, s)
        else (bindEvents ;; startAutoPlay) s
    end.

(** [new TestimonialsSlider()] on a page whose track is [track0] (if any),
    with the given buttons, dots and number of cards, when the browser's
    next timer handle is [h0]. *)
Definition construct (track0 : option css_transform) (prev next : bool)
    (dots0 : list bool) (cards : nat) (h0 : positive) : completion * State :=
  init (mkState track0 prev next dots0 (Num 0) (Z.of_nat cards) None 5000
          0 0 [] ∅ h0 []).

(** *** The page driving the slider *)

Record Event : Type := mkEvent {
  ev_target : Target;
  ev_type : EvType;
  ev_clientX : Double.double   (* clientX of the first (changed) touch *)
}.

(** The body of each registered closure. *)
Definition run_handler (h : Handler) (e : Event) : M :=
  match h with
  | OnPrevClick => prevSlide
  | OnNextClick => nextSlide
  | OnDotClick index => goToSlide (Num (Z.of_nat index))
  | OnMouseEnter => stopAutoPlay
  | OnMouseLeave => startAutoPlay
  | OnTouchStart => modify (set_startX (ev_clientX e))
  | OnTouchEnd =>
      modify (set_endX (ev_clientX e)) ;;
      (fun s => handleSwipe (startX s) (endX s) s)
  end.

(** The handlers the browser runs for an event: those registered for its
    target and type, in registration order. *)
Definition matching (e : Event) (s : State) : list Handler :=
  l_handler <$>
    filter (fun l => l_target l = ev_target e /\ l_type l = ev_type e)
           (listeners s).

(** An exception thrown by one listener is reported by the browser and
    does not stop the others. *)
Definition dispatch (e : Event) (s : State) : State :=
  foldl (fun s' h => exec (run_handler h e) s') s (matching e s).

(** Expiry of the interval with handle [h]: its callback runs if the
    interval is still armed. *)
Definition tick (h : positive) (s : State) : State :=
  match timers s !! h with
  | Some _ => exec nextSlide s
  | None => s
  end.

(** What can happen to a constructed slider: the page delivers an event
    or a timer expiry, or a script calls a public method. *)
Inductive Input : Type :=
| Dispatch (e : Event)
| Tick (h : positive)
| InvokeGoToSlide (index : jsnum)
| InvokeNextSlide
| InvokePrevSlide
| InvokeHandleSwipe (startX endX : Double.double)
| InvokeStartAutoPlay
| InvokeStopAutoPlay.

Definition step (i : Input) (s : State) : State :=
  match i with
  | Dispatch e => dispatch e s
  | Tick h => tick h s
  | InvokeGoToSlide index => exec (goToSlide index) s
  | InvokeNextSlide => exec nextSlide s
  | InvokePrevSlide => exec prevSlide s
  | InvokeHandleSwipe x0 x1 => exec (handleSwipe x0 x1) s
  | InvokeStartAutoPlay => exec startAutoPlay s
  | InvokeStopAutoPlay => exec stopAutoPlay s
  end.

Definition run (inputs : list Input) (s : State) : State :=
  foldl (fun s' i => step i s') s inputs.

(** Inputs that come from the page itself, not from a script holding the
    object. *)
Definition from_page (i : Input) : bool :=
  match i with
  | Dispatch _ | Tick _ => true
  | _ => false
  end.

(** A state is reachable when it is the constructed slider of some page
    after some inputs. *)
Definition reachable (s : State) : Prop :=
  exists track0 prev next dots0 cards h0 inputs,
    s = run inputs (snd (construct track0 prev next dots0 cards h0)).

(** *** Notions used in the statements *)

(** The cursor is an integer in [0, totalSlides - 1]. *)
Definition valid_index (s : State) : bool :=
  match currentSlide s with
  | Num c => (0 <=? c) && (c <? totalSlides s)
  | NaN => false
  end.

Inductive Nav : Type :=
| Next
| Prev.

Definition nav (op : Nav) : M :=
  match op with
  | Next => nextSlide
  | Prev => prevSlide
  end.

(** The states after each call of a sequence of [next]/[previous] calls. *)
Fixpoint states_after (ops : list Nav) (s : State) : list State :=
  match ops with
  | [] => []
  | op :: ops' =>
      let s' := exec (nav op) s in
      s' :: states_after ops' s'
  end.

(** The cursor is an integer in [0, N - 1]. *)
Definition in_range (N : Z) (s : State) : Prop :=
  exists c, currentSlide s = Num c /\ 0 <= c <= N - 1.

(** Everything but the cursor, the rendered offset, the indicator dots and
    the ghost history is the same in both states. *)
Definition same_outside_render (s s' : State) : Prop :=
  autoPlayInterval s' = autoPlayInterval s /\
  timers s' = timers s /\
  next_handle s' = next_handle s /\
  autoPlayDelay s' = autoPlayDelay s /\
  totalSlides s' = totalSlides s /\
  listeners s' = listeners s /\
  startX s' = startX s /\
  endX s' = endX s /\
  prevBtn s' = prevBtn s /\
  nextBtn s' = nextBtn s.

(** A page with three cards and three dots, and one with a track but no
    card. *)
Definition slider3 : State :=
  snd (construct (Some transform_unset) true true [true; false; false] 3 1).

Definition slider0 : State :=
  snd (construct (Some transform_unset) true true [] 0 1).

(** The number of armed autoplay timers. *)
Definition armed (s : State) : nat := size (timers s).

(** The handle held by the object is the only armed timer, and handles
    are handed out in increasing order. *)
Definition timer_inv (s : State) : Prop :=
  match autoPlayInterval s with
  | Some h => timers s = {[ h := autoPlayDelay s ]} /\ (h < next_handle s)%positive
  | None => timers s = ∅
  end.

End Slider.

(** ** ScrollReveal (components.js) *)

Module ScrollReveal.

(** [DOMTokenList.add]: a token already present is not added again. *)
Definition classList_add (c : string) (cl : list string) : list string :=
  if decide (c ∈ cl) then cl else cl ++ [c].

(** The component's [elements] (the nodes matching [.reveal]) and the class
    lists of the page's nodes; a node without an entry has no class. *)
Record State : Type := mkState {
  elements : list Element;
  classList : gmap Element (list string)
}.

Definition classes_of (s : State) (e : Element) : list string :=
  default [] (classList s !! e).

Definition add_class (e : Element) (c : string) (s : State) : State :=
  mkState (elements s) (<[e := classList_add c (classes_of s e)]> (classList s)).

(** One pass: [visit] is the body run for each element.  [isInViewport] is
    the helper imported from [utils.js]; it reads the element's bounding
    box and the window, so each pass gets the helper for the layout at that
    moment. *)
Definition visit (isInViewport : Element -> Z -> bool) (s : State)
    (element : Element) : State :=
  if isInViewport element 50 then add_class element "revealed" s else s.

Definition checkElements (isInViewport : Element -> Z -> bool) (s : State) : State :=
  foldl (visit isInViewport) s (elements s).

(** Successive passes, one per layout. *)
Definition passes (layouts : list (Element -> Z -> bool)) (s : State) : State :=
  foldl (fun s' isInViewport => checkElements isInViewport s') s layouts.

Definition revealed (s : State) (e : Element) : bool :=
  bool_decide ("revealed" ∈ classes_of s e).

(** Two [.reveal] nodes, the first already revealed. *)
Definition page2 : State :=
  mkState [1; 2]%positive
    {[ 1%positive := ["reveal"; "revealed"]; 2%positive := ["reveal"] ]}.

End ScrollReveal.

(** ** ScrollAnimationController (animations.js) *)

Module ScrollAnimation.

(** What a pass reads from the page: the two window heights and the top of
    each element's bounding box, all of them doubles. *)
Record Layout : Type := mkLayout {
  innerHeight : Double.double;
  clientHeight : Double.double;
  rect_top : Element -> Double.double
}.

Record State : Type := mkState {
  elements : list Element;      (* the nodes matching [data-aos] *)
  threshold : Double.double;
  animated : list Element       (* calls of animateElement, oldest first *)
}.

Definition construct (els : list Element) : State :=
  mkState els Double.point_one [].

(** [a || b] on numbers: [a] unless it is a zero or NaN. *)
Definition js_or (a b : Double.double) : Double.double :=
  match a with
  | SpecFloat.S754_zero _ | SpecFloat.S754_nan => b
  | _ => a
  end.

(** [window.innerHeight || document.documentElement.clientHeight] *)
Definition windowHeight (v : Layout) : Double.double :=
  js_or (innerHeight v) (clientHeight v).

Definition isInViewport (v : Layout) (s : State) (element : Element) : bool :=
  let top := rect_top v element in
  Double.geb top 0 &&
  Double.leb top (Double.mul (windowHeight v) (Double.sub 1 (threshold s))).

(** [animateElement] hands the visual transition to a timeout; the model
    records that it was called for the element. *)
Definition animateElement (element : Element) (s : State) : State :=
  mkState (elements s) (threshold s) (animated s ++ [element]).

Definition checkElements (v : Layout) (s : State) : State :=
  foldl (fun s' element =>
           if isInViewport v s' element then animateElement element s' else s')
        s (elements s).

(** The elements a pass triggers, in order. *)
Definition triggered (v : Layout) (els : list Element) : list Element :=
  animated (checkElements v (construct els)).

End ScrollAnimation.

(** ** IntersectionAnimationController (animations.js) *)

Module IntersectionAnimation.

Local Open Scope stmt_scope.

(** The inline style properties the controller writes; the empty string is
    an unset property. *)
Record Style : Type := mkStyle {
  opacity : string;
  transform : string;
  transition : string
}.

Definition no_style : Style := mkStyle "" "" "".

(** One entry handed to the observer callback. *)
Record Entry : Type := mkEntry {
  target : Element;
  isIntersecting : bool
}.

Record State : Type := mkState {
  observer : option (gset Element);   (* null, or the observed targets *)
  matched : list Element;             (* the nodes matching the selector *)
  styles : gmap Element Style;
  timeouts : list (Z * Element)       (* pending timeouts, in creation
                                         order: delay and captured element *)
}.

Definition M : Type := stmt State.

Definition style_of (s : State) (e : Element) : Style :=
  default no_style (styles s !! e).

Definition set_style (e : Element) (f : Style -> Style) (s : State) : State :=
  mkState (observer s) (matched s) (<[e := f (style_of s e)]> (styles s))
    (timeouts s).

Definition set_opacity (v : string) (st : Style) : Style :=
  mkStyle v (transform st) (transition st).

Definition set_transform (v : string) (st : Style) : Style :=
  mkStyle (opacity st) v (transition st).

Definition set_transition (v : string) (st : Style) : Style :=
  mkStyle (opacity st) (transform st) v.

Definition animateElement (element : Element) : M :=
  modify (set_style element (set_transition "opacity 0.6s ease, transform 0.6s ease")) ;;
  modify (set_style element (set_opacity "1")) ;;
  modify (set_style element (set_transform "translateY(0)")).

(** [this.observer.observe(element)] *)
Definition observe (element : Element) : M :=
  fun s =>
    match observer s with
    | None => (Throw, s)
    | Some o =>
        (Normal, mkState (Some ({[element]} ∪ o)) (matched s) (styles s) (timeouts s))
    end.

(** [this.observer.unobserve(element)] *)
Definition unobserve (element : Element) : M :=
  fun s =>
    match observer s with
    | None => (Throw, s)
    | Some o =>
        (Normal, mkState (Some (o ∖ {[element]})) (matched s) (styles s) (timeouts s))
    end.

(** The callback given to [new IntersectionObserver]. *)
Definition callback (entries : list Entry) : M :=
  forEach (fun entry _ =>
             if isIntersecting entry then
               animateElement (target entry) ;; unobserve (target entry)
             else skip)
          entries.

Definition createObserver : M :=
  modify (fun s => mkState (Some ∅) (matched s) (styles s) (timeouts s)).

Definition observeElements : M :=
  fun s =>
    forEach (fun element _ =>
               modify (set_style element (set_opacity "0")) ;;
               modify (set_style element (set_transform "translateY(30px)")) ;;
               observe element)
            (matched s) s.

(** [setTimeout(callback capturing element, delay)] *)
Definition setTimeout (element : Element) (delay : Z) : M :=
  modify (fun s =>
    mkState (observer s) (matched s) (styles s) (timeouts s ++ [(delay, element)])).

Definition fallbackAnimation : M :=
  fun s =>
    forEach (fun element index => setTimeout element (Z.of_nat index * 200))
            (matched s) s.

(** [init]; [hasIO] is the test ['IntersectionObserver' in window]. *)
Definition init (hasIO : bool) : M :=
  if negb hasIO then fallbackAnimation
  else (createObserver ;; observeElements).

(** [new IntersectionAnimationController()] on a page whose matching nodes
    are [els], with inline styles [styles0]. *)
Definition construct (hasIO : bool) (els : list Element)
    (styles0 : gmap Element Style) : completion * State :=
  init hasIO (mkState None els styles0 []).





(** The element shows its final presentation. *)
Definition revealed (s : State) (e : Element) : bool :=
  bool_decide (opacity (style_of s e) = "1" /\ transform (style_of s e) = "translateY(0)").

(** The inline style [animateElement] leaves on an element. *)
Definition shown_style : Style :=
  mkStyle "1" "translateY(0)" "opacity 0.6s ease, transform 0.6s ease".

(** The element is among the observer's targets. *)
Definition observed (s : State) (e : Element) : bool :=
  match observer s with
  | Some o => bool_decide (e ∈ o)
  | None => false
  end.

(** A page with three matching nodes, none styled yet, in a browser with
    the observer capability. *)
Definition page3 : State := snd (construct true [5; 3; 9]%positive ∅).

End IntersectionAnimation.

(** ** Further notions for the slider *)

Module SliderMore.
Import Slider.

(** The integers on which the arithmetic of the methods is exact in the
    source: added to the number of slides, or multiplied by 100, they stay
    below 2^53. *)
Definition exact_num (a : jsnum) : Prop :=
  match a with
  | Num z => Z.abs z <= 2 ^ 46
  | NaN => True
  end.

Definition exact_state (s : State) : Prop :=
  exact_num (currentSlide s) /\ 0 <= totalSlides s <= 2 ^ 46.

(** The page shows the cursor: when the cursor is a number the track
    offset is [-currentSlide * 100] percent, and each dot is active exactly
    if its position is strictly equal to the cursor. *)
Definition shows_cursor (s : State) : Prop :=
  (forall c, currentSlide s = Num c ->
             track s = Some (translateX (Num (- c * 100)))) /\
  forall i b, dots s !! i = Some b ->
              b = js_strict_eq (Num (Z.of_nat i)) (currentSlide s).

(** The listeners [bindEvents] registers on a page with the given buttons
    and [n] dots are found again by the browser as follows. *)
Definition wired (prev next : bool) (n : nat) (e : Event) : list Handler :=
  match ev_target e, ev_type e with
  | PrevBtnEl, click => if prev then [OnPrevClick] else []
  | NextBtnEl, click => if next then [OnNextClick] else []
  | DotEl index, click => if (index <? n)%nat then [OnDotClick index] else []
  | TrackEl, mouseenter => [OnMouseEnter]
  | TrackEl, mouseleave => [OnMouseLeave]
  | TrackEl, touchstart => [OnTouchStart]
  | TrackEl, touchend => [OnTouchEnd]
  | _, _ => []
  end.

(** A slider constructed on a page that has a track and at least one card,
    after some inputs. *)
Definition live (prev next : bool) (dots0 : list bool) (cards : nat) (s : State) : Prop :=
  exists t h0 inputs,
    cards <> 0%nat /\
    s = run inputs (snd (construct (Some t) prev next dots0 cards h0)).

(** The same, when every input comes from the page. *)
Definition live_on_page (prev next : bool) (dots0 : list bool) (cards : nat)
    (s : State) : Prop :=
  exists t h0 inputs,
    cards <> 0%nat /\
    forallb from_page inputs = true /\
    s = run inputs (snd (construct (Some t) prev next dots0 cards h0)).

End SliderMore.

(** ** Further notions for the animation controllers *)

Module ScrollAnimationMore.
Import ScrollAnimation.

(** Successive passes of [checkElements], one per layout. *)
Definition passes (layouts : list Layout) (s : State) : State :=
  foldl (fun s' v => checkElements v s') s layouts.

End ScrollAnimationMore.

Module IntersectionAnimationMore.
Import IntersectionAnimation.

(** The element waits for its entry: observed, and hidden the way
    [observeElements] hides it. *)
Definition watching (s : State) (e : Element) : Prop :=
  observed s e = true /\
  opacity (style_of s e) = "0" /\ transform (style_of s e) = "translateY(30px)".

(** The element has been revealed and is no longer observed. *)
Definition shown (s : State) (e : Element) : Prop :=
  observed s e = false /\
  opacity (style_of s e) = "1" /\ transform (style_of s e) = "translateY(0)".

#[global] Instance Entry_eq_dec : EqDecision Entry.
Proof. solve_decision. Defined.

(** The observer delivers one batch of entries after the other. *)
Definition deliver (batches : list (list Entry)) (s : State) : State :=
  foldl (fun s' entries => exec (callback entries) s') s batches.

End IntersectionAnimationMore.

(** ** Class lists of the page's elements *)

Module Dom.

(** [DOMTokenList.remove] *)
Definition classList_remove (c : string) (cl : list string) : list string :=
  filter (fun x => x <> c) cl.

(** [DOMTokenList.toggle] with one argument *)
Definition classList_toggle (c : string) (cl : list string) : list string :=
  if decide (c ∈ cl) then classList_remove c cl
  else ScrollReveal.classList_add c cl.

(** The class lists of the page, by element; an element without an entry
    has no class. *)
Abbreviation Classes := (gmap Element (list string)).

Definition classes_of (m : Classes) (e : Element) : list string :=
  default [] (m !! e).

(** [e.classList.add(c)], [e.classList.remove(c)], [e.classList.toggle(c)] *)
Definition class_add (c : string) (e : Element) (m : Classes) : Classes :=
  <[e := ScrollReveal.classList_add c (classes_of m e)]> m.

Definition class_remove (c : string) (e : Element) (m : Classes) : Classes :=
  <[e := classList_remove c (classes_of m e)]> m.

Definition class_toggle (c : string) (e : Element) (m : Classes) : Classes :=
  <[e := classList_toggle c (classes_of m e)]> m.

(** [e.classList.contains(c)] *)
Definition has_class (m : Classes) (e : Element) (c : string) : bool :=
  bool_decide (c ∈ classes_of m e).

(** Comparisons of pixel values. *)
Definition Qgtb (a b : Q) : bool := negb (Qle_bool a b).
Definition Qgeb (a b : Q) : bool := Qle_bool b a.
Definition Qltb (a b : Q) : bool := negb (Qle_bool b a).

End Dom.

(** ** Navigation (components.js) *)

Module Navigation.
Import Dom.

Local Open Scope stmt_scope.

(** A [section[id]] element as [updateActiveLink] sees it. *)
Record PageSection : Type := mkPageSection {
  sec_id : string;        (* getAttribute('id') *)
  offsetTop : Q;
  offsetHeight : Q
}.

Record State : Type := mkState {
  navbar : option Element;      (* #navbar *)
  navToggle : option Element;   (* #nav-toggle *)
  navMenu : option Element;     (* #nav-menu *)
  navLinks : list Element;      (* .nav-link *)
  body : Element;               (* document.body *)
  href : gmap Element string;   (* the href attribute, where present *)
  classList : Classes
}.

Definition M : Type := stmt State.

Definition set_classList (f : Classes -> Classes) (s : State) : State :=
  mkState (navbar s) (navToggle s) (navMenu s) (navLinks s) (body s) (href s)
    (f (classList s)).

(** [x.classList.op(c)] where [x] may be null: a TypeError in that case. *)
Definition on_element (x : option Element) (op : Element -> Classes -> Classes) : M :=
  fun s =>
    match x with
    | Some e => (Normal, set_classList (op e) s)
    | None => (Throw, s)
    end.

(** [x?.classList.op(c)]: nothing happens when [x] is null. *)
Definition on_element_opt (x : option Element) (op : Element -> Classes -> Classes) : M :=
  fun s =>
    match x with
    | Some e => (Normal, set_classList (op e) s)
    | None => (Normal, s)
    end.

Definition toggleMobileMenu : M :=
  (fun s => on_element (navMenu s) (class_toggle "active") s) ;;
  (fun s => on_element (navToggle s) (class_toggle "active") s) ;;
  (fun s => on_element (Some (body s)) (class_toggle "menu-open") s).

Definition closeMobileMenu : M :=
  (fun s => on_element_opt (navMenu s) (class_remove "active") s) ;;
  (fun s => on_element_opt (navToggle s) (class_remove "active") s) ;;
  (fun s => on_element (Some (body s)) (class_remove "menu-open") s).

Definition setActiveLink (target : string) : M :=
  fun s =>
    forEach (fun link (_ : nat) =>
               modify (set_classList (class_remove "active" link)) ;;
               (fun s' =>
                  if bool_decide (href s' !! link = Some target)
                  then modify (set_classList (class_add "active" link)) s'
                  else skip s'))
            (navLinks s) s.

(** [updateActiveLink], for the page scrolled to [scrollY] with the given
    sections in document order. *)
Definition updateActiveLink (scrollY : Q) (sections : list PageSection) : M :=
  let scrollY' := (scrollY + 100)%Q in
  forEach (fun section (_ : nat) =>
             let sectionTop := offsetTop section in
             let sectionHeight := offsetHeight section in
             let sectionId := sec_id section in
             if Qgeb scrollY' sectionTop && Qltb scrollY' (sectionTop + sectionHeight)%Q
             then setActiveLink ("#" +:+ sectionId)
             else skip)
          sections.

Definition handleScroll (scrollY : Q) (sections : list PageSection) : M :=
  (fun s =>
     if Qgtb scrollY 50 then on_element (navbar s) (class_add "scrolled") s
     else on_element (navbar s) (class_remove "scrolled") s) ;;
  updateActiveLink scrollY sections.

(** The test [updateActiveLink] makes for a section. *)
Definition under_probe (scrollY : Q) (section : PageSection) : bool :=
  Qgeb (scrollY + 100)%Q (offsetTop section) &&
  Qltb (scrollY + 100)%Q (offsetTop section + offsetHeight section)%Q.

(** A page with a menu, a toggle and two links. *)
Definition page : State :=
  mkState (Some 1%positive) (Some 2%positive) (Some 3%positive)
    [4; 5]%positive 6%positive
    {[ 4%positive := "#home"; 5%positive := "#fleet" ]}
    {[ 4%positive := ["nav-link"; "active"]; 5%positive := ["nav-link"] ]}.

End Navigation.

(** ** FleetTabs (components.js) *)

Module FleetTabs.
Import Dom.

Record State : Type := mkState {
  tabButtons : list Element;         (* .tab-btn *)
  tabContents : list Element;        (* .tab-content *)
  data_tab : gmap Element string;    (* the data-tab attribute, where present *)
  byId : gmap string Element;        (* document.getElementById *)
  classList : Classes
}.

Definition set_classList (f : Classes -> Classes) (s : State) : State :=
  mkState (tabButtons s) (tabContents s) (data_tab s) (byId s) (f (classList s)).

Definition switchTab (tabId : string) (activeButton : Element) (s : State) : State :=
  let s1 := foldl (fun s' btn => set_classList (class_remove "active" btn) s')
                  s (tabButtons s) in
  let s2 := foldl (fun s' content => set_classList (class_remove "active" content) s')
                  s1 (tabContents s1) in
  let s3 := set_classList (class_add "active" activeButton) s2 in
  match byId s3 !! tabId with
  | Some targetContent => set_classList (class_add "active" targetContent) s3
  | None => s3
  end.

(** The click listener of a tab button.  A missing [data-tab] attribute
    reads as null, which [getElementById] looks up as the string "null". *)
Definition on_click (button : Element) (s : State) : State :=
  let tabId := default "null" (data_tab s !! button) in
  switchTab tabId button s.

End FleetTabs.

Module NavigationMore.
Import Dom Navigation.

(** Only class lists differ between the two states. *)
Definition same_page (s s' : State) : Prop :=
  navbar s' = navbar s /\ navToggle s' = navToggle s /\ navMenu s' = navMenu s /\
  navLinks s' = navLinks s /\ body s' = body s /\ href s' = href s.

(** The class list [setActiveLink(target)] leaves on a link whose class
    list was [cl] and whose href attribute is [h]. *)
Definition link_classes (target : string) (h : option string) (cl : list string)
    : list string :=
  classList_remove "active" cl ++
  (if bool_decide (h = Some target) then ["active"] else []).

End NavigationMore.

(** ** Preloader (components.js) *)

Module Preloader.

(** The two timeout callbacks [hide] creates. *)
Inductive Action : Type :=
| AddHidden      (* adds the class 'hidden', then schedules the removal *)
| RemoveNode.    (* removes the preloader from its parent, if it has one *)

(** Times are milliseconds, as [Date.now()] gives them.  A pending
    timeout is recorded with the time at which it is due. *)
Record State : Type := mkState {
  preloader : option Element;     (* #preloader *)
  minDisplayTime : Z;
  startTime : Z;
  classList : list string;        (* the preloader's classes *)
  attached : bool;                (* the preloader has a parentNode *)
  onload : bool;                  (* the load listener is registered *)
  timeouts : list (Z * Action)    (* pending, in creation order *)
}.

(** [setTimeout(action, delay)] called at time [now]. *)
Definition setTimeout (now : Z) (a : Action) (delay : Z) (s : State) : State :=
  mkState (preloader s) (minDisplayTime s) (startTime s) (classList s)
    (attached s) (onload s) (timeouts s ++ [(now + delay, a)]).

(** [hide()], where [Date.now()] is [now]. *)
Definition hide (now : Z) (s : State) : State :=
  let elapsedTime := now - startTime s in
  let remainingTime := Z.max 0 (minDisplayTime s - elapsedTime) in
  setTimeout now AddHidden remainingTime s.

(** [init()]; [complete] is the test [document.readyState === 'complete']. *)
Definition init (now : Z) (complete : bool) (s : State) : State :=
  match preloader s with
  | None => s
  | Some _ =>
      if complete then hide now s
      else mkState (preloader s) (minDisplayTime s) (startTime s) (classList s)
             (attached s) true (timeouts s)
  end.

(** [new Preloader()] at time [now] on a page whose preloader element, if
    any, has the classes [classes0]; [now'] is the time [init] reads if it
    calls [hide] at once. *)
Definition construct (el : option Element) (classes0 : list string)
    (attached0 : bool) (now : Z) (complete : bool) (now' : Z) : State :=
  init now' complete (mkState el 1000 now classes0 attached0 false []).

(** A timeout callback, run at time [now].  With no preloader the first
    callback fails on [this.preloader.classList] and schedules nothing. *)
Definition run_action (now : Z) (a : Action) (s : State) : State :=
  match a with
  | AddHidden =>
      match preloader s with
      | None => s
      | Some _ =>
          setTimeout now RemoveNode 500
            (mkState (preloader s) (minDisplayTime s) (startTime s)
               (ScrollReveal.classList_add "hidden" (classList s))
               (attached s) (onload s) (timeouts s))
      end
  | RemoveNode =>
      match preloader s with
      | None => s
      | Some _ =>
          if attached s
          then mkState (preloader s) (minDisplayTime s) (startTime s) (classList s)
                 false (onload s) (timeouts s)
          else s
      end
  end.

(** Timeouts in the order in which they expire: by due time, and in
    creation order among equal times. *)
Fixpoint insert_due (t : Z * Action) (l : list (Z * Action)) : list (Z * Action) :=
  match l with
  | [] => [t]
  | u :: l' => if fst t <? fst u then t :: l else u :: insert_due t l'
  end.

Definition by_due (l : list (Z * Action)) : list (Z * Action) :=
  foldl (fun acc t => insert_due t acc) [] l.

(** The event loop at time [now]: the pending timeouts that are due run
    and leave the queue. *)
Definition advance (now : Z) (s : State) : State :=
  let due := filter (fun t => fst t <= now) (timeouts s) in
  let rest := filter (fun t => ~ fst t <= now) (timeouts s) in
  foldl (fun s' t => run_action now (snd t) s')
        (mkState (preloader s) (minDisplayTime s) (startTime s) (classList s)
           (attached s) (onload s) rest)
        (by_due due).

Inductive Event : Type :=
| Load (now : Z)        (* the window's load event *)
| Advance (now : Z).    (* the event loop reaches this time *)

Definition event_time (e : Event) : Z :=
  match e with
  | Load now | Advance now => now
  end.

Definition step (e : Event) (s : State) : State :=
  match e with
  | Load now => if onload s then hide now s else s
  | Advance now => advance now s
  end.

Definition run (events : list Event) (s : State) : State :=
  foldl (fun s' e => step e s') s events.

(** Nothing is due before the minimum display time has passed. *)
Definition quiet (s : State) : Prop :=
  Forall (fun t => startTime s + minDisplayTime s <= fst t) (timeouts s).

End Preloader.

(** ** The resize handler of the application (main script) *)

Module ResizeHandler.

(** The closure variable [resizeTimeout], the browser's pending timeouts
    created by the listener (handle -> due time) and its next handle;
    [handled] records the times at which [handleResize] ran. *)
Record State : Type := mkState {
  resizeTimeout : option positive;    (* undefined until the first event *)
  pending : gmap positive Z;
  next_handle : positive;
  handled : list Z
}.

Definition initial (h0 : positive) : State := mkState None ∅ h0 [].

(** [clearTimeout(resizeTimeout)] *)
Definition clearTimeout (s : State) : State :=
  match resizeTimeout s with
  | Some h => mkState (resizeTimeout s) (delete h (pending s)) (next_handle s) (handled s)
  | None => s
  end.

(** The resize listener, run at time [now]. *)
Definition on_resize (now : Z) (s : State) : State :=
  let s1 := clearTimeout s in
  let h := next_handle s1 in
  mkState (Some h) (<[h := now + 250]> (pending s1)) (Pos.succ h) (handled s1).

(** The timeout with handle [h] expires at time [now]: if it is pending and
    due, it leaves the queue and [handleResize] runs. *)
Definition expire (h : positive) (now : Z) (s : State) : State :=
  match pending s !! h with
  | Some due =>
      if due <=? now
      then mkState (resizeTimeout s) (delete h (pending s)) (next_handle s)
             (handled s ++ [now])
      else s
  | None => s
  end.

Inductive Event : Type :=
| Resize (now : Z)
| Expire (h : positive) (now : Z).

Definition step (e : Event) (s : State) : State :=
  match e with
  | Resize now => on_resize now s
  | Expire h now => expire h now s
  end.

Definition run (events : list Event) (s : State) : State :=
  foldl (fun s' e => step e s') s events.

Definition is_resize (e : Event) : bool :=
  match e with
  | Resize _ => true
  | Expire _ _ => false
  end.

(** The time of the last resize event, if there was one. *)
Definition last_resize (events : list Event) : option Z :=
  foldl (fun acc e => match e with Resize now => Some now | Expire _ _ => acc end)
        None events.

(** The handle in the closure variable is the only one that can be
    pending, and handles are handed out in increasing order. *)
Definition inv (s : State) : Prop :=
  match resizeTimeout s with
  | Some h => (h < next_handle s)%positive /\
              forall h', h' <> h -> pending s !! h' = None
  | None => pending s = ∅
  end.

End ResizeHandler.

(** ** CounterAnimation (components.js) *)

Module CounterAnimation.

Record State : Type := mkState {
  counters : list Element;     (* the nodes matching [data-count] *)
  hasAnimated : bool;
  bound : bool;                (* the scroll listener is registered *)
  started : list Element       (* counters whose animation was started,
                                  oldest first *)
}.

(** [animateCounters]: starts the animation of every counter. *)
Definition animateCounters (s : State) : State :=
  mkState (counters s) (hasAnimated s) (bound s) (started s ++ counters s).

(** [checkCounters]; [heroStats] is the result of
    [document.querySelector('.hero-stats')] and [isInViewport] the helper
    of [utils.js] for the layout at that moment. *)
Definition checkCounters (heroStats : option Element)
    (isInViewport : Element -> Z -> bool) (s : State) : State :=
  if hasAnimated s then s
  else
    match heroStats with
    | Some h =>
        if isInViewport h 100
        then let s1 := animateCounters s in
             mkState (counters s1) true (bound s1) (started s1)
        else s
    | None => s
    end.

Definition init (s : State) : State :=
  if (length (counters s) =? 0)%nat then s
  else mkState (counters s) (hasAnimated s) true (started s).

Definition construct (els : list Element) : State :=
  init (mkState els false false []).

(** A scroll event that gets through the throttle: the listener runs if
    it was registered. *)
Definition on_scroll (pass : option Element * (Element -> Z -> bool)) (s : State)
    : State :=
  if bound s then checkCounters (fst pass) (snd pass) s else s.

Definition run (passes : list (option Element * (Element -> Z -> bool)))
    (s : State) : State :=
  foldl (fun s' pass => on_scroll pass s') s passes.

(** The hero statistics are on the page and in the viewport. *)
Definition sees (pass : option Element * (Element -> Z -> bool)) : bool :=
  match fst pass with
  | Some h => snd pass h 100
  | None => false
  end.

End CounterAnimation.

(** ** Strings and regular expressions as FormHandler uses them *)

(** A JavaScript string is a sequence of UTF-16 code units. *)
Abbreviation jsstring := (list N).

Module Regex.

Local Open Scope N_scope.

(** The class [\s]: white space and line terminators. *)
Definition is_space (c : N) : bool :=
  (c =? 9) || (c =? 10) || (c =? 11) || (c =? 12) || (c =? 13) || (c =? 32) ||
  (c =? 160) || (c =? 5760) || ((8192 <=? c) && (c <=? 8202)) ||
  (c =? 8232) || (c =? 8233) || (c =? 8239) || (c =? 8287) || (c =? 12288) ||
  (c =? 65279).

(** The class [\d]. *)
Definition is_digit (c : N) : bool := (48 <=? c) && (c <=? 57).

(** The patterns of the file, without anchors: the empty language, the
    empty string, one code unit of a class, concatenation, alternation and
    iteration. *)
Inductive re : Type :=
| Nul
| Eps
| Sym (p : N -> bool)
| Cat (r1 r2 : re)
| Alt (r1 r2 : re)
| Star (r : re).

(** [r+], [r?] and [r{0,n}] *)
Definition Plus (r : re) : re := Cat r (Star r).
Definition Opt (r : re) : re := Alt r Eps.
Fixpoint Upto (n : nat) (r : re) : re :=
  match n with
  | O => Eps
  | S n' => Opt (Cat r (Upto n' r))
  end.

(** The strings a pattern matches entirely. *)
Inductive Matches : re -> jsstring -> Prop :=
| MEps : Matches Eps []
| MSym p c : p c = true -> Matches (Sym p) [c]
| MCat r1 r2 s1 s2 : Matches r1 s1 -> Matches r2 s2 -> Matches (Cat r1 r2) (s1 ++ s2)
| MAltL r1 r2 s : Matches r1 s -> Matches (Alt r1 r2) s
| MAltR r1 r2 s : Matches r2 s -> Matches (Alt r1 r2) s
| MStarNil r : Matches (Star r) []
| MStarApp r s1 s2 : Matches r s1 -> Matches (Star r) s2 -> Matches (Star r) (s1 ++ s2).

(** Matching by derivatives. *)
Fixpoint nullable (r : re) : bool :=
  match r with
  | Nul => false
  | Eps => true
  | Sym _ => false
  | Cat r1 r2 => nullable r1 && nullable r2
  | Alt r1 r2 => nullable r1 || nullable r2
  | Star _ => true
  end.

Fixpoint deriv (c : N) (r : re) : re :=
  match r with
  | Nul => Nul
  | Eps => Nul
  | Sym p => if p c then Eps else Nul
  | Cat r1 r2 =>
      if nullable r1 then Alt (Cat (deriv c r1) r2) (deriv c r2)
      else Cat (deriv c r1) r2
  | Alt r1 r2 => Alt (deriv c r1) (deriv c r2)
  | Star r' => Cat (deriv c r') (Star r')
  end.

(** [/^r$/.test(s)] *)
Definition test (r : re) (s : jsstring) : bool :=
  nullable (foldl (fun r' c => deriv c r') r s).

(** [s.trim()] *)
Fixpoint trimStart (s : jsstring) : jsstring :=
  match s with
  | [] => []
  | c :: s' => if is_space c then trimStart s' else s
  end.

Definition trimEnd (s : jsstring) : jsstring := rev (trimStart (rev s)).

Definition trim (s : jsstring) : jsstring := trimEnd (trimStart s).

End Regex.

(** ** FormHandler: validation (components.js) *)

Module FormHandler.
Import Regex.

Local Open Scope N_scope.

(** What validation reads of a form control. *)
Record Field : Type := mkField {
  value : jsstring;
  type : string;
  required : bool        (* hasAttribute('required') *)
}.

(** [/^[^\s@]+@[^\s@]+\.[^\s@]+$/]; 64 is [@] and 46 is the dot. *)
Definition not_space_or_at (c : N) : bool := negb (is_space c || (c =? 64)).

Definition emailRegex : re :=
  Cat (Plus (Sym not_space_or_at))
    (Cat (Sym (fun c => c =? 64))
       (Cat (Plus (Sym not_space_or_at))
          (Cat (Sym (fun c => c =? 46))
             (Plus (Sym not_space_or_at))))).

Definition isValidEmail (email : jsstring) : bool := test emailRegex email.

(** [/^[\+]?[1-9][\d]{0,15}$/]; 43 is [+], 49 to 57 are the digits 1 to 9. *)
Definition phoneRegex : re :=
  Cat (Opt (Sym (fun c => c =? 43)))
    (Cat (Sym (fun c => (49 <=? c) && (c <=? 57)))
       (Upto 15 (Sym is_digit))).

(** [phone.replace(/\D/g, '')]: every code unit that is not a digit is
    dropped before the test. *)
Definition isValidPhone (phone : jsstring) : bool :=
  test phoneRegex (filter (fun c => is_digit c = true) phone).

(** The decision of [validateField]: validity and the message handed to
    [setFieldError] (the empty message for a valid field).  A string is
    truthy when it is not empty. *)
Definition validateField_result (field : Field) : bool * string :=
  let value := trim (value field) in
  let type := type field in
  let isValid := true in
  let message := ""%string in
  let '(isValid, message) :=
    if required field && bool_decide (value = [])
    then (false, "This field is required"%string) else (isValid, message) in
  let '(isValid, message) :=
    if bool_decide (type = "email"%string) && negb (bool_decide (value = [])) &&
       negb (isValidEmail value)
    then (false, "Please enter a valid email address"%string)
    else (isValid, message) in
  let '(isValid, message) :=
    if bool_decide (type = "tel"%string) && negb (bool_decide (value = [])) &&
       negb (isValidPhone value)
    then (false, "Please enter a valid phone number"%string)
    else (isValid, message) in
  (isValid, if isValid then ""%string else message).

(** The form: its controls in document order, and the messages
    [setFieldError] was called with, oldest first (by position of the
    control). *)
Record State : Type := mkState {
  inputs : list Field;
  errors : list (nat * string)
}.

(** [validateField(field)] for the control at [index]: calls
    [setFieldError], returns the validity. *)
Definition validateField (index : nat) (field : Field) (s : State) : bool * State :=
  let '(isValid, message) := validateField_result field in
  (isValid, mkState (inputs s) (errors s ++ [(index, message)])).

(** [querySelectorAll('input[required], select[required],
    textarea[required]')]: the required controls with their positions, in
    document order. *)
Definition required_inputs (s : State) : list (nat * Field) :=
  filter (fun '(_, field) => required field = true)
         (imap (fun index field => (index, field)) (inputs s)).

(** [validateForm()]: the required controls are validated one after the
    other, also after a failure. *)
Definition validateForm (s : State) : bool * State :=
  let inputs := required_inputs s in
  foldl (fun '(isValid, s') '(index, field) =>
           let '(ok, s'') := validateField index field s' in
           (if negb ok then false else isValid, s''))
        (true, s) inputs.

End FormHandler.

(** * Statements preserve what their parts preserve *)

Section StatementFacts.
Context {St : Type} (P : St -> Prop).

Lemma seq_preserves (a b : stmt St) :
  (forall s, P s -> P (exec a s)) ->
  (forall s, P s -> P (exec b s)) ->
  forall s, P s -> P (exec (seq a b) s).
Proof.
  intros Ha Hb s Hs. specialize (Ha s Hs). unfold exec, seq in *.
  destruct (a s) as [[] s']; cbn in *; auto.
Qed.

Lemma forEach_from_preserves {A : Type} (body : A -> nat -> stmt St) :
  (forall x i s, P s -> P (exec (body x i) s)) ->
  forall l i s, P s -> P (exec (forEach_from i body l) s).
Proof.
  intros Hbody l. induction l as [|x l IH]; intros i s Hs; cbn.
  - exact Hs.
  - apply seq_preserves; auto.
Qed.
Lemma exec_seq_normal (a b : stmt St) s :
  fst (a s) = Normal -> exec (seq a b) s = exec b (exec a s).
Proof.
  unfold exec, seq. destruct (a s) as [c s']. cbn. intros ->. reflexivity.
Qed.

Lemma fst_seq_normal (a b : stmt St) s :
  fst (a s) = Normal -> fst (seq a b s) = fst (b (exec a s)).
Proof.
  unfold exec, seq. destruct (a s) as [c s']. cbn. intros ->. reflexivity.
Qed.
End StatementFacts.

(** * Comparisons of doubles *)

Module DoubleFacts.
Import SpecFloat.

(** Swapping the sides of a comparison reverses its outcome; a comparison
    with NaN has none either way. *)
Lemma compare_antisym (a b : Double.double) :
  SFcompare b a = option_map CompOpp (SFcompare a b).
Proof.
  destruct a as [sa|sa| |sa ma ea], b as [sb|sb| |sb mb eb]; cbn [SFcompare option_map];
    try reflexivity;
    try (destruct sa; reflexivity); try (destruct sb; reflexivity);
    try (destruct sa, sb; reflexivity).
  change (Pos.compare_cont Eq mb ma) with (mb ?= ma)%positive.
  change (Pos.compare_cont Eq ma mb) with (ma ?= mb)%positive.
  rewrite (Z.compare_antisym ea eb), (Pos.compare_antisym ma mb).
  destruct sa, sb; cbn [CompOpp]; try reflexivity;
    destruct (ea ?= eb)%Z; cbn [CompOpp]; reflexivity.
Qed.

Lemma ltb_asym (a b : Double.double) :
  Double.ltb a b = true -> Double.ltb b a = false.
Proof.
  unfold Double.ltb, SFltb. rewrite (compare_antisym a b).
  destruct (SFcompare a b) as [[]|]; cbn; congruence.
Qed.

Lemma leb_not_gtb (a b : Double.double) :
  Double.leb a b = true -> Double.gtb a b = false.
Proof.
  unfold Double.gtb, Double.leb, Double.ltb, SFleb, SFltb. rewrite (compare_antisym a b).
  destruct (SFcompare a b) as [[]|]; cbn; congruence.
Qed.

Lemma nan_not_gtb (a b : Double.double) :
  Double.is_nan a = true -> Double.gtb (Double.abs a) b = false.
Proof.
  destruct a; try discriminate. intros _.
  unfold Double.gtb, Double.ltb, SFltb. cbn [Double.abs SFabs].
  by destruct b.
Qed.

End DoubleFacts.

(** * Properties of the slider *)

Module SliderFacts.
Import Slider.

Local Open Scope stmt_scope.

(** Unfold a method body down to the record operations. *)
Ltac unfold_methods :=
  unfold exec, nextSlide, prevSlide, goToSlide, handleSwipe, startAutoPlay,
    stopAutoPlay, armInterval, updateSlider, updateDots, log, seq, modify, skip
    in *;
  cbn [fst snd track prevBtn nextBtn dots currentSlide totalSlides
       autoPlayInterval autoPlayDelay startX endX listeners timers
       next_handle calls set_track set_dots set_currentSlide
       set_autoPlayInterval set_startX set_endX set_listeners set_timers
       set_next_handle set_calls] in *.

Ltac by_track s :=
  unfold_methods; destruct (track s); repeat apply conj; reflexivity.

Lemma nextSlide_currentSlide s :
  currentSlide (exec nextSlide s) =
  js_rem (js_add (currentSlide s) (Num 1)) (Num (totalSlides s)).
Proof. by_track s. Qed.

Lemma prevSlide_currentSlide s :
  currentSlide (exec prevSlide s) =
  js_rem (js_add (js_sub (currentSlide s) (Num 1)) (Num (totalSlides s)))
         (Num (totalSlides s)).
Proof. by_track s. Qed.

Lemma goToSlide_currentSlide index s :
  currentSlide (exec (goToSlide index) s) = index.
Proof. by_track s. Qed.

Lemma nextSlide_frame s : same_outside_render s (exec nextSlide s).
Proof. unfold same_outside_render. by_track s. Qed.

Lemma prevSlide_frame s : same_outside_render s (exec prevSlide s).
Proof. unfold same_outside_render. by_track s. Qed.

Lemma goToSlide_frame index s : same_outside_render s (exec (goToSlide index) s).
Proof. unfold same_outside_render. by_track s. Qed.

Lemma nextSlide_calls s : calls (exec nextSlide s) = calls s ++ [CallNext].
Proof. by_track s. Qed.

Lemma prevSlide_calls s : calls (exec prevSlide s) = calls s ++ [CallPrev].
Proof. by_track s. Qed.

Lemma frame_totalSlides s s' : same_outside_render s s' -> totalSlides s' = totalSlides s.
Proof. unfold same_outside_render. tauto. Qed.

(** The wrap-around arithmetic on a valid cursor. *)
Lemma rem_succ c N : 0 <= c < N -> Z.rem (c + 1) N = if c + 1 =? N then 0 else c + 1.
Proof.
  intros Hc. destruct (Z.eqb_spec (c + 1) N) as [->|Hne].
  - apply Z.rem_same. lia.
  - apply Z.rem_small. lia.
Qed.

Lemma rem_pred c N : 0 <= c < N -> Z.rem (c - 1 + N) N = if c =? 0 then N - 1 else c - 1.
Proof.
  intros Hc. destruct (Z.eqb_spec c 0) as [->|Hne].
  - replace (0 - 1 + N) with (N - 1) by ring. apply Z.rem_small. lia.
  - replace (c - 1 + N) with (c - 1 + 1 * N) by ring.
    rewrite Z.rem_mod_nonneg by lia.
    rewrite Z_mod_plus_full. apply Z.mod_small. lia.
Qed.

Lemma next_in_range N s :
  1 <= N -> totalSlides s = N -> in_range N s -> in_range N (exec nextSlide s).
Proof.
  intros HN Ht (c & Hc & Hr). unfold in_range.
  rewrite nextSlide_currentSlide, Hc, Ht. cbn.
  destruct (Z.eqb_spec N 0); [lia|].
  rewrite rem_succ by lia. eexists; split; [reflexivity|].
  destruct (Z.eqb_spec (c + 1) N); lia.
Qed.

Lemma prev_in_range N s :
  1 <= N -> totalSlides s = N -> in_range N s -> in_range N (exec prevSlide s).
Proof.
  intros HN Ht (c & Hc & Hr). unfold in_range.
  rewrite prevSlide_currentSlide, Hc, Ht. cbn.
  destruct (Z.eqb_spec N 0); [lia|].
  rewrite rem_pred by lia. eexists; split; [reflexivity|].
  destruct (Z.eqb_spec c 0); lia.
Qed.

Lemma valid_index_in_range s :
  valid_index s = true <-> in_range (totalSlides s) s.
Proof.
  unfold valid_index, in_range. destruct (currentSlide s) as [c|].
  - rewrite andb_true_iff, Z.leb_le, Z.ltb_lt. split.
    + intros H. exists c. split; [reflexivity | lia].
    + intros (c' & [= <-] & H). lia.
  - split; [discriminate | intros (c & H & _); discriminate].
Qed.

(** C1.  For every slide count N >= 1 and every finite sequence of
    next() and previous() calls that starts from a valid index,
    currentSlide is an integer in [0, N-1] after each call (and the slide
    count is still N). *)
Theorem C1_index_stays_in_range (N : Z) (ops : list Nav) (s : State) :
  1 <= N ->
  totalSlides s = N ->
  in_range N s ->
  Forall (fun s' => in_range N s' /\ totalSlides s' = N) (states_after ops s).
Proof.
  intros HN. revert s. induction ops as [|op ops IH]; intros s Ht Hr; cbn.
  - constructor.
  - assert (Hstep : in_range N (exec (nav op) s) /\ totalSlides (exec (nav op) s) = N).
    { destruct op; cbn.
      - split; [by apply next_in_range|].
        rewrite (frame_totalSlides _ _ (nextSlide_frame s)). exact Ht.
      - split; [by apply prev_in_range|].
        rewrite (frame_totalSlides _ _ (prevSlide_frame s)). exact Ht. }
    constructor; [exact Hstep|]. apply IH; tauto.
Qed.

Lemma C1_index_stays_in_range_witness :
  Forall (fun s' => in_range 3 s' /\ totalSlides s' = 3)
         (states_after [Next; Next; Next; Prev; Prev] slider3).
Proof.
  apply (C1_index_stays_in_range 3 [Next; Next; Next; Prev; Prev] slider3).
  - lia.
  - reflexivity.
  - exists 0. split; [reflexivity | lia].
Defined.

(** C10.  For every slide count N >= 1 and every currentSlide in
    [0, N-1], next() followed by previous() restores currentSlide, and so
    does previous() followed by next(). *)
Theorem C10_next_prev_inverse (N : Z) (s : State) :
  1 <= N ->
  totalSlides s = N ->
  in_range N s ->
  currentSlide (exec prevSlide (exec nextSlide s)) = currentSlide s /\
  currentSlide (exec nextSlide (exec prevSlide s)) = currentSlide s.
Proof.
  intros HN Ht (c & Hc & Hr).
  rewrite prevSlide_currentSlide, nextSlide_currentSlide.
  rewrite (nextSlide_currentSlide (exec prevSlide s)), prevSlide_currentSlide.
  rewrite (frame_totalSlides _ _ (nextSlide_frame s)).
  rewrite (frame_totalSlides _ _ (prevSlide_frame s)).
  rewrite Hc, Ht. cbn.
  destruct (Z.eqb_spec N 0); [lia|]. cbn.
  destruct (Z.eqb_spec N 0); [lia|].
  rewrite (rem_succ c N), (rem_pred c N) by lia.
  split; f_equal.
  - destruct (Z.eqb_spec (c + 1) N).
    + rewrite (rem_pred 0 N) by lia. cbn. lia.
    + rewrite (rem_pred (c + 1) N) by lia.
      destruct (Z.eqb_spec (c + 1) 0); lia.
  - destruct (Z.eqb_spec c 0).
    + rewrite (rem_succ (N - 1) N) by lia.
      destruct (Z.eqb_spec (N - 1 + 1) N); lia.
    + rewrite (rem_succ (c - 1) N) by lia.
      destruct (Z.eqb_spec (c - 1 + 1) N); lia.
Qed.

Lemma C10_next_prev_inverse_witness :
  currentSlide (exec prevSlide (exec nextSlide slider3)) = currentSlide slider3 /\
  currentSlide (exec nextSlide (exec prevSlide slider3)) = currentSlide slider3.
Proof.
  apply (C10_next_prev_inverse 3 slider3).
  - lia.
  - reflexivity.
  - exists 0. split; [reflexivity | lia].
Defined.

(** C2, as stated, fails: on three slides goTo(7) leaves currentSlide at 7,
    which is neither 7 mod 3 nor a valid index, and goTo(-1) leaves -1. *)
Lemma C2_goTo_stores_raw_index :
  currentSlide (exec (goToSlide (Num 7)) slider3) = Num 7 /\
  Num 7 <> Num (7 mod totalSlides slider3) /\
  valid_index (exec (goToSlide (Num 7)) slider3) = false /\
  currentSlide (exec (goToSlide (Num (-1))) slider3) = Num (-1) /\
  valid_index (exec (goToSlide (Num (-1))) slider3) = false.
Proof. repeat apply conj; try reflexivity. discriminate. Qed.

(** C2, amended.  For every integer i and every slide count N > 0,
    goTo(i) sets currentSlide to i itself, without normalization; the
    result is a valid index in [0, N-1], and equals i mod N, exactly when
    0 <= i < N. *)
Theorem C2_goTo_sets_index (i : Z) (s : State) :
  0 < totalSlides s ->
  let s' := exec (goToSlide (Num i)) s in
  currentSlide s' = Num i /\
  totalSlides s' = totalSlides s /\
  (valid_index s' = true <-> 0 <= i < totalSlides s) /\
  (currentSlide s' = Num (i mod totalSlides s) <-> 0 <= i < totalSlides s).
Proof.
  intros HN s'. subst s'.
  pose proof (goToSlide_currentSlide (Num i) s) as Hc.
  pose proof (frame_totalSlides _ _ (goToSlide_frame (Num i) s)) as Ht.
  split; [exact Hc|]. split; [exact Ht|]. split.
  - unfold valid_index. rewrite Hc, Ht.
    rewrite andb_true_iff, Z.leb_le, Z.ltb_lt. tauto.
  - rewrite Hc. split.
    + intros [= Heq]. rewrite Heq. apply Z.mod_pos_bound. lia.
    + intros Hr. rewrite Z.mod_small by lia. reflexivity.
Qed.

Lemma C2_goTo_sets_index_witness :
  let s' := exec (goToSlide (Num 2)) slider3 in
  currentSlide s' = Num 2 /\
  totalSlides s' = totalSlides slider3 /\
  (valid_index s' = true <-> 0 <= 2 < totalSlides slider3) /\
  (currentSlide s' = Num (2 mod totalSlides slider3) <-> 0 <= 2 < totalSlides slider3).
Proof. apply (C2_goTo_sets_index 2 slider3). reflexivity. Defined.

(** C9.  For every index and every autoplay state, goTo changes only
    currentSlide, the rendered offset and the indicator dots: the timer
    field autoPlayInterval, the armed timers and the next timer handle are
    as before, so autoplay is neither cancelled nor re-armed. *)
Theorem C9_goTo_leaves_autoplay (index : jsnum) (s : State) :
  let s' := exec (goToSlide index) s in
  autoPlayInterval s' = autoPlayInterval s /\
  timers s' = timers s /\
  next_handle s' = next_handle s /\
  same_outside_render s s' /\
  currentSlide s' = index.
Proof.
  intros s'. subst s'.
  pose proof (goToSlide_frame index s) as Hf.
  pose proof Hf as (Ha & Htm & Hn & _).
  split; [exact Ha|]. split; [exact Htm|]. split; [exact Hn|].
  split; [exact Hf|]. apply goToSlide_currentSlide.
Qed.

(** C4.  For every pair of coordinates, fractional ones included, with
    diff = startX - endX as the code computes it: if |diff| > 50 and
    diff > 0, handleSwipe does what one next() does and enters next()
    exactly once; if |diff| > 50 and diff < 0, it does what one previous()
    does and enters previous() exactly once; if |diff| <= 50 it does
    nothing, and neither does it when diff is NaN. *)
Theorem C4_handleSwipe_threshold (x0 x1 : Double.double) (s : State) :
  let diff := Double.sub x0 x1 in
  (Double.gtb (Double.abs diff) 50 = true -> Double.gtb diff 0 = true ->
     handleSwipe x0 x1 s = nextSlide s /\
     calls (exec (handleSwipe x0 x1) s) = calls s ++ [CallNext]) /\
  (Double.gtb (Double.abs diff) 50 = true -> Double.ltb diff 0 = true ->
     handleSwipe x0 x1 s = prevSlide s /\
     calls (exec (handleSwipe x0 x1) s) = calls s ++ [CallPrev]) /\
  (Double.leb (Double.abs diff) 50 = true ->
     handleSwipe x0 x1 s = (Normal, s)) /\
  (Double.is_nan diff = true ->
     handleSwipe x0 x1 s = (Normal, s)).
Proof.
  intros diff. unfold handleSwipe. cbv zeta. fold diff.
  split; [|split; [|split]].
  - intros -> ->. split; [reflexivity | apply nextSlide_calls].
  - intros -> Hneg.
    assert (Hg : Double.gtb diff 0 = false) by exact (DoubleFacts.ltb_asym _ _ Hneg).
    rewrite Hg. split; [reflexivity | apply prevSlide_calls].
  - intros Hle. by rewrite (DoubleFacts.leb_not_gtb _ _ Hle).
  - intros Hnan. by rewrite (DoubleFacts.nan_not_gtb _ _ Hnan).
Qed.

(** The swipes of the witness: from 100.5 to 50 (a difference of 50.5),
    from 40 to 100, and from 100 to 50 (a difference of exactly 50). *)
Lemma C4_handleSwipe_threshold_witness :
  (handleSwipe (Double.of_dyadic 201 (-1)) 50 slider3 = nextSlide slider3 /\
   calls (exec (handleSwipe (Double.of_dyadic 201 (-1)) 50) slider3) =
     calls slider3 ++ [CallNext]) /\
  (handleSwipe 40 100 slider3 = prevSlide slider3 /\
   calls (exec (handleSwipe 40 100) slider3) = calls slider3 ++ [CallPrev]) /\
  handleSwipe 100 50 slider3 = (Normal, slider3).
Proof.
  split; [|split].
  - apply (C4_handleSwipe_threshold (Double.of_dyadic 201 (-1)) 50 slider3); reflexivity.
  - apply (C4_handleSwipe_threshold 40 100 slider3); reflexivity.
  - destruct (C4_handleSwipe_threshold 100 50 slider3) as (_ & _ & H & _).
    apply H. reflexivity.
Defined.

(** C3, as stated, fails: with no slide, next() and previous() evaluate a
    remainder by zero and store NaN, goTo(2) stores 2, and a swipe over the
    threshold changes the state. *)
Lemma C3_methods_not_guarded :
  totalSlides slider0 = 0 /\
  currentSlide slider0 = Num 0 /\
  currentSlide (exec nextSlide slider0) = NaN /\
  currentSlide (exec prevSlide slider0) = NaN /\
  currentSlide (exec (goToSlide (Num 2)) slider0) = Num 2 /\
  exec nextSlide slider0 <> slider0 /\
  exec (handleSwipe 100 40) slider0 <> slider0.
Proof.
  repeat apply conj; try reflexivity.
  - intros H. apply (f_equal currentSlide) in H. discriminate H.
  - intros H. apply (f_equal currentSlide) in H. discriminate H.
Qed.

Lemma construct_no_cards track0 prev next dots0 h0 :
  construct track0 prev next dots0 0 h0 =
  (Normal, mkState track0 prev next dots0 (Num 0) 0 None 5000 0 0 [] ∅ h0 []).
Proof. unfold construct, init. cbn. destruct track0; reflexivity. Qed.

(** C3, amended.  When the slide count is 0 the constructor binds no
    listener and arms no timer, so no event and no timer expiry reaches a
    navigation operation: under every sequence of page inputs the slider
    state stays as constructed and no navigation method is entered (hence
    no remainder by zero is evaluated). *)
Theorem C3_no_slides_nothing_bound
    (track0 : option css_transform) (prev next : bool) (dots0 : list bool)
    (h0 : positive) (inputs : list Input) :
  forallb from_page inputs = true ->
  let s0 := snd (construct track0 prev next dots0 0 h0) in
  listeners s0 = [] /\
  timers s0 = ∅ /\
  autoPlayInterval s0 = None /\
  run inputs s0 = s0 /\
  calls (run inputs s0) = [].
Proof.
  intros Hin s0. subst s0. rewrite construct_no_cards. cbn [snd].
  set (s0 := mkState _ _ _ _ _ _ _ _ _ _ _ _ _ _).
  assert (Hrun : run inputs s0 = s0).
  { induction inputs as [|i inputs IH]; [reflexivity|].
    cbn in Hin. apply andb_true_iff in Hin as [Hi Hin].
    unfold run in *. cbn [foldl].
    destruct i; try discriminate Hi; cbn [step].
    - unfold dispatch, matching. cbn. exact (IH Hin).
    - unfold tick. cbn [timers s0]. rewrite lookup_empty. exact (IH Hin). }
  rewrite Hrun. repeat apply conj; reflexivity.
Qed.

Lemma C3_no_slides_nothing_bound_witness :
  let inputs :=
    [Dispatch (mkEvent NextBtnEl click 0); Tick 1;
     Dispatch (mkEvent TrackEl touchstart 100);
     Dispatch (mkEvent TrackEl touchend 40);
     Dispatch (mkEvent TrackEl mouseleave 0)] in
  listeners slider0 = [] /\
  timers slider0 = ∅ /\
  autoPlayInterval slider0 = None /\
  run inputs slider0 = slider0 /\
  calls (run inputs slider0) = [].
Proof.
  intros inputs.
  apply (C3_no_slides_nothing_bound (Some transform_unset) true true [] 1 inputs).
  reflexivity.
Defined.

(** *** The autoplay timer *)

Lemma timer_inv_frame s s' :
  same_outside_render s s' -> timer_inv s -> timer_inv s'.
Proof.
  intros (Ha & Ht & Hn & Hd & _). unfold timer_inv.
  rewrite Ha, Ht, Hn, Hd. tauto.
Qed.

Lemma stopAutoPlay_inv s :
  timer_inv s ->
  let s' := exec stopAutoPlay s in
  timers s' = ∅ /\ autoPlayInterval s' = None /\
  next_handle s' = next_handle s /\ autoPlayDelay s' = autoPlayDelay s.
Proof.
  unfold timer_inv. unfold_methods.
  destruct (autoPlayInterval s) as [h|] eqn:Hh; cbn.
  - intros [-> _]. rewrite delete_singleton_eq. auto.
  - intros ->. auto.
Qed.

Lemma startAutoPlay_inv s :
  timer_inv s ->
  let s' := exec startAutoPlay s in
  timers s' = {[ next_handle s := autoPlayDelay s ]} /\
  autoPlayInterval s' = Some (next_handle s) /\
  next_handle s' = Pos.succ (next_handle s) /\
  autoPlayDelay s' = autoPlayDelay s.
Proof.
  intros Hinv. destruct (stopAutoPlay_inv s Hinv) as (Ht & Ha & Hn & Hd).
  unfold exec, startAutoPlay, seq in *.
  assert (Hnormal : fst (stopAutoPlay s) = Normal).
  { unfold stopAutoPlay. destruct (autoPlayInterval s); reflexivity. }
  destruct (stopAutoPlay s) as [c s1]. cbn in Hnormal, Ht, Ha, Hn, Hd. subst c.
  unfold armInterval. cbn. rewrite Ht, Hn, Hd, insert_empty. auto.
Qed.

Lemma timer_inv_start s : timer_inv s -> timer_inv (exec startAutoPlay s).
Proof.
  intros Hinv. destruct (startAutoPlay_inv s Hinv) as (Ht & Ha & Hn & Hd).
  unfold timer_inv. rewrite Ha, Ht, Hn, Hd. split; [reflexivity | lia].
Qed.

Lemma timer_inv_stop s : timer_inv s -> timer_inv (exec stopAutoPlay s).
Proof.
  intros Hinv. destruct (stopAutoPlay_inv s Hinv) as (Ht & Ha & _).
  unfold timer_inv. rewrite Ha. exact Ht.
Qed.

Lemma timer_inv_handleSwipe x0 x1 s :
  timer_inv s -> timer_inv (exec (handleSwipe x0 x1) s).
Proof.
  intros Hinv. unfold handleSwipe. cbv zeta.
  destruct (Double.gtb (Double.abs (Double.sub x0 x1)) 50); [|exact Hinv].
  destruct (Double.gtb (Double.sub x0 x1) 0).
  - exact (timer_inv_frame _ _ (nextSlide_frame s) Hinv).
  - exact (timer_inv_frame _ _ (prevSlide_frame s) Hinv).
Qed.

Lemma timer_inv_handler h e s :
  timer_inv s -> timer_inv (exec (run_handler h e) s).
Proof.
  intros Hinv. destruct h; cbn [run_handler].
  - exact (timer_inv_frame _ _ (prevSlide_frame s) Hinv).
  - exact (timer_inv_frame _ _ (nextSlide_frame s) Hinv).
  - exact (timer_inv_frame _ _ (goToSlide_frame _ s) Hinv).
  - by apply timer_inv_stop.
  - by apply timer_inv_start.
  - exact Hinv.
  - revert s Hinv. apply seq_preserves.
    + intros s Hinv. exact Hinv.
    + intros s Hinv. by apply timer_inv_handleSwipe.
Qed.

Lemma timer_inv_step i s : timer_inv s -> timer_inv (step i s).
Proof.
  intros Hinv. destruct i; cbn [step].
  - unfold dispatch. generalize (matching e s). intros hs.
    revert s Hinv. induction hs as [|h hs IH]; intros s Hinv; cbn.
    + exact Hinv.
    + apply IH. by apply timer_inv_handler.
  - unfold tick. destruct (timers s !! h); [|exact Hinv].
    exact (timer_inv_frame _ _ (nextSlide_frame s) Hinv).
  - exact (timer_inv_frame _ _ (goToSlide_frame _ s) Hinv).
  - exact (timer_inv_frame _ _ (nextSlide_frame s) Hinv).
  - exact (timer_inv_frame _ _ (prevSlide_frame s) Hinv).
  - by apply timer_inv_handleSwipe.
  - by apply timer_inv_start.
  - by apply timer_inv_stop.
Qed.

Lemma timer_inv_addEventListener t ty h s :
  timer_inv s -> timer_inv (exec (addEventListener t ty h) s).
Proof. intros Hinv. exact Hinv. Qed.

Lemma timer_inv_track_addEventListener ty h s :
  timer_inv s -> timer_inv (exec (track_addEventListener ty h) s).
Proof.
  intros Hinv. unfold track_addEventListener, exec.
  destruct (track s); exact Hinv.
Qed.

Lemma timer_inv_bindEvents s : timer_inv s -> timer_inv (exec bindEvents s).
Proof.
  revert s. unfold bindEvents, handleTouchEvents.
  repeat apply seq_preserves;
    try (intros s Hinv; by apply timer_inv_track_addEventListener).
  - intros s Hinv. destruct (prevBtn s) eqn:Hb; unfold exec; rewrite Hb; exact Hinv.
  - intros s Hinv. destruct (nextBtn s) eqn:Hb; unfold exec; rewrite Hb; exact Hinv.
  - intros s Hinv.
    change (timer_inv (exec (forEach_from 0
      (fun (_ : bool) index => addEventListener (DotEl index) click (OnDotClick index))
      (dots s)) s)).
    apply forEach_from_preserves; [|exact Hinv].
    intros _ i s' Hs'. exact Hs'.
  - intros s Hinv. exact Hinv.
Qed.

Lemma timer_inv_construct track0 prev next dots0 cards h0 :
  timer_inv (snd (construct track0 prev next dots0 cards h0)).
Proof.
  unfold construct.
  set (s0 := mkState _ _ _ _ _ _ _ _ _ _ _ _ _ _).
  assert (H0 : timer_inv s0) by reflexivity.
  unfold init. destruct (track s0); [|exact H0].
  destruct (totalSlides s0 =? 0); [exact H0|].
  change (timer_inv (exec (bindEvents ;; startAutoPlay) s0)).
  revert H0. generalize s0. apply seq_preserves.
  - apply timer_inv_bindEvents.
  - apply timer_inv_start.
Qed.

Lemma timer_inv_reachable s : reachable s -> timer_inv s.
Proof.
  intros (track0 & prev & next & dots0 & cards & h0 & inputs & ->).
  generalize (timer_inv_construct track0 prev next dots0 cards h0).
  generalize (snd (construct track0 prev next dots0 cards h0)).
  unfold run. induction inputs as [|i inputs IH]; intros s Hinv; cbn.
  - exact Hinv.
  - apply IH. by apply timer_inv_step.
Qed.

Lemma timer_inv_armed s : timer_inv s -> (armed s <= 1)%nat.
Proof.
  unfold timer_inv, armed. destruct (autoPlayInterval s).
  - intros [-> _]. by rewrite map_size_singleton.
  - intros ->. rewrite map_size_empty. lia.
Qed.

(** C5.  In every reachable state at most one autoplay timer is armed.
    startAutoPlay cancels the timer the object holds before it arms the
    new one: afterwards the new handle is the only armed timer, the old
    handle is no longer armed, and after two calls in succession exactly
    one timer is armed. *)
Theorem C5_at_most_one_timer (s : State) :
  reachable s ->
  (armed s <= 1)%nat /\
  timers (exec startAutoPlay s) = {[ next_handle s := autoPlayDelay s ]} /\
  (forall h, autoPlayInterval s = Some h -> timers (exec startAutoPlay s) !! h = None) /\
  armed (exec startAutoPlay s) = 1%nat /\
  armed (exec startAutoPlay (exec startAutoPlay s)) = 1%nat.
Proof.
  intros Hr. pose proof (timer_inv_reachable s Hr) as Hinv.
  pose proof (startAutoPlay_inv s Hinv) as (Ht & Ha & Hn & Hd).
  pose proof (timer_inv_start s Hinv) as Hinv1.
  pose proof (startAutoPlay_inv _ Hinv1) as (Ht2 & _).
  split; [by apply timer_inv_armed|].
  split; [exact Ht|].
  split.
  - intros h Hh. rewrite Ht. apply lookup_singleton_ne.
    unfold timer_inv in Hinv. rewrite Hh in Hinv. destruct Hinv as [_ Hlt]. lia.
  - unfold armed. rewrite Ht, Ht2, !map_size_singleton. auto.
Qed.

Lemma C5_at_most_one_timer_witness :
  let s := run [Dispatch (mkEvent TrackEl mouseleave 0);
                Dispatch (mkEvent TrackEl mouseleave 0);
                Tick 3] slider3 in
  (armed s <= 1)%nat /\
  timers (exec startAutoPlay s) = {[ next_handle s := autoPlayDelay s ]} /\
  (forall h, autoPlayInterval s = Some h -> timers (exec startAutoPlay s) !! h = None) /\
  armed (exec startAutoPlay s) = 1%nat /\
  armed (exec startAutoPlay (exec startAutoPlay s)) = 1%nat.
Proof.
  intros s. apply (C5_at_most_one_timer s).
  exists (Some transform_unset), true, true, [true; false; false], 3%nat, 1%positive.
  eexists. reflexivity.
Defined.

End SliderFacts.

(** * Properties of the scroll animation controller *)

Module ScrollAnimationFacts.
Import ScrollAnimation.

Lemma isInViewport_spec v s e :
  isInViewport v s e = true <->
  Double.geb (rect_top v e) 0 = true /\
  Double.leb (rect_top v e)
    (Double.mul (windowHeight v) (Double.sub 1 (threshold s))) = true.
Proof.
  unfold isInViewport. cbv zeta. by rewrite andb_true_iff.
Qed.

(** A pass calls animateElement for the elements that pass the test, in
    document order, and leaves the threshold alone. *)
Lemma check_list_animated v l s :
  let s' := foldl (fun s' element =>
                     if isInViewport v s' element then animateElement element s'
                     else s') s l in
  animated s' = animated s ++ filter (fun e => isInViewport v s e = true) l /\
  threshold s' = threshold s /\
  elements s' = elements s.
Proof.
  revert s. induction l as [|x l IH]; intros s; cbn [foldl].
  - rewrite filter_nil, app_nil_r. auto.
  - rewrite filter_cons.
    destruct (isInViewport v s x) eqn:Hx.
    + destruct (IH (animateElement x s)) as (Ha & Ht & He).
      cbn zeta in *. rewrite Ha, Ht, He. cbn [animated animateElement threshold elements].
      rewrite decide_True by reflexivity. rewrite <- app_assoc. cbn [app].
      repeat apply conj; reflexivity.
    + destruct (IH s) as (Ha & Ht & He).
      cbn zeta in *. rewrite Ha, Ht, He.
      rewrite decide_False by discriminate. auto.
Qed.

Lemma triggered_filter v els :
  triggered v els = filter (fun e => isInViewport v (construct els) e = true) els.
Proof.
  unfold triggered, checkElements.
  destruct (check_list_animated v (elements (construct els)) (construct els)) as (Ha & _).
  cbn zeta in Ha. rewrite Ha. reflexivity.
Qed.

(** The literal [0.1] is one tenth rounded to a double, and [1 - 0.1] is
    the double nearest to nine tenths. *)
Lemma point_one_rounded :
  Double.point_one = Double.div 1 10 /\
  Double.sub 1 Double.point_one = Double.div 9 10.
Proof. split; reflexivity. Qed.

(** The bound is the product as the code rounds it: in a window 803 high
    it is the double nearest to 722.7, which lies above 722.7, so an
    element whose top is that double is triggered. *)
Lemma bound_is_rounded :
  let v := mkLayout 803 0 (fun _ => Double.div 7227 10) in
  Double.mul (windowHeight v) (Double.sub 1 Double.point_one) = Double.div 7227 10 /\
  Double.div 7227 10 = Double.of_dyadic 6356936427149722 (-43) /\
  (7227 * 2 ^ 43 < 6356936427149722 * 10)%Z /\
  triggered v [1%positive] = [1%positive].
Proof. split; [reflexivity|]. split; [reflexivity|]. split; reflexivity. Qed.

(** C7, as stated, fails: with a window 1000 high the bound
    1000 * (1 - 0.1) is the double 900, and an element whose top is 900 is
    triggered, although 900 is not strictly below that bound. *)
Lemma C7_bound_is_inclusive :
  let v := mkLayout 1000 0 (fun _ => 900) in
  triggered v [1%positive] = [1%positive] /\
  Double.mul (windowHeight v) (Double.sub 1 Double.point_one) = 900 /\
  Double.ltb (rect_top v 1%positive)
    (Double.mul (windowHeight v) (Double.sub 1 Double.point_one)) = false.
Proof.
  split; [reflexivity|]. split; reflexivity.
Qed.

(** C7, amended.  A pass calls animateElement for a watched element exactly
    when the element's top is >= 0 and less than or equal to the window
    height times (1 - 0.1), the difference and the product being those of
    the code, rounded to doubles; an element failing either bound is not
    triggered. *)
Theorem C7_triggered_iff_in_viewport (v : Layout) (els : list Element) (e : Element) :
  e ∈ triggered v els <->
  e ∈ els /\
  Double.geb (rect_top v e) 0 = true /\
  Double.leb (rect_top v e)
    (Double.mul (windowHeight v) (Double.sub 1 Double.point_one)) = true.
Proof.
  rewrite triggered_filter, list_elem_of_filter, isInViewport_spec.
  cbn [threshold construct]. tauto.
Qed.

End ScrollAnimationFacts.

(** * Properties of the intersection animation controller *)

Module IntersectionAnimationFacts.
Import IntersectionAnimation.

Local Open Scope stmt_scope.

Lemma style_of_set_style e f s e' :
  style_of (set_style e f s) e' =
  if decide (e = e') then f (style_of s e) else style_of s e'.
Proof.
  unfold style_of at 1. unfold set_style. cbn [styles].
  rewrite lookup_insert. destruct (decide (e = e')); reflexivity.
Qed.

Lemma exec_animateElement e s :
  exec (animateElement e) s =
  set_style e (set_transform "translateY(0)")
    (set_style e (set_opacity "1")
       (set_style e (set_transition "opacity 0.6s ease, transform 0.6s ease") s)).
Proof. reflexivity. Qed.


Lemma animateElement_style e s x :
  style_of (exec (animateElement e) s) x =
  if decide (e = x) then shown_style else style_of s x.
Proof.
  rewrite exec_animateElement, !style_of_set_style.
  destruct (decide (e = x)) as [->|Hne].
  - rewrite !decide_True by reflexivity. reflexivity.
  - reflexivity.
Qed.

Lemma animateElement_observer e s :
  observer (exec (animateElement e) s) = observer s.
Proof. reflexivity. Qed.

Lemma unobserve_style e s x : style_of (exec (unobserve e) s) x = style_of s x.
Proof. unfold unobserve, exec. destruct (observer s); reflexivity. Qed.

Lemma unobserve_keeps_unobserved e s x :
  observed s x = false -> observed (exec (unobserve e) s) x = false.
Proof.
  unfold unobserve, exec, observed.
  destruct (observer s) as [o|] eqn:Ho; cbn; rewrite ?Ho; [|auto].
  rewrite !bool_decide_eq_false, elem_of_difference. tauto.
Qed.

Lemma unobserve_target e s : observed (exec (unobserve e) s) e = false.
Proof.
  unfold unobserve, exec, observed.
  destruct (observer s) as [o|] eqn:Ho; cbn; rewrite ?Ho; [|auto].
  rewrite bool_decide_eq_false, elem_of_difference, elem_of_singleton. tauto.
Qed.

(** The body the callback runs for one entry. *)
Lemma entry_keeps_shown (x : Element) (entry : Entry) s :
  style_of s x = shown_style ->
  style_of
    (exec (if isIntersecting entry
           then animateElement (target entry) ;; unobserve (target entry)
           else skip) s) x = shown_style.
Proof.
  destruct (isIntersecting entry); [|auto].
  revert s. apply (seq_preserves (fun s => style_of s x = shown_style)); intros s Hs.
  - rewrite animateElement_style. destruct (decide (target entry = x)); auto.
  - by rewrite unobserve_style.
Qed.

Lemma entry_keeps_unobserved (x : Element) (entry : Entry) s :
  observed s x = false ->
  observed
    (exec (if isIntersecting entry
           then animateElement (target entry) ;; unobserve (target entry)
           else skip) s) x = false.
Proof.
  destruct (isIntersecting entry); [|auto].
  revert s. apply (seq_preserves (fun s => observed s x = false)); intros s Hs.
  - exact Hs.
  - by apply unobserve_keeps_unobserved.
Qed.

Lemma callback_keeps_shown entries s x :
  style_of s x = shown_style ->
  style_of (exec (callback entries) s) x = shown_style.
Proof.
  unfold callback, forEach.
  apply (forEach_from_preserves (fun s => style_of s x = shown_style)).
  intros entry _ s'. apply entry_keeps_shown.
Qed.

Lemma callback_keeps_unobserved entries s x :
  observed s x = false ->
  observed (exec (callback entries) s) x = false.
Proof.
  unfold callback, forEach.
  apply (forEach_from_preserves (fun s => observed s x = false)).
  intros entry _ s'. apply entry_keeps_unobserved.
Qed.

Lemma entry_normal (entry : Entry) s :
  is_Some (observer s) ->
  let r := (if isIntersecting entry
            then animateElement (target entry) ;; unobserve (target entry)
            else skip) s in
  fst r = Normal /\ is_Some (observer (snd r)).
Proof.
  intros [o Ho]. destruct (isIntersecting entry); cbn zeta.
  - unfold seq, animateElement, modify, unobserve. cbn.
    rewrite Ho. cbn. eauto.
  - cbn. rewrite Ho. eauto.
Qed.

(** An intersecting entry is acted upon: its target ends up shown and no
    longer observed. *)
Lemma callback_triggers entries s y :
  is_Some (observer s) ->
  mkEntry y true ∈ entries ->
  style_of (exec (callback entries) s) y = shown_style /\
  observed (exec (callback entries) s) y = false.
Proof.
  unfold callback, forEach. generalize 0%nat. revert s.
  induction entries as [|entry entries IH]; intros s i Hobs Hin.
  - by apply elem_of_nil in Hin.
  - cbn [forEach_from].
    destruct (entry_normal entry s Hobs) as [Hn Hobs'].
    rewrite exec_seq_normal by exact Hn.
    apply elem_of_cons in Hin as [<-|Hin].
    + set (s1 := exec _ s).
      assert (H1 : style_of s1 y = shown_style /\ observed s1 y = false).
      { subst s1. cbn [isIntersecting target].
        rewrite exec_seq_normal by reflexivity. split.
        - rewrite unobserve_style, animateElement_style.
          by rewrite decide_True.
        - apply unobserve_target. }
      destruct H1 as [Hs Ho]. split.
      * by apply (forEach_from_preserves (fun s => style_of s y = shown_style));
          [intros e' _ s'; apply entry_keeps_shown|].
      * by apply (forEach_from_preserves (fun s => observed s y = false));
          [intros e' _ s'; apply entry_keeps_unobserved|].
    + apply IH; assumption.
Qed.

(** *** The fallback schedule *)











End IntersectionAnimationFacts.

(** * Properties of the one-shot reveals *)

Module RevealFacts.
Import ScrollReveal.

Lemma classList_add_present (c : string) (cl : list string) :
  c ∈ cl -> classList_add c cl = cl.
Proof. intros H. unfold classList_add. by rewrite decide_True. Qed.

Lemma classList_add_elem (c : string) (cl : list string) : c ∈ classList_add c cl.
Proof.
  unfold classList_add. destruct (decide (c ∈ cl)); [assumption|].
  apply elem_of_app. right. by apply list_elem_of_singleton.
Qed.

Lemma classes_of_add_class e c s e' :
  classes_of (add_class e c s) e' =
  if decide (e = e') then classList_add c (classes_of s e) else classes_of s e'.
Proof.
  unfold classes_of at 1. unfold add_class. cbn [classList].
  rewrite lookup_insert. destruct (decide (e = e')); reflexivity.
Qed.

(** Adding the class to an element that has it changes nothing at all. *)
Lemma add_class_present e c s : c ∈ classes_of s e -> add_class e c s = s.
Proof.
  intros H. unfold add_class. rewrite classList_add_present by exact H.
  unfold classes_of in *. destruct (classList s !! e) as [cl|] eqn:Hl.
  - cbn. rewrite insert_id by exact Hl. by destruct s.
  - by apply elem_of_nil in H.
Qed.

Section Pass.
Variable isInViewport : Element -> Z -> bool.

Local Abbreviation visit := (ScrollReveal.visit isInViewport).

Lemma visit_keeps_classes s x e :
  "revealed" ∈ classes_of s e -> classes_of (visit s x) e = classes_of s e.
Proof.
  intros H. unfold visit. destruct (isInViewport x 50); [|reflexivity].
  rewrite classes_of_add_class. destruct (decide (x = e)) as [->|]; [|reflexivity].
  by apply classList_add_present.
Qed.

Lemma visit_all_keeps_classes l s e :
  "revealed" ∈ classes_of s e -> classes_of (foldl visit s l) e = classes_of s e.
Proof.
  revert s. induction l as [|x l IH]; intros s H; cbn; [reflexivity|].
  rewrite IH; rewrite visit_keeps_classes; auto.
Qed.

Lemma visit_all_elements l s : elements (foldl visit s l) = elements s.
Proof.
  revert s. induction l as [|x l IH]; intros s; cbn; [reflexivity|].
  rewrite IH. unfold visit. destruct (isInViewport x 50); reflexivity.
Qed.

Lemma visit_all_reveals l s e :
  e ∈ l -> isInViewport e 50 = true -> "revealed" ∈ classes_of (foldl visit s l) e.
Proof.
  revert s. induction l as [|x l IH]; intros s Hin Hv.
  - by apply elem_of_nil in Hin.
  - cbn. apply elem_of_cons in Hin as [<-|Hin]; [|by apply IH].
    assert (H1 : "revealed" ∈ classes_of (visit s e) e).
    { unfold visit. rewrite Hv, classes_of_add_class, decide_True by reflexivity.
      apply classList_add_elem. }
    by rewrite visit_all_keeps_classes.
Qed.

Lemma visit_all_id l s :
  (forall x, x ∈ l -> isInViewport x 50 = true -> "revealed" ∈ classes_of s x) ->
  foldl visit s l = s.
Proof.
  induction l as [|x l IH]; intros H; cbn; [reflexivity|].
  assert (Hx : visit s x = s).
  { unfold visit. destruct (isInViewport x 50) eqn:Hv; [|reflexivity].
    apply add_class_present. apply H; [apply elem_of_cons; by left | exact Hv]. }
  rewrite Hx. apply IH. intros y Hy. apply H. apply elem_of_cons. by right.
Qed.

Lemma checkElements_keeps_classes s e :
  "revealed" ∈ classes_of s e ->
  classes_of (checkElements isInViewport s) e = classes_of s e.
Proof. apply visit_all_keeps_classes. Qed.

Lemma checkElements_reveals s e :
  e ∈ elements s -> isInViewport e 50 = true ->
  revealed (checkElements isInViewport s) e = true.
Proof.
  intros Hin Hv. apply bool_decide_eq_true. by apply visit_all_reveals.
Qed.

Lemma checkElements_twice s :
  checkElements isInViewport (checkElements isInViewport s) =
  checkElements isInViewport s.
Proof.
  unfold checkElements at 1.
  apply visit_all_id. intros x Hx Hv.
  unfold checkElements in *.
  rewrite visit_all_elements in Hx. by apply visit_all_reveals.
Qed.
End Pass.

Lemma passes_keep_classes layouts s e :
  "revealed" ∈ classes_of s e -> classes_of (passes layouts s) e = classes_of s e.
Proof.
  unfold passes. revert s. induction layouts as [|v layouts IH]; intros s H; cbn.
  - reflexivity.
  - rewrite IH; rewrite checkElements_keeps_classes; auto.
Qed.

(** C6.  For the one-shot reveals the revealed state is monotonic and
    a pass is idempotent on it.  ScrollReveal: an element carrying the
    class 'revealed' still carries it, with an unchanged class list, after
    any number of later passes; a pass reveals the watched elements in the
    viewport, and the same pass run again changes nothing.  Intersection
    controller: an element shown and no longer observed stays exactly so
    under every later callback, and every intersecting entry of a callback
    leaves its target shown and no longer observed. *)
Theorem C6_reveal_is_monotonic
    (layouts : list (Element -> Z -> bool)) (s : State) (e : Element)
    (entries : list IntersectionAnimation.Entry)
    (t : IntersectionAnimation.State) (x : Element) :
  revealed s e = true ->
  IntersectionAnimation.style_of t x = IntersectionAnimation.shown_style ->
  IntersectionAnimation.observed t x = false ->
  (revealed (passes layouts s) e = true /\
   classes_of (passes layouts s) e = classes_of s e /\
   (forall v y, y ∈ elements s -> v y 50 = true ->
      revealed (checkElements v s) y = true) /\
   (forall v, checkElements v (checkElements v s) = checkElements v s)) /\
  (IntersectionAnimation.style_of (exec (IntersectionAnimation.callback entries) t) x
     = IntersectionAnimation.shown_style /\
   IntersectionAnimation.observed (exec (IntersectionAnimation.callback entries) t) x
     = false /\
   (forall y, is_Some (IntersectionAnimation.observer t) ->
      IntersectionAnimation.mkEntry y true ∈ entries ->
      IntersectionAnimation.style_of (exec (IntersectionAnimation.callback entries) t) y
        = IntersectionAnimation.shown_style /\
      IntersectionAnimation.observed (exec (IntersectionAnimation.callback entries) t) y
        = false)).
Proof.
  intros Hrev Hshown Hunobs. apply bool_decide_eq_true in Hrev.
  split; [split; [|split; [|split]] | split; [|split]].
  - apply bool_decide_eq_true. by rewrite passes_keep_classes.
  - by apply passes_keep_classes.
  - intros v y. apply checkElements_reveals.
  - intros v. apply checkElements_twice.
  - by apply IntersectionAnimationFacts.callback_keeps_shown.
  - by apply IntersectionAnimationFacts.callback_keeps_unobserved.
  - intros y. apply IntersectionAnimationFacts.callback_triggers.
Qed.

Lemma C6_reveal_is_monotonic_witness :
  let layouts := [(fun (_ : Element) (_ : Z) => true);
                  (fun (_ : Element) (_ : Z) => false)] in
  let entries := [IntersectionAnimation.mkEntry 3%positive true;
                  IntersectionAnimation.mkEntry 5%positive false] in
  let t := exec (IntersectionAnimation.callback
                   [IntersectionAnimation.mkEntry 5%positive true])
                IntersectionAnimation.page3 in
  (revealed (passes layouts page2) 1%positive = true /\
   classes_of (passes layouts page2) 1%positive = classes_of page2 1%positive /\
   (forall v y, y ∈ elements page2 -> v y 50 = true ->
      revealed (checkElements v page2) y = true) /\
   (forall v, checkElements v (checkElements v page2) = checkElements v page2)) /\
  (IntersectionAnimation.style_of
     (exec (IntersectionAnimation.callback entries) t) 5%positive
     = IntersectionAnimation.shown_style /\
   IntersectionAnimation.observed
     (exec (IntersectionAnimation.callback entries) t) 5%positive = false /\
   (forall y, is_Some (IntersectionAnimation.observer t) ->
      IntersectionAnimation.mkEntry y true ∈ entries ->
      IntersectionAnimation.style_of
        (exec (IntersectionAnimation.callback entries) t) y
        = IntersectionAnimation.shown_style /\
      IntersectionAnimation.observed
        (exec (IntersectionAnimation.callback entries) t) y = false)).
Proof.
  intros layouts entries t.
  apply (C6_reveal_is_monotonic layouts page2 1%positive entries t 5%positive).
  - reflexivity.
  - reflexivity.
  - reflexivity.
Defined.

End RevealFacts.

(** * Further properties of the slider *)

Module SliderExtras.
Import Slider.

Local Open Scope stmt_scope.

(** ** Rendering *)

Import SliderMore.

Ltac unfold_methods := SliderFacts.unfold_methods.

Ltac run_nav Ht :=
  unfold exec, goToSlide, nextSlide, prevSlide, log, seq, modify, updateSlider,
    updateDots, shows_cursor;
  cbn [fst snd track dots currentSlide calls set_track set_dots
       set_currentSlide set_calls];
  rewrite ?Ht;
  cbn [fst snd track dots currentSlide calls set_track set_dots
       set_currentSlide set_calls].

Lemma imap_strict_eq_lookup (c : jsnum) (l : list bool) i b :
  imap (fun index _ => js_strict_eq (Num (Z.of_nat index)) c) l !! i = Some b ->
  b = js_strict_eq (Num (Z.of_nat i)) c.
Proof.
  rewrite list_lookup_imap. destruct (l !! i); cbn; [|discriminate].
  by intros [= <-].
Qed.

Lemma shows_cursor_one_dot s i j :
  shows_cursor s ->
  dots s !! i = Some true -> dots s !! j = Some true -> i = j.
Proof.
  intros [_ Hd] Hi Hj. apply Hd in Hi, Hj.
  destruct (currentSlide s) as [c|]; cbn in *; [|discriminate].
  symmetry in Hi, Hj. apply Z.eqb_eq in Hi, Hj. lia.
Qed.

(** The methods keep the numbers in the range where the arithmetic of the
    source is exact: a remainder is smaller than the slide count. *)
Lemma exact_rem (a : jsnum) (N : Z) :
  0 <= N <= 2 ^ 46 -> exact_num (js_rem a (Num N)).
Proof.
  intros HN. destruct a as [x|]; cbn [js_rem]; [|exact I].
  destruct (Z.eqb_spec N 0) as [|Hne]; [exact I|].
  cbn [exact_num]. pose proof (Z.rem_bound_abs x N Hne). lia.
Qed.

Lemma exact_after (index : jsnum) (s : State) (m : M) :
  exact_num index -> exact_state s ->
  m = goToSlide index \/ m = nextSlide \/ m = prevSlide ->
  exact_state (exec m s).
Proof.
  intros Hi [_ HN] [->|[->| ->]]; unfold exact_state.
  - rewrite SliderFacts.goToSlide_currentSlide,
      (SliderFacts.frame_totalSlides _ _ (SliderFacts.goToSlide_frame index s)).
    by split.
  - rewrite SliderFacts.nextSlide_currentSlide,
      (SliderFacts.frame_totalSlides _ _ (SliderFacts.nextSlide_frame s)).
    split; [by apply exact_rem | exact HN].
  - rewrite SliderFacts.prevSlide_currentSlide,
      (SliderFacts.frame_totalSlides _ _ (SliderFacts.prevSlide_frame s)).
    split; [by apply exact_rem | exact HN].
Qed.

(** What [updateSlider] leaves in the track for a cursor. *)
Lemma style_assign_cursor (t : css_transform) (cur : jsnum) :
  let t' := style_assign t (translateX (js_mul (js_neg cur) (Num 100))) in
  (forall c, cur = Num c -> t' = translateX (Num (- c * 100))) /\
  (cur = NaN -> t' = t).
Proof.
  destruct cur as [c|]; cbn; split; intros; congruence.
Qed.

(** X1.  On a slider that has a track, with numbers in the range where the
    arithmetic of the source is exact, goTo, next and previous complete
    normally and leave the page showing the new cursor: when the cursor is
    a number the track offset is -currentSlide * 100 percent, when it is
    NaN the style refuses the offset and the track keeps the one it had; a
    dot is active exactly if its position equals the cursor, so at most one
    dot is active (none for NaN), and the number of dots is unchanged.  The
    numbers stay in the exact range. *)
Theorem X1_navigation_renders_cursor (index : jsnum) (s : State) :
  is_Some (track s) -> exact_num index -> exact_state s ->
  forall m, m = goToSlide index \/ m = nextSlide \/ m = prevSlide ->
    fst (m s) = Normal /\
    exact_state (exec m s) /\
    shows_cursor (exec m s) /\
    (currentSlide (exec m s) = NaN -> track (exec m s) = track s) /\
    length (dots (exec m s)) = length (dots s) /\
    (forall i j, dots (exec m s) !! i = Some true ->
                 dots (exec m s) !! j = Some true -> i = j).
Proof.
  intros [t Ht] Hi He m Hm.
  pose proof (exact_after index s m Hi He Hm) as He'.
  assert (H : fst (m s) = Normal /\ shows_cursor (exec m s) /\
              (currentSlide (exec m s) = NaN -> track (exec m s) = track s) /\
              length (dots (exec m s)) = length (dots s)).
  { destruct Hm as [->|[->| ->]]; run_nav Ht;
      (split; [reflexivity|]);
      (split; [split; [|apply imap_strict_eq_lookup]|split; [|apply length_imap]]).
    - intros c Hc. f_equal. by apply style_assign_cursor.
    - intros Hc. f_equal. by apply style_assign_cursor.
    - intros c Hc. f_equal. by apply style_assign_cursor.
    - intros Hc. f_equal. by apply style_assign_cursor.
    - intros c Hc. f_equal. by apply style_assign_cursor.
    - intros Hc. f_equal. by apply style_assign_cursor. }
  destruct H as (Hn & Hs & Hk & Hl).
  split; [exact Hn|]. split; [exact He'|].
  split; [exact Hs|]. split; [exact Hk|]. split; [exact Hl|].
  intros i j. by apply shows_cursor_one_dot.
Qed.

(** The witness: next() on three slides, and next() on a page without
    cards, where the cursor becomes NaN and the track keeps its offset. *)
Lemma X1_navigation_renders_cursor_witness :
  (fst (nextSlide slider3) = Normal /\
   shows_cursor (exec nextSlide slider3) /\
   track (exec nextSlide slider3) = Some (translateX (Num (-100)))) /\
  (currentSlide (exec nextSlide slider0) = NaN /\
   track (exec nextSlide slider0) = track slider0).
Proof.
  split.
  - destruct (X1_navigation_renders_cursor (Num 0) slider3) with (m := nextSlide)
      as (Hn & _ & Hs & _).
    + eexists. reflexivity.
    + vm_compute. discriminate.
    + vm_compute. repeat split; discriminate.
    + right. left. reflexivity.
    + split; [exact Hn|]. split; [exact Hs|]. exact (proj1 Hs 1 eq_refl).
  - destruct (X1_navigation_renders_cursor (Num 0) slider0) with (m := nextSlide)
      as (_ & _ & _ & Hk & _).
    + eexists. reflexivity.
    + vm_compute. discriminate.
    + vm_compute. repeat split; discriminate.
    + right. left. reflexivity.
    + split; [reflexivity | by apply Hk].
Defined.

(** ** Repeated navigation *)

Lemma iter_nextSlide (N c : Z) (s : State) (k : nat) :
  1 <= N -> totalSlides s = N -> currentSlide s = Num c -> 0 <= c < N ->
  currentSlide (Nat.iter k (exec nextSlide) s) = Num ((c + Z.of_nat k) mod N) /\
  totalSlides (Nat.iter k (exec nextSlide) s) = N.
Proof.
  intros HN Ht Hc Hr. induction k as [|k [IHc IHt]].
  - cbn. rewrite Z.add_0_r, Z.mod_small by lia. auto.
  - change (Nat.iter (S k) (exec nextSlide) s)
      with (exec nextSlide (Nat.iter k (exec nextSlide) s)). split.
    + rewrite SliderFacts.nextSlide_currentSlide, IHc, IHt. cbn.
      destruct (Z.eqb_spec N 0); [lia|]. f_equal.
      pose proof (Z.mod_pos_bound (c + Z.of_nat k) N ltac:(lia)).
      rewrite Z.rem_mod_nonneg by lia.
      rewrite Zplus_mod_idemp_l. f_equal. lia.
    + rewrite (SliderFacts.frame_totalSlides _ _ (SliderFacts.nextSlide_frame _)).
      exact IHt.
Qed.

Lemma iter_prevSlide (N c : Z) (s : State) (k : nat) :
  1 <= N -> totalSlides s = N -> currentSlide s = Num c -> 0 <= c < N ->
  currentSlide (Nat.iter k (exec prevSlide) s) = Num ((c - Z.of_nat k) mod N) /\
  totalSlides (Nat.iter k (exec prevSlide) s) = N.
Proof.
  intros HN Ht Hc Hr. induction k as [|k [IHc IHt]].
  - cbn. rewrite Z.sub_0_r, Z.mod_small by lia. auto.
  - change (Nat.iter (S k) (exec prevSlide) s)
      with (exec prevSlide (Nat.iter k (exec prevSlide) s)). split.
    + rewrite SliderFacts.prevSlide_currentSlide, IHc, IHt. cbn.
      destruct (Z.eqb_spec N 0); [lia|]. f_equal.
      pose proof (Z.mod_pos_bound (c - Z.of_nat k) N ltac:(lia)).
      rewrite Z.rem_mod_nonneg by lia.
      replace ((c - Z.of_nat k) mod N - 1 + N)
        with ((c - Z.of_nat k) mod N - 1 + 1 * N) by ring.
      rewrite Z_mod_plus_full, Zminus_mod_idemp_l. f_equal. lia.
    + rewrite (SliderFacts.frame_totalSlides _ _ (SliderFacts.prevSlide_frame _)).
      exact IHt.
Qed.

(** X2.  From a valid cursor c on N >= 1 slides, k calls of next() leave
    the cursor at (c + k) mod N and k calls of previous() at (c - k) mod N;
    in particular N calls of either bring the cursor back to c. *)
Theorem X2_repeated_navigation_cycles (N c : Z) (s : State) :
  1 <= N -> totalSlides s = N -> currentSlide s = Num c -> 0 <= c < N ->
  (forall k : nat,
     currentSlide (Nat.iter k (exec nextSlide) s) = Num ((c + Z.of_nat k) mod N) /\
     currentSlide (Nat.iter k (exec prevSlide) s) = Num ((c - Z.of_nat k) mod N)) /\
  currentSlide (Nat.iter (Z.to_nat N) (exec nextSlide) s) = Num c /\
  currentSlide (Nat.iter (Z.to_nat N) (exec prevSlide) s) = Num c.
Proof.
  intros HN Ht Hc Hr.
  assert (Hk : forall k : nat,
     currentSlide (Nat.iter k (exec nextSlide) s) = Num ((c + Z.of_nat k) mod N) /\
     currentSlide (Nat.iter k (exec prevSlide) s) = Num ((c - Z.of_nat k) mod N)).
  { intros k. split.
    - by apply iter_nextSlide.
    - by apply iter_prevSlide. }
  split; [exact Hk|].
  destruct (Hk (Z.to_nat N)) as [Hn Hp]. rewrite Hn, Hp, Z2Nat.id by lia. split; f_equal.
  - replace (c + N) with (c + 1 * N) by ring.
    rewrite Z_mod_plus_full. apply Z.mod_small. lia.
  - replace (c - N) with (c + (-1) * N) by ring.
    rewrite Z_mod_plus_full. apply Z.mod_small. lia.
Qed.

Lemma X2_repeated_navigation_cycles_witness :
  (forall k : nat,
     currentSlide (Nat.iter k (exec nextSlide) slider3) = Num ((0 + Z.of_nat k) mod 3) /\
     currentSlide (Nat.iter k (exec prevSlide) slider3) = Num ((0 - Z.of_nat k) mod 3)) /\
  currentSlide (Nat.iter (Z.to_nat 3) (exec nextSlide) slider3) = Num 0 /\
  currentSlide (Nat.iter (Z.to_nat 3) (exec prevSlide) slider3) = Num 0.
Proof.
  apply (X2_repeated_navigation_cycles 3 0 slider3).
  - lia.
  - reflexivity.
  - reflexivity.
  - lia.
Defined.

(** ** A page without a track *)

Lemma construct_no_track prev next dots0 cards h0 :
  construct None prev next dots0 cards h0 =
  (Normal,
   mkState None prev next dots0 (Num 0) (Z.of_nat cards) None 5000 0 0 [] ∅ h0 []).
Proof. reflexivity. Qed.

(** X3.  On a page without the track element the constructor completes
    normally, binds no listener and arms no timer, whatever the number of
    cards; then no event and no timer expiry changes the slider, and no
    navigation method is ever entered. *)
Theorem X3_no_track_nothing_bound
    (prev next : bool) (dots0 : list bool) (cards : nat) (h0 : positive)
    (inputs : list Input) :
  forallb from_page inputs = true ->
  let s0 := snd (construct None prev next dots0 cards h0) in
  fst (construct None prev next dots0 cards h0) = Normal /\
  listeners s0 = [] /\
  timers s0 = ∅ /\
  run inputs s0 = s0 /\
  calls (run inputs s0) = [].
Proof.
  intros Hin s0. subst s0. rewrite construct_no_track. cbn [fst snd].
  set (s0 := mkState _ _ _ _ _ _ _ _ _ _ _ _ _ _).
  assert (Hrun : run inputs s0 = s0).
  { induction inputs as [|i inputs IH]; [reflexivity|].
    cbn in Hin. apply andb_true_iff in Hin as [Hi Hin].
    unfold run in *. cbn [foldl].
    destruct i; try discriminate Hi; cbn [step].
    - unfold dispatch, matching. cbn. exact (IH Hin).
    - unfold tick. cbn [timers s0]. rewrite lookup_empty. exact (IH Hin). }
  rewrite Hrun. repeat apply conj; reflexivity.
Qed.

Lemma X3_no_track_nothing_bound_witness :
  let inputs := [Dispatch (mkEvent NextBtnEl click 0); Tick 1;
                 Dispatch (mkEvent (DotEl 1) click 0)] in
  let s0 := snd (construct None true true [true; false] 2 1) in
  fst (construct None true true [true; false] 2 1) = Normal /\
  listeners s0 = [] /\
  timers s0 = ∅ /\
  run inputs s0 = s0 /\
  calls (run inputs s0) = [].
Proof.
  intros inputs.
  apply (X3_no_track_nothing_bound true true [true; false] 2 1 inputs).
  reflexivity.
Defined.

(** X4.  On a slider whose track is missing, with numbers in the range
    where the arithmetic of the source is exact, goTo, next and previous
    throw a TypeError after the new cursor is stored: the cursor has its
    new value, which is again in that range, the dots and every other
    field are as before, and a swipe over the threshold, whatever its
    coordinates, throws in the same way. *)
Theorem X4_no_track_navigation_throws (index : jsnum) (x0 x1 : Double.double)
    (s : State) :
  track s = None -> exact_num index -> exact_state s ->
  (goToSlide index s =
     (Throw, set_currentSlide index (set_calls (calls s ++ [CallGoTo index]) s))) /\
  (nextSlide s =
     (Throw,
      set_currentSlide (js_rem (js_add (currentSlide s) (Num 1)) (Num (totalSlides s)))
        (set_calls (calls s ++ [CallNext]) s))) /\
  (prevSlide s =
     (Throw,
      set_currentSlide
        (js_rem (js_add (js_sub (currentSlide s) (Num 1)) (Num (totalSlides s)))
                (Num (totalSlides s)))
        (set_calls (calls s ++ [CallPrev]) s))) /\
  (Double.gtb (Double.abs (Double.sub x0 x1)) 50 = true ->
     fst (handleSwipe x0 x1 s) = Throw) /\
  dots (exec (goToSlide index) s) = dots s /\
  dots (exec nextSlide s) = dots s /\
  dots (exec prevSlide s) = dots s /\
  exact_state (exec (goToSlide index) s) /\
  exact_state (exec nextSlide s) /\
  exact_state (exec prevSlide s).
Proof.
  intros Ht Hi He.
  assert (Hg : goToSlide index s =
     (Throw, set_currentSlide index (set_calls (calls s ++ [CallGoTo index]) s))).
  { unfold goToSlide, log, seq, modify, updateSlider. cbn. by rewrite Ht. }
  assert (Hn : nextSlide s =
     (Throw,
      set_currentSlide (js_rem (js_add (currentSlide s) (Num 1)) (Num (totalSlides s)))
        (set_calls (calls s ++ [CallNext]) s))).
  { unfold nextSlide, log, seq, modify, updateSlider. cbn. by rewrite Ht. }
  assert (Hp : prevSlide s =
     (Throw,
      set_currentSlide
        (js_rem (js_add (js_sub (currentSlide s) (Num 1)) (Num (totalSlides s)))
                (Num (totalSlides s)))
        (set_calls (calls s ++ [CallPrev]) s))).
  { unfold prevSlide, log, seq, modify, updateSlider. cbn. by rewrite Ht. }
  split; [exact Hg|]. split; [exact Hn|]. split; [exact Hp|]. split.
  - intros Habs. unfold handleSwipe. cbv zeta. rewrite Habs.
    destruct (Double.gtb (Double.sub x0 x1) 0); [by rewrite Hn | by rewrite Hp].
  - split; [|split; [|split; [|split; [|split]]]].
    + unfold exec. by rewrite Hg.
    + unfold exec. by rewrite Hn.
    + unfold exec. by rewrite Hp.
    + apply (exact_after index); auto.
    + apply (exact_after index); auto.
    + apply (exact_after index); auto.
Qed.

Lemma X4_no_track_navigation_throws_witness :
  let s := snd (construct None true true [true; false] 2 1) in
  fst (nextSlide s) = Throw /\ currentSlide (exec nextSlide s) = Num 1 /\
  dots (exec nextSlide s) = [true; false].
Proof.
  intros s.
  destruct (X4_no_track_navigation_throws (Num 0) 0 0 s eq_refl)
    as (_ & Hn & _ & _ & _ & Hd & _).
  - vm_compute. discriminate.
  - vm_compute. repeat split; discriminate.
  - rewrite Hd. unfold exec. rewrite Hn. repeat split.
Defined.

(** ** Stopping autoplay *)

(** X5.  In every reachable state stopAutoPlay leaves no timer armed and
    clears the handle; afterwards no timer expiry, whatever its handle,
    changes anything (no further next() call), a second stopAutoPlay is a
    no-op, and the cursor is as before. *)
Theorem X5_stopAutoPlay_silences_timers (s : State) (hs : list positive) :
  reachable s ->
  let s' := exec stopAutoPlay s in
  armed s' = 0%nat /\
  autoPlayInterval s' = None /\
  run (Tick <$> hs) s' = s' /\
  exec stopAutoPlay s' = s' /\
  currentSlide s' = currentSlide s /\
  calls s' = calls s.
Proof.
  intros Hr s'. pose proof (SliderFacts.timer_inv_reachable s Hr) as Hinv.
  destruct (SliderFacts.stopAutoPlay_inv s Hinv) as (Ht & Ha & _).
  fold s' in Ht, Ha.
  split; [unfold armed; by rewrite Ht, map_size_empty|].
  split; [exact Ha|]. split; [|split; [|split]].
  - induction hs as [|h hs IH]; [reflexivity|].
    cbn [fmap list_fmap]. unfold run in *. cbn [foldl step].
    assert (Hk : tick h s' = s') by (unfold tick; by rewrite Ht, lookup_empty).
    rewrite Hk. exact IH.
  - unfold exec at 1, stopAutoPlay at 1. by rewrite Ha.
  - subst s'. unfold exec, stopAutoPlay. destruct (autoPlayInterval s); reflexivity.
  - subst s'. unfold exec, stopAutoPlay. destruct (autoPlayInterval s); reflexivity.
Qed.

Lemma X5_stopAutoPlay_silences_timers_witness :
  let s' := exec stopAutoPlay slider3 in
  armed s' = 0%nat /\
  autoPlayInterval s' = None /\
  run (Tick <$> [1; 2; 1]%positive) s' = s' /\
  exec stopAutoPlay s' = s' /\
  currentSlide s' = currentSlide slider3 /\
  calls s' = calls slider3.
Proof.
  apply (X5_stopAutoPlay_silences_timers slider3 [1; 2; 1]%positive).
  exists (Some transform_unset), true, true, [true; false; false], 3%nat, 1%positive, [].
  unfold slider3, run. cbn [foldl]. reflexivity.
Defined.

(** ** Event wiring *)

(** The listeners of a constructed slider, in registration order. *)
Lemma bind_dots (l : list bool) (i : nat) (s : State) :
  forEach_from i
    (fun (_ : bool) index => addEventListener (DotEl index) click (OnDotClick index))
    l s =
  (Normal,
   set_listeners
     (listeners s ++
      imap (fun k _ => mkListener (DotEl (i + k)) click (OnDotClick (i + k))) l) s).
Proof.
  revert i s. induction l as [|x l IH]; intros i s.
  - cbn. rewrite app_nil_r. by destruct s.
  - cbn [forEach_from]. unfold seq at 1. unfold addEventListener at 1, modify.
    rewrite IH. destruct s. unfold set_listeners. cbn.
    rewrite Nat.add_0_r, <- app_assoc. cbn.
    do 4 f_equal. apply imap_ext. intros k y _. cbn. by rewrite Nat.add_succ_r.
Qed.

Lemma seq_normal_eq (a b : M) (s s1 : State) :
  a s = (Normal, s1) -> (a ;; b) s = b s1.
Proof. unfold seq. by intros ->. Qed.

Ltac flat_state :=
  unfold set_track, set_dots, set_currentSlide, set_autoPlayInterval,
    set_startX, set_endX, set_listeners, set_timers, set_next_handle, set_calls;
  cbn [fst snd track prevBtn nextBtn dots currentSlide totalSlides
       autoPlayInterval autoPlayDelay startX endX listeners timers
       next_handle calls].

Lemma bindEvents_bound (s : State) (t : css_transform) :
  track s = Some t ->
  bindEvents s =
  (Normal,
   set_listeners
     (listeners s ++
      (if prevBtn s then [mkListener PrevBtnEl click OnPrevClick] else []) ++
      (if nextBtn s then [mkListener NextBtnEl click OnNextClick] else []) ++
      imap (fun k _ => mkListener (DotEl k) click (OnDotClick k)) (dots s) ++
      [mkListener TrackEl mouseenter OnMouseEnter;
       mkListener TrackEl mouseleave OnMouseLeave;
       mkListener TrackEl touchstart OnTouchStart;
       mkListener TrackEl touchend OnTouchEnd])
     (set_endX 0 (set_startX 0 s))).
Proof.
  intros Ht. destruct s as [tr pb nb ds cur tot api apd sx ex ls tm nh cl].
  cbn in Ht. subst tr. unfold bindEvents, handleTouchEvents, forEach.
  destruct pb, nb;
    (erewrite seq_normal_eq by (cbv beta; cbn [prevBtn]; reflexivity); flat_state);
    (erewrite seq_normal_eq by (cbv beta; cbn [nextBtn]; reflexivity); flat_state);
    (erewrite seq_normal_eq by (cbv beta; apply bind_dots); flat_state);
    (erewrite seq_normal_eq by reflexivity; flat_state);
    (erewrite seq_normal_eq by reflexivity; flat_state);
    (erewrite seq_normal_eq by (unfold modify; reflexivity); flat_state);
    (erewrite seq_normal_eq by reflexivity; flat_state);
    unfold track_addEventListener, addEventListener, modify; flat_state;
    rewrite <- ?app_assoc, ?app_nil_r; reflexivity.
Qed.

Lemma startAutoPlay_unarmed tr pb nb ds cur tot apd sx ex ls tm nh cl :
  startAutoPlay (mkState tr pb nb ds cur tot None apd sx ex ls tm nh cl) =
  (Normal,
   mkState tr pb nb ds cur tot (Some nh) apd sx ex ls (<[nh := apd]> tm)
     (Pos.succ nh) cl).
Proof. reflexivity. Qed.

Lemma construct_bound t prev next dots0 cards h0 :
  cards <> 0%nat ->
  construct (Some t) prev next dots0 cards h0 =
  (Normal,
   mkState (Some t) prev next dots0 (Num 0) (Z.of_nat cards) (Some h0) 5000 0 0
     ((if prev then [mkListener PrevBtnEl click OnPrevClick] else []) ++
      (if next then [mkListener NextBtnEl click OnNextClick] else []) ++
      imap (fun k _ => mkListener (DotEl k) click (OnDotClick k)) dots0 ++
      [mkListener TrackEl mouseenter OnMouseEnter;
       mkListener TrackEl mouseleave OnMouseLeave;
       mkListener TrackEl touchstart OnTouchStart;
       mkListener TrackEl touchend OnTouchEnd])
     {[ h0 := 5000 ]} (Pos.succ h0) []).
Proof.
  intros Hc. unfold construct, init. cbn [track totalSlides].
  destruct (Z.eqb_spec (Z.of_nat cards) 0) as [H0|_]; [lia|].
  erewrite seq_normal_eq by (by apply (bindEvents_bound _ t)).
  etransitivity; [apply startAutoPlay_unarmed|].
  flat_state. rewrite insert_empty. reflexivity.
Qed.

(** Fields the methods never write. *)
Lemma startAutoPlay_fields s :
  let s' := exec startAutoPlay s in
  listeners s' = listeners s /\ totalSlides s' = totalSlides s /\
  currentSlide s' = currentSlide s /\ dots s' = dots s /\ track s' = track s.
Proof. unfold_methods. destruct (autoPlayInterval s); cbn; auto. Qed.

Lemma stopAutoPlay_fields s :
  let s' := exec stopAutoPlay s in
  listeners s' = listeners s /\ totalSlides s' = totalSlides s /\
  currentSlide s' = currentSlide s /\ dots s' = dots s /\ track s' = track s.
Proof. unfold_methods. destruct (autoPlayInterval s); cbn; auto. Qed.

Lemma frame_listeners s s' : same_outside_render s s' -> listeners s' = listeners s.
Proof. unfold same_outside_render. tauto. Qed.

Lemma handleSwipe_frame x0 x1 s : same_outside_render s (exec (handleSwipe x0 x1) s).
Proof.
  unfold handleSwipe. cbv zeta.
  destruct (Double.gtb (Double.abs (Double.sub x0 x1)) 50).
  - destruct (Double.gtb (Double.sub x0 x1) 0);
      [apply SliderFacts.nextSlide_frame | apply SliderFacts.prevSlide_frame].
  - unfold same_outside_render. cbn. tauto.
Qed.

Lemma handler_listeners h e s :
  listeners (exec (run_handler h e) s) = listeners s /\
  totalSlides (exec (run_handler h e) s) = totalSlides s.
Proof.
  destruct h; cbn [run_handler].
  - pose proof (SliderFacts.prevSlide_frame s) as H. unfold same_outside_render in H. tauto.
  - pose proof (SliderFacts.nextSlide_frame s) as H. unfold same_outside_render in H. tauto.
  - pose proof (SliderFacts.goToSlide_frame (Num (Z.of_nat index)) s) as H.
    unfold same_outside_render in H. tauto.
  - pose proof (stopAutoPlay_fields s). cbn zeta in *. tauto.
  - pose proof (startAutoPlay_fields s). cbn zeta in *. tauto.
  - auto.
  - rewrite exec_seq_normal by reflexivity.
    pose proof (handleSwipe_frame (startX (exec (modify (set_endX (ev_clientX e))) s))
                  (endX (exec (modify (set_endX (ev_clientX e))) s))
                  (exec (modify (set_endX (ev_clientX e))) s)) as H.
    unfold same_outside_render in H. cbn in *. tauto.
Qed.

Lemma handlers_listeners hs e s :
  listeners (foldl (fun s' h => exec (run_handler h e) s') s hs) = listeners s /\
  totalSlides (foldl (fun s' h => exec (run_handler h e) s') s hs) = totalSlides s.
Proof.
  revert s. induction hs as [|h hs IH]; intros s; cbn; [auto|].
  destruct (IH (exec (run_handler h e) s)) as [-> ->]. apply handler_listeners.
Qed.

Lemma step_listeners i s :
  listeners (step i s) = listeners s /\ totalSlides (step i s) = totalSlides s.
Proof.
  destruct i as [e|h|index| | |x0 x1| |]; cbn [step].
  - apply handlers_listeners.
  - unfold tick. destruct (timers s !! h); [|auto].
    pose proof (SliderFacts.nextSlide_frame s) as H. unfold same_outside_render in H. tauto.
  - pose proof (SliderFacts.goToSlide_frame index s) as H.
    unfold same_outside_render in H. tauto.
  - pose proof (SliderFacts.nextSlide_frame s) as H. unfold same_outside_render in H. tauto.
  - pose proof (SliderFacts.prevSlide_frame s) as H. unfold same_outside_render in H. tauto.
  - pose proof (handleSwipe_frame x0 x1 s) as H.
    unfold same_outside_render in H. tauto.
  - pose proof (startAutoPlay_fields s). cbn zeta in *. tauto.
  - pose proof (stopAutoPlay_fields s). cbn zeta in *. tauto.
Qed.

Lemma run_listeners inputs s :
  listeners (run inputs s) = listeners s /\ totalSlides (run inputs s) = totalSlides s.
Proof.
  unfold run. revert s. induction inputs as [|i inputs IH]; intros s; cbn; [auto|].
  destruct (IH (step i s)) as [-> ->]. apply step_listeners.
Qed.

(** Looking up the dot listeners. *)
Lemma matching_dots (tgt : Target) (ty : EvType) (l : list bool) (i : nat) :
  l_handler <$>
    filter (fun x => l_target x = tgt /\ l_type x = ty)
           (imap (fun k _ => mkListener (DotEl (i + k)) click (OnDotClick (i + k))) l) =
  match tgt, ty with
  | DotEl index, click =>
      if ((i <=? index) && (index <? i + length l))%nat then [OnDotClick index] else []
  | _, _ => []
  end.
Proof.
  revert i. induction l as [|x l IH]; intros i.
  - destruct tgt, ty; try reflexivity.
    destruct (Nat.leb_spec i index), (Nat.ltb_spec index (i + length (@nil bool)));
      try reflexivity.
    cbn [length] in *. lia.
  - rewrite imap_cons, filter_cons. cbn [l_target l_type].
    assert (Htail :
      imap ((fun k (_ : bool) => mkListener (DotEl (i + k)) click (OnDotClick (i + k))) ∘ S) l
      = imap (fun k _ => mkListener (DotEl (S i + k)) click (OnDotClick (S i + k))) l).
    { apply imap_ext. intros k y _. cbn. by rewrite Nat.add_succ_r. }
    rewrite Htail, Nat.add_0_r.
    destruct (decide (DotEl i = tgt /\ click = ty)) as [[<- <-]|Hne].
    + rewrite fmap_cons. cbn [l_handler]. rewrite IH.
      destruct (Nat.leb_spec (S i) i); [lia|].
      destruct (Nat.leb_spec i i); [|lia].
      destruct (Nat.ltb_spec i (i + length (x :: l))); [|cbn [length] in *; lia].
      reflexivity.
    + rewrite IH. destruct tgt, ty; try reflexivity.
      assert (index <> i) by (intros ->; apply Hne; auto).
      destruct (Nat.leb_spec (S i) index), (Nat.leb_spec i index),
               (Nat.ltb_spec index (S i + length l)),
               (Nat.ltb_spec index (i + length (x :: l)));
        cbn [length] in *; try lia; reflexivity.
Qed.

Lemma live_listeners prev next dots0 cards s :
  live prev next dots0 cards s ->
  listeners s =
    (if prev then [mkListener PrevBtnEl click OnPrevClick] else []) ++
    (if next then [mkListener NextBtnEl click OnNextClick] else []) ++
    imap (fun k _ => mkListener (DotEl k) click (OnDotClick k)) dots0 ++
    [mkListener TrackEl mouseenter OnMouseEnter;
     mkListener TrackEl mouseleave OnMouseLeave;
     mkListener TrackEl touchstart OnTouchStart;
     mkListener TrackEl touchend OnTouchEnd] /\
  totalSlides s = Z.of_nat cards.
Proof.
  intros (t & h0 & inputs & Hc & ->).
  destruct (run_listeners inputs (snd (construct (Some t) prev next dots0 cards h0)))
    as [-> ->].
  rewrite construct_bound by exact Hc. auto.
Qed.

Lemma live_matching prev next dots0 cards s e :
  live prev next dots0 cards s ->
  matching e s = wired prev next (length dots0) e.
Proof.
  intros Hl. destruct (live_listeners _ _ _ _ _ Hl) as [HL _].
  unfold matching, wired. rewrite HL.
  rewrite !filter_app, !fmap_app.
  pose proof (matching_dots (ev_target e) (ev_type e) dots0 0) as Hd.
  cbn [Nat.add Nat.leb andb] in Hd. rewrite Hd.
  destruct e as [tgt ty x]. cbn [ev_target ev_type].
  destruct tgt, ty, prev, next; try reflexivity;
    cbn; rewrite ?app_nil_r; reflexivity.
Qed.

Lemma live_step prev next dots0 cards s i :
  live prev next dots0 cards s -> live prev next dots0 cards (step i s).
Proof.
  intros (t & h0 & inputs & Hc & ->). exists t, h0, (inputs ++ [i]).
  split; [exact Hc|]. unfold run. by rewrite foldl_app.
Qed.

(** X6.  On a slider constructed with a track and at least one card, in
    every state reached afterwards, the browser finds for each event
    exactly the listener bindEvents registered for it: a click on an
    existing previous/next button or on dot number index (when there is
    such a dot), and hover and touch events on the track; every other
    event finds none.  So entering the track runs stopAutoPlay, leaving it
    runs startAutoPlay, and a click on dot number index runs
    goToSlide(index). *)
Theorem X6_events_reach_their_methods
    (prev next : bool) (dots0 : list bool) (cards : nat) (s : State) (e : Event) :
  live prev next dots0 cards s ->
  matching e s = wired prev next (length dots0) e /\
  (forall x, dispatch (mkEvent TrackEl mouseenter x) s = exec stopAutoPlay s) /\
  (forall x, dispatch (mkEvent TrackEl mouseleave x) s = exec startAutoPlay s) /\
  (forall x index, (index < length dots0)%nat ->
     dispatch (mkEvent (DotEl index) click x) s =
     exec (goToSlide (Num (Z.of_nat index))) s) /\
  (forall x index, (length dots0 <= index)%nat ->
     dispatch (mkEvent (DotEl index) click x) s = s).
Proof.
  intros Hl. split; [by eapply live_matching|].
  repeat split; intros x; [| |intros index Hi | intros index Hi];
    unfold dispatch; rewrite (live_matching _ _ _ _ _ _ Hl); unfold wired;
    cbn [ev_target ev_type]; try reflexivity.
  - destruct (Nat.ltb_spec index (length dots0)); [reflexivity | lia].
  - destruct (Nat.ltb_spec index (length dots0)); [lia | reflexivity].
Qed.

Lemma X6_events_reach_their_methods_witness :
  let e := mkEvent NextBtnEl click 0 in
  matching e slider3 = wired true true (length [true; false; false]) e /\
  (forall x, dispatch (mkEvent TrackEl mouseenter x) slider3 = exec stopAutoPlay slider3) /\
  (forall x, dispatch (mkEvent TrackEl mouseleave x) slider3 = exec startAutoPlay slider3) /\
  (forall x index, (index < length [true; false; false])%nat ->
     dispatch (mkEvent (DotEl index) click x) slider3 =
     exec (goToSlide (Num (Z.of_nat index))) slider3) /\
  (forall x index, (length [true; false; false] <= index)%nat ->
     dispatch (mkEvent (DotEl index) click x) slider3 = slider3).
Proof.
  intros e.
  apply (X6_events_reach_their_methods true true [true; false; false] 3 slider3 e).
  exists transform_unset, 1%positive, []. split; [discriminate|].
  unfold slider3, run. cbn [foldl]. reflexivity.
Defined.

(** X7.  On such a slider a touch that starts at x0 and ends at x1,
    integer or fractional, has the effect of handleSwipe(x0, x1), with the
    two coordinates remembered; a touch whose coordinates differ by at most
    50 changes nothing else. *)
Theorem X7_touch_gesture_is_swipe
    (prev next : bool) (dots0 : list bool) (cards : nat) (s : State)
    (x0 x1 : Double.double) :
  live prev next dots0 cards s ->
  let s' := dispatch (mkEvent TrackEl touchend x1)
              (dispatch (mkEvent TrackEl touchstart x0) s) in
  s' = exec (handleSwipe x0 x1) (set_endX x1 (set_startX x0 s)) /\
  (Double.leb (Double.abs (Double.sub x0 x1)) 50 = true ->
   s' = set_endX x1 (set_startX x0 s)).
Proof.
  intros Hl s'.
  assert (H1 : dispatch (mkEvent TrackEl touchstart x0) s = set_startX x0 s).
  { unfold dispatch. by rewrite (live_matching _ _ _ _ _ _ Hl). }
  pose proof (live_step _ _ _ _ _ (Dispatch (mkEvent TrackEl touchstart x0)) Hl) as Hl1.
  cbn [step] in Hl1.
  assert (H2 : s' = exec (handleSwipe x0 x1) (set_endX x1 (set_startX x0 s))).
  { subst s'. unfold dispatch at 1. rewrite (live_matching _ _ _ _ _ _ Hl1).
    rewrite H1. reflexivity. }
  split; [exact H2|].
  intros Habs. rewrite H2. unfold handleSwipe, exec. cbv zeta.
  by rewrite (DoubleFacts.leb_not_gtb _ _ Habs).
Qed.

(** The witness: a touch from 100.5 to 50.5, a difference of exactly 50. *)
Lemma X7_touch_gesture_is_swipe_witness :
  let x0 := Double.of_dyadic 201 (-1) in
  let x1 := Double.of_dyadic 101 (-1) in
  let s' := dispatch (mkEvent TrackEl touchend x1)
              (dispatch (mkEvent TrackEl touchstart x0) slider3) in
  s' = exec (handleSwipe x0 x1) (set_endX x1 (set_startX x0 slider3)) /\
  s' = set_endX x1 (set_startX x0 slider3).
Proof.
  intros x0 x1 s'.
  destruct (X7_touch_gesture_is_swipe true true [true; false; false] 3 slider3 x0 x1)
    as [H2 H3].
  - exists transform_unset, 1%positive, []. split; [discriminate|].
    unfold slider3, run. cbn [foldl]. reflexivity.
  - split; [exact H2|]. apply H3. reflexivity.
Defined.

(** ** The cursor under page inputs *)

Lemma goToSlide_in_range N index s :
  Z.of_nat index < N ->
  in_range N (exec (goToSlide (Num (Z.of_nat index))) s).
Proof.
  intros Hi. exists (Z.of_nat index).
  rewrite SliderFacts.goToSlide_currentSlide. split; [reflexivity | lia].
Qed.

Lemma handleSwipe_in_range N x0 x1 s :
  1 <= N -> totalSlides s = N -> in_range N s ->
  in_range N (exec (handleSwipe x0 x1) s).
Proof.
  intros HN Ht Hr. unfold handleSwipe. cbv zeta.
  destruct (Double.gtb (Double.abs (Double.sub x0 x1)) 50); [|exact Hr].
  destruct (Double.gtb (Double.sub x0 x1) 0);
    [by apply SliderFacts.next_in_range | by apply SliderFacts.prev_in_range].
Qed.

Lemma handler_in_range N h e s :
  1 <= N -> totalSlides s = N -> in_range N s ->
  (forall index, h = OnDotClick index -> Z.of_nat index < N) ->
  in_range N (exec (run_handler h e) s).
Proof.
  intros HN Ht Hr Hsafe. destruct h; cbn [run_handler].
  - by apply SliderFacts.prev_in_range.
  - by apply SliderFacts.next_in_range.
  - apply goToSlide_in_range. by apply Hsafe.
  - destruct (stopAutoPlay_fields s) as (_ & _ & Hc & _).
    unfold in_range. cbn zeta in Hc. by rewrite Hc.
  - destruct (startAutoPlay_fields s) as (_ & _ & Hc & _).
    unfold in_range. cbn zeta in Hc. by rewrite Hc.
  - exact Hr.
  - rewrite exec_seq_normal by reflexivity. by apply handleSwipe_in_range.
Qed.

Lemma wired_safe prev next n e h :
  h ∈ wired prev next n e -> forall index, h = OnDotClick index -> (index < n)%nat.
Proof.
  intros Hh index ->. unfold wired in Hh.
  destruct (ev_target e) as [| |j|], (ev_type e), prev, next;
    cbv beta iota in Hh;
    try (by apply elem_of_nil in Hh);
    try (apply list_elem_of_singleton in Hh; discriminate Hh).
  all: destruct (Nat.ltb_spec j n) as [Hlt|Hge];
    [apply list_elem_of_singleton in Hh; injection Hh as ->; exact Hlt
    | by apply elem_of_nil in Hh].
Qed.

Lemma handlers_in_range N e hs s :
  1 <= N -> totalSlides s = N -> in_range N s ->
  (forall h, h ∈ hs -> forall index, h = OnDotClick index -> Z.of_nat index < N) ->
  in_range N (foldl (fun s' h => exec (run_handler h e) s') s hs).
Proof.
  intros HN. revert s. induction hs as [|h hs IH]; intros s Ht Hr Hsafe; cbn.
  - exact Hr.
  - apply IH.
    + destruct (handler_listeners h e s) as [_ ->]. exact Ht.
    + apply handler_in_range; try assumption. apply Hsafe. by left.
    + intros h' Hh'. apply Hsafe. by right.
Qed.

Lemma page_step_in_range prev next dots0 cards i s :
  (length dots0 <= cards)%nat ->
  from_page i = true ->
  live prev next dots0 cards s ->
  in_range (Z.of_nat cards) s ->
  in_range (Z.of_nat cards) (step i s).
Proof.
  intros Hd Hi Hl Hr.
  destruct (live_listeners _ _ _ _ _ Hl) as [_ Ht].
  assert (HN : 1 <= Z.of_nat cards).
  { destruct Hl as (_ & _ & _ & Hc & _). lia. }
  destruct i; try discriminate Hi; cbn [step].
  - unfold dispatch. rewrite (live_matching _ _ _ _ _ _ Hl).
    apply handlers_in_range; try assumption.
    intros h Hh index Hindex.
    pose proof (wired_safe _ _ _ _ _ Hh index Hindex). lia.
  - unfold tick. destruct (timers s !! h); [|exact Hr].
    by apply SliderFacts.next_in_range.
Qed.

(** X8.  On a page with a track, at least one card and no more dots than
    cards, the cursor is a valid index in [0, cards - 1] in every state the
    page can bring about through clicks, hovering, touches and timer
    expiries. *)
Theorem X8_page_inputs_keep_index_valid
    (prev next : bool) (dots0 : list bool) (cards : nat) (s : State) :
  (length dots0 <= cards)%nat ->
  live_on_page prev next dots0 cards s ->
  in_range (Z.of_nat cards) s /\ totalSlides s = Z.of_nat cards /\ valid_index s = true.
Proof.
  intros Hd (t & h0 & inputs & Hc & Hin & ->).
  set (s0 := snd (construct (Some t) prev next dots0 cards h0)).
  assert (H0 : live prev next dots0 cards s0 /\ in_range (Z.of_nat cards) s0).
  { split.
    - exists t, h0, []. split; [exact Hc | reflexivity].
    - subst s0. rewrite construct_bound by exact Hc. exists 0.
      split; [reflexivity | lia]. }
  assert (H : live prev next dots0 cards (run inputs s0) /\
              in_range (Z.of_nat cards) (run inputs s0)).
  { clearbody s0. revert s0 H0. unfold run.
    induction inputs as [|i inputs IH]; intros s0 [Hl Hr]; cbn.
    - auto.
    - cbn in Hin. apply andb_true_iff in Hin as [Hi Hin].
      apply IH; [exact Hin|]. split.
      + by apply live_step.
      + by eapply page_step_in_range. }
  destruct H as [Hl Hr]. destruct (live_listeners _ _ _ _ _ Hl) as [_ Ht].
  split; [exact Hr|]. split; [exact Ht|].
  apply SliderFacts.valid_index_in_range. by rewrite Ht.
Qed.

Lemma X8_page_inputs_keep_index_valid_witness :
  let s := run [Dispatch (mkEvent (DotEl 2) click 0); Tick 1;
                Dispatch (mkEvent PrevBtnEl click 0)] slider3 in
  in_range (Z.of_nat 3) s /\ totalSlides s = Z.of_nat 3 /\ valid_index s = true.
Proof.
  intros s.
  apply (X8_page_inputs_keep_index_valid true true [true; false; false] 3 s).
  - cbn. lia.
  - exists transform_unset, 1%positive,
      [Dispatch (mkEvent (DotEl 2) click 0); Tick 1;
       Dispatch (mkEvent PrevBtnEl click 0)].
    split; [discriminate|]. split; reflexivity.
Defined.

End SliderExtras.

(** * Further properties of the reveal dispatchers *)

Module RevealExtras.

(** ** ScrollReveal *)

Section ScrollRevealPass.
Import ScrollReveal.
Variable isInViewport : Element -> Z -> bool.

Lemma classList_add_twice (c : string) (cl : list string) :
  classList_add c (classList_add c cl) = classList_add c cl.
Proof. apply RevealFacts.classList_add_present, RevealFacts.classList_add_elem. Qed.

Lemma visit_classes s x e :
  classes_of (visit isInViewport s x) e =
  if isInViewport x 50 && bool_decide (x = e)
  then classList_add "revealed" (classes_of s e) else classes_of s e.
Proof.
  unfold visit. destruct (isInViewport x 50); cbn [andb]; [|reflexivity].
  rewrite RevealFacts.classes_of_add_class.
  destruct (decide (x = e)) as [->|Hne].
  - by rewrite bool_decide_eq_true_2.
  - by rewrite bool_decide_eq_false_2.
Qed.

Lemma visit_all_classes l s e :
  classes_of (foldl (visit isInViewport) s l) e =
  if bool_decide (e ∈ l) && isInViewport e 50
  then classList_add "revealed" (classes_of s e) else classes_of s e.
Proof.
  revert s. induction l as [|x l IH]; intros s; cbn [foldl].
  - rewrite bool_decide_eq_false_2 by apply not_elem_of_nil. reflexivity.
  - rewrite IH, visit_classes.
    destruct (decide (x = e)) as [->|Hne].
    + rewrite (bool_decide_eq_true_2 (e = e)) by reflexivity.
      rewrite (bool_decide_eq_true_2 (e ∈ e :: l)) by (by left).
      rewrite andb_true_r. cbn [andb].
      destruct (isInViewport e 50); [|by rewrite andb_false_r].
      rewrite andb_true_r, classList_add_twice. by destruct (bool_decide (e ∈ l)).
    + rewrite (bool_decide_eq_false_2 (x = e)) by exact Hne.
      rewrite andb_false_r.
      destruct (decide (e ∈ l)) as [Hin|Hnin].
      * rewrite (bool_decide_eq_true_2 (e ∈ l)) by exact Hin.
        rewrite (bool_decide_eq_true_2 (e ∈ x :: l)) by (by right). reflexivity.
      * assert (Hnin' : e ∉ x :: l).
        { intros [->|H]%elem_of_cons; [by apply Hne | by apply Hnin]. }
        rewrite (bool_decide_eq_false_2 (e ∈ l)) by exact Hnin.
        rewrite (bool_decide_eq_false_2 (e ∈ x :: l)) by exact Hnin'. reflexivity.
Qed.

(** X9.  What one ScrollReveal pass does to any element of the page: if
    the element is watched and the viewport test holds for it, the class
    'revealed' is added to its class list (at the end, unless it is there
    already); otherwise its class list is untouched.  So no class is ever
    removed, elements outside the watched set are never touched, and an
    element is revealed after the pass exactly if it was before or is a
    watched element in the viewport. *)
Theorem X9_pass_adds_revealed_only (s : State) (e : Element) :
  classes_of (checkElements isInViewport s) e =
    (if bool_decide (e ∈ elements s) && isInViewport e 50
     then classList_add "revealed" (classes_of s e) else classes_of s e) /\
  classes_of s e `prefix_of` classes_of (checkElements isInViewport s) e /\
  revealed (checkElements isInViewport s) e =
    revealed s e || (bool_decide (e ∈ elements s) && isInViewport e 50) /\
  elements (checkElements isInViewport s) = elements s.
Proof.
  assert (H : classes_of (checkElements isInViewport s) e =
    (if bool_decide (e ∈ elements s) && isInViewport e 50
     then classList_add "revealed" (classes_of s e) else classes_of s e))
    by apply visit_all_classes.
  split; [exact H|]. split; [|split].
  - rewrite H. destruct (bool_decide (e ∈ elements s) && isInViewport e 50);
      [|reflexivity].
    unfold classList_add. destruct (decide ("revealed" ∈ classes_of s e));
      [reflexivity | by apply prefix_app_r].
  - unfold revealed. rewrite H.
    destruct (bool_decide (e ∈ elements s) && isInViewport e 50).
    + rewrite orb_true_r. apply bool_decide_eq_true, RevealFacts.classList_add_elem.
    + by rewrite orb_false_r.
  - apply RevealFacts.visit_all_elements.
Qed.

End ScrollRevealPass.

(** ** ScrollAnimationController *)

Section ScrollAnimationPasses.
Import ScrollAnimation ScrollAnimationMore.

Local Open Scope Q_scope.

Lemma triggers_ext (s s' : State) (layouts : list Layout) :
  threshold s' = threshold s -> elements s' = elements s ->
  (fun v => filter (fun e => isInViewport v s' e = true) (elements s')) <$> layouts =
  (fun v => filter (fun e => isInViewport v s e = true) (elements s)) <$> layouts.
Proof.
  intros Ht He. apply list_fmap_ext. intros _ v _. rewrite He.
  apply list_filter_iff. intros e. unfold isInViewport. by rewrite Ht.
Qed.

(** X10.  The scroll animation controller keeps no memory of what it has
    animated: every pass calls animateElement again for each watched
    element that passes the viewport test of that pass, in document order,
    so after several passes the calls are those of the first pass, then
    those of the second, and so on. *)
Theorem X10_every_pass_triggers_again (layouts : list Layout) (s : State) :
  animated (passes layouts s) =
    animated s ++
    concat ((fun v => filter (fun e => isInViewport v s e = true) (elements s))
              <$> layouts) /\
  elements (passes layouts s) = elements s /\
  threshold (passes layouts s) = threshold s.
Proof.
  unfold passes. revert s. induction layouts as [|v layouts IH]; intros s.
  - cbn. by rewrite app_nil_r.
  - cbn [foldl fmap list_fmap concat].
    destruct (ScrollAnimationFacts.check_list_animated v (elements s) s)
      as (Ha & Ht & He).
    cbn zeta in Ha, Ht, He. fold (checkElements v s) in Ha, Ht, He.
    destruct (IH (checkElements v s)) as (IHa & IHe & IHt).
    rewrite IHa, IHe, IHt, (triggers_ext _ _ layouts Ht He), Ha, He, Ht, <- app_assoc.
    auto.
Qed.

End ScrollAnimationPasses.

(** ** IntersectionAnimationController with the observer *)

Section Observer.
Import IntersectionAnimation IntersectionAnimationMore.
Import IntersectionAnimationFacts.

Local Open Scope stmt_scope.

Lemma hide_and_observe_exec (x : Element) (s : State) (o : gset Element) :
  observer s = Some o ->
  (modify (set_style x (set_opacity "0")) ;;
   modify (set_style x (set_transform "translateY(30px)")) ;;
   observe x) s =
  (Normal,
   mkState (Some ({[x]} ∪ o)) (matched s)
     (styles (set_style x (set_transform "translateY(30px)")
                (set_style x (set_opacity "0") s)))
     (timeouts s)).
Proof. intros Ho. unfold seq, modify, observe. cbn. by rewrite Ho. Qed.

Lemma hide_and_observe_self (x : Element) (s : State) :
  is_Some (observer s) ->
  watching
    (exec (modify (set_style x (set_opacity "0")) ;;
           modify (set_style x (set_transform "translateY(30px)")) ;;
           observe x) s) x.
Proof.
  intros [o Ho]. unfold exec. rewrite (hide_and_observe_exec x s o Ho). cbn [snd].
  unfold watching, observed. cbn [observer].
  split; [apply bool_decide_eq_true, elem_of_union; left; by apply elem_of_singleton|].
  change (style_of (mkState ?ob ?m (styles ?S) ?t) x) with (style_of S x).
  rewrite !style_of_set_style, !decide_True by reflexivity. auto.
Qed.

Lemma hide_and_observe_other (x : Element) (s : State) (e : Element) :
  watching s e ->
  watching
    (exec (modify (set_style x (set_opacity "0")) ;;
           modify (set_style x (set_transform "translateY(30px)")) ;;
           observe x) s) e.
Proof.
  intros Hw. destruct (decide (x = e)) as [->|Hne].
  - apply hide_and_observe_self. destruct Hw as [Ho _].
    unfold observed in Ho. destruct (observer s); [eauto | discriminate].
  - destruct Hw as (Ho & Hop & Htr). unfold observed in Ho.
    destruct (observer s) as [o|] eqn:Hobs; [|discriminate].
    unfold exec. rewrite (hide_and_observe_exec x s o Hobs). cbn [snd].
    unfold watching, observed. cbn [observer].
    split.
    + apply bool_decide_eq_true, elem_of_union. right.
      by apply bool_decide_eq_true in Ho.
    + change (style_of (mkState ?ob ?m (styles ?S) ?t) e) with (style_of S e).
      rewrite !style_of_set_style, !decide_False by exact Hne. auto.
Qed.

Lemma hide_and_observe_some (x : Element) (s : State) :
  is_Some (observer s) ->
  let r := (modify (set_style x (set_opacity "0")) ;;
            modify (set_style x (set_transform "translateY(30px)")) ;;
            observe x) s in
  fst r = Normal /\ is_Some (observer (snd r)) /\ timeouts (snd r) = timeouts s.
Proof.
  intros [o Ho]. cbn zeta. rewrite (hide_and_observe_exec x s o Ho). cbn. eauto.
Qed.

Lemma observe_all (l : list Element) (i : nat) (s : State) :
  is_Some (observer s) ->
  let r := forEach_from i
             (fun element (_ : nat) =>
                modify (set_style element (set_opacity "0")) ;;
                modify (set_style element (set_transform "translateY(30px)")) ;;
                observe element) l s in
  fst r = Normal /\ is_Some (observer (snd r)) /\ timeouts (snd r) = timeouts s /\
  forall e, e ∈ l -> watching (snd r) e.
Proof.
  revert i s. induction l as [|x l IH]; intros i s Hs; cbn zeta.
  - cbn. split; [reflexivity|]. split; [exact Hs|]. split; [reflexivity|].
    intros e He. by apply elem_of_nil in He.
  - cbn [forEach_from].
    destruct (hide_and_observe_some x s Hs) as (Hn & Hs1 & Ht1). cbn zeta in *.
    rewrite (fst_seq_normal _ _ _ Hn).
    change (snd (seq ?a ?b s)) with (exec (seq a b) s).
    rewrite (exec_seq_normal _ _ _ Hn).
    destruct (IH (S i) _ Hs1) as (Hn2 & Hs2 & Ht2 & Hw2). cbn zeta in *.
    unfold exec in *.
    split; [exact Hn2|]. split; [exact Hs2|]. split; [by rewrite Ht2|].
    intros e' [->|He]%elem_of_cons; [|by apply Hw2].
    apply (forEach_from_preserves (fun s => watching s x)).
    + intros y _ s'. apply hide_and_observe_other.
    + by apply hide_and_observe_self.
Qed.

Lemma construct_observing (els : list Element) (styles0 : gmap Element Style) :
  let r := construct true els styles0 in
  fst r = Normal /\ is_Some (observer (snd r)) /\ timeouts (snd r) = [] /\
  forall e, e ∈ els -> watching (snd r) e.
Proof.
  unfold construct, init. cbn [negb]. unfold seq, createObserver, modify.
  unfold observeElements. cbn [matched].
  apply (observe_all els 0 (mkState (Some ∅) els styles0 [])). cbn. eauto.
Qed.

(** What one entry does to an element. *)
Lemma observed_animateElement x s e :
  observed (exec (animateElement x) s) e = observed s e.
Proof. reflexivity. Qed.

Lemma observed_unobserve_ne x s e :
  x <> e -> observed (exec (unobserve x) s) e = observed s e.
Proof.
  intros Hne. unfold unobserve, exec, observed.
  destruct (observer s) as [o|] eqn:Ho; cbn; rewrite ?Ho; [|reflexivity].
  apply bool_decide_ext. rewrite elem_of_difference, elem_of_singleton.
  split; [tauto | intros; split; [assumption | congruence]].
Qed.

Lemma entry_exec (entry : Entry) (s : State) :
  is_Some (observer s) ->
  exec (if isIntersecting entry
        then animateElement (target entry) ;; unobserve (target entry)
        else skip) s =
  if isIntersecting entry
  then exec (unobserve (target entry)) (exec (animateElement (target entry)) s)
  else s.
Proof.
  intros _. destruct (isIntersecting entry); [|reflexivity].
  by rewrite exec_seq_normal.
Qed.

Lemma classic_dec_batches (batches : list (list Entry)) (e : Element) :
  (exists entries, entries ∈ batches /\ mkEntry e true ∈ entries) \/
  ~ (exists entries, entries ∈ batches /\ mkEntry e true ∈ entries).
Proof.
  induction batches as [|entries batches [IH|IH]].
  - right. intros (x & Hx & _). by apply elem_of_nil in Hx.
  - left. destruct IH as (x & Hx & Hxe). exists x. split; [by right | exact Hxe].
  - destruct (decide (mkEntry e true ∈ entries)) as [Hin|Hnin].
    + left. exists entries. split; [by left | exact Hin].
    + right. intros (x & [->|Hx]%elem_of_cons & Hxe); [by apply Hnin|].
      apply IH. eauto.
Qed.

Lemma entry_keeps_shown_state (entry : Entry) (s : State) (e : Element) :
  is_Some (observer s) -> shown s e ->
  shown (exec (if isIntersecting entry
               then animateElement (target entry) ;; unobserve (target entry)
               else skip) s) e.
Proof.
  intros Hs (Ho & Hop & Htr). rewrite entry_exec by exact Hs.
  destruct (isIntersecting entry); [|by repeat split].
  unfold shown. rewrite unobserve_style, animateElement_style.
  split; [by apply unobserve_keeps_unobserved|].
  destruct (decide (target entry = e)); auto.
Qed.

Lemma entry_fate (entry : Entry) (s : State) (e : Element) :
  is_Some (observer s) -> watching s e ->
  let s' := exec (if isIntersecting entry
                  then animateElement (target entry) ;; unobserve (target entry)
                  else skip) s in
  (entry = mkEntry e true -> shown s' e) /\
  (entry <> mkEntry e true -> watching s' e).
Proof.
  intros Hs (Ho & Hop & Htr). cbn zeta. rewrite entry_exec by exact Hs.
  destruct entry as [x b]. cbn [isIntersecting target]. split.
  - intros [= -> ->]. unfold shown.
    rewrite unobserve_style, animateElement_style, decide_True by reflexivity.
    split; [apply unobserve_target | auto].
  - intros Hne. destruct b; [|by repeat split].
    assert (x <> e) by (intros ->; by apply Hne).
    unfold watching. rewrite unobserve_style, animateElement_style.
    rewrite decide_False by assumption.
    rewrite observed_unobserve_ne, observed_animateElement by assumption. auto.
Qed.

Local Abbreviation entry_body :=
  (fun (entry : Entry) (_ : nat) =>
     if isIntersecting entry
     then animateElement (target entry) ;; unobserve (target entry)
     else skip).

Lemma entries_some entries i s :
  is_Some (observer s) ->
  is_Some (observer (exec (forEach_from i entry_body entries) s)).
Proof.
  apply (forEach_from_preserves (fun s => is_Some (observer s))).
  intros entry _ s' Hs'. destruct (entry_normal entry s' Hs') as [_ H]. exact H.
Qed.

Lemma entries_keep_shown entries i s e :
  is_Some (observer s) -> shown s e ->
  shown (exec (forEach_from i entry_body entries) s) e.
Proof.
  intros Hs Hsh.
  assert (H : is_Some (observer (exec (forEach_from i entry_body entries) s)) /\
              shown (exec (forEach_from i entry_body entries) s) e); [|tauto].
  apply (forEach_from_preserves (fun s => is_Some (observer s) /\ shown s e));
    [|auto].
  intros entry _ s' [Hs' Hsh']. split.
  - destruct (entry_normal entry s' Hs') as [_ H]. exact H.
  - by apply entry_keeps_shown_state.
Qed.

Lemma entries_fate entries i s e :
  is_Some (observer s) -> watching s e ->
  (mkEntry e true ∈ entries ->
     shown (exec (forEach_from i entry_body entries) s) e) /\
  (mkEntry e true ∉ entries ->
     watching (exec (forEach_from i entry_body entries) s) e).
Proof.
  revert s i. induction entries as [|entry entries IH]; intros s i Hs Hw.
  - split; [intros H; by apply elem_of_nil in H | intros _; exact Hw].
  - cbn [forEach_from].
    destruct (entry_normal entry s Hs) as [Hn Hs1]. cbv beta.
    rewrite (exec_seq_normal _ _ _ Hn).
    destruct (entry_fate entry s e Hs Hw) as [Hyes Hno]. cbn zeta in *.
    destruct (decide (entry = mkEntry e true)) as [Heq|Hne].
    + split; [|intros Hnin; exfalso; apply Hnin; rewrite Heq; by left].
      intros _. apply entries_keep_shown; [exact Hs1 | by apply Hyes].
    + destruct (IH _ (S i) Hs1 (Hno Hne)) as [IHyes IHno]. split.
      * intros [Heq|Hin]%elem_of_cons; [by symmetry in Heq | by apply IHyes].
      * intros Hnin. apply IHno. intros Hin. apply Hnin. by right.
Qed.

Lemma deliver_some batches s :
  is_Some (observer s) -> is_Some (observer (deliver batches s)).
Proof.
  unfold deliver. revert s. induction batches as [|entries batches IH]; intros s Hs.
  - exact Hs.
  - cbn. apply IH. by apply entries_some.
Qed.

Lemma deliver_keeps_shown batches s e :
  is_Some (observer s) -> shown s e -> shown (deliver batches s) e.
Proof.
  unfold deliver. revert s. induction batches as [|entries batches IH]; intros s Hs Hsh.
  - exact Hsh.
  - cbn. apply IH; [by apply entries_some | by apply entries_keep_shown].
Qed.

Lemma deliver_fate batches s e :
  is_Some (observer s) -> watching s e ->
  ((exists entries, entries ∈ batches /\ mkEntry e true ∈ entries) ->
     shown (deliver batches s) e) /\
  (~ (exists entries, entries ∈ batches /\ mkEntry e true ∈ entries) ->
     watching (deliver batches s) e).
Proof.
  revert s. induction batches as [|entries batches IH]; intros s Hs Hw.
  - split; [intros (x & Hx & _); by apply elem_of_nil in Hx | intros _; exact Hw].
  - change (deliver (entries :: batches) s)
      with (deliver batches (exec (callback entries) s)).
    pose proof (entries_some entries 0 s Hs) as Hs1.
    destruct (entries_fate entries 0 s e Hs Hw) as [Hyes Hno].
    destruct (decide (mkEntry e true ∈ entries)) as [Hin|Hnin].
    + split.
      * intros _. apply deliver_keeps_shown; [exact Hs1 | by apply Hyes].
      * intros Hne. exfalso. apply Hne. exists entries. split; [by left | exact Hin].
    + destruct (IH _ Hs1 (Hno Hnin)) as [IHyes IHno]. split.
      * intros (x & [->|Hx]%elem_of_cons & Hxe); [by destruct Hnin|].
        apply IHyes. eauto.
      * intros Hne. apply IHno. intros (x & Hx & Hxe). apply Hne.
        exists x. split; [by right | exact Hxe].
Qed.

Lemma watching_not_shown s e : watching s e -> ~ shown s e.
Proof. intros (_ & Hop & _) (_ & Hop' & _). rewrite Hop in Hop'. discriminate. Qed.

(** X11.  With the IntersectionObserver capability the constructor hides
    and observes every matching element and schedules nothing.  Whatever
    batches of entries the observer delivers afterwards, each matching
    element is in one of two states: still hidden and observed, or
    revealed and no longer observed; and it is revealed exactly if some
    delivered batch carried an intersecting entry for it.  No matching
    element is ever hidden without being observed. *)
Theorem X11_watching_or_shown
    (els : list Element) (styles0 : gmap Element Style)
    (batches : list (list Entry)) (e : Element) :
  e ∈ els ->
  let s := deliver batches (snd (construct true els styles0)) in
  fst (construct true els styles0) = Normal /\
  (watching s e \/ shown s e) /\
  (shown s e <-> exists entries, entries ∈ batches /\ mkEntry e true ∈ entries) /\
  (watching s e <-> ~ exists entries, entries ∈ batches /\ mkEntry e true ∈ entries).
Proof.
  intros He s.
  destruct (construct_observing els styles0) as (Hn & Hs & _ & Hw). cbn zeta in *.
  specialize (Hw e He).
  destruct (deliver_fate batches _ e Hs Hw) as [Hyes Hno]. fold s in Hyes, Hno.
  split; [exact Hn|].
  destruct (classic_dec_batches batches e) as [Hex|Hnex].
  - pose proof (Hyes Hex) as Hsh. split; [by right|]. split.
    + tauto.
    + split; [intros Hw' | tauto]. by destruct (watching_not_shown s e Hw').
  - pose proof (Hno Hnex) as Hw'. split; [by left|]. split.
    + split; [intros Hsh | tauto]. by destruct (watching_not_shown s e Hw').
    + tauto.
Qed.

Lemma X11_watching_or_shown_witness :
  let s := deliver [[mkEntry 3%positive true; mkEntry 5%positive false]]
             (snd (construct true [5; 3; 9]%positive ∅)) in
  fst (construct true [5; 3; 9]%positive ∅) = Normal /\
  (watching s 3%positive \/ shown s 3%positive) /\
  (shown s 3%positive <->
     exists entries,
       entries ∈ [[mkEntry 3%positive true; mkEntry 5%positive false]] /\
       mkEntry 3%positive true ∈ entries) /\
  (watching s 3%positive <->
     ~ exists entries,
       entries ∈ [[mkEntry 3%positive true; mkEntry 5%positive false]] /\
       mkEntry 3%positive true ∈ entries).
Proof.
  apply (X11_watching_or_shown [5; 3; 9]%positive ∅
           [[mkEntry 3%positive true; mkEntry 5%positive false]] 3%positive).
  apply elem_of_cons. right. apply elem_of_cons. by left.
Defined.

End Observer.

End RevealExtras.

(** * Properties of the navigation bar and the fleet tabs *)

Module DomFacts.
Import Dom.

Lemma elem_of_classList_remove (c x : string) (cl : list string) :
  x ∈ classList_remove c cl <-> x ∈ cl /\ x <> c.
Proof. unfold classList_remove. rewrite list_elem_of_filter. tauto. Qed.

Lemma elem_of_classList_add (c x : string) (cl : list string) :
  x ∈ ScrollReveal.classList_add c cl <-> x = c \/ x ∈ cl.
Proof.
  unfold ScrollReveal.classList_add. destruct (decide (c ∈ cl)) as [Hin|Hnin].
  - split; [tauto | intros [->|H]; assumption].
  - rewrite elem_of_app, list_elem_of_singleton. tauto.
Qed.

Lemma elem_of_classList_toggle (c x : string) (cl : list string) :
  x ∈ classList_toggle c cl <-> (x <> c /\ x ∈ cl) \/ (x = c /\ c ∉ cl).
Proof.
  unfold classList_toggle. destruct (decide (c ∈ cl)) as [Hin|Hnin].
  - rewrite elem_of_classList_remove. tauto.
  - rewrite elem_of_classList_add. destruct (decide (x = c)) as [->|Hne]; tauto.
Qed.

Lemma classList_remove_twice (c : string) (cl : list string) :
  classList_remove c (classList_remove c cl) = classList_remove c cl.
Proof.
  unfold classList_remove. induction cl as [|x cl IH]; [reflexivity|].
  rewrite filter_cons. destruct (decide (x <> c)) as [Hne|Heq].
  - rewrite filter_cons, decide_True by exact Hne. by rewrite IH.
  - exact IH.
Qed.

Lemma classList_remove_app (c : string) (cl1 cl2 : list string) :
  classList_remove c (cl1 ++ cl2) = classList_remove c cl1 ++ classList_remove c cl2.
Proof. apply filter_app. Qed.

Lemma classList_add_absent (c : string) (cl : list string) :
  c ∉ cl -> ScrollReveal.classList_add c cl = cl ++ [c].
Proof. intros H. unfold ScrollReveal.classList_add. by rewrite decide_False. Qed.

Lemma classes_of_insert (m : Classes) (e e' : Element) (v : list string) :
  classes_of (<[e := v]> m) e' = if decide (e = e') then v else classes_of m e'.
Proof.
  unfold classes_of. rewrite lookup_insert. destruct (decide (e = e')); reflexivity.
Qed.

Lemma classes_of_class_add c e m e' :
  classes_of (class_add c e m) e' =
  if decide (e = e') then ScrollReveal.classList_add c (classes_of m e)
  else classes_of m e'.
Proof. apply classes_of_insert. Qed.

Lemma classes_of_class_remove c e m e' :
  classes_of (class_remove c e m) e' =
  if decide (e = e') then classList_remove c (classes_of m e) else classes_of m e'.
Proof. apply classes_of_insert. Qed.

Lemma classes_of_class_toggle c e m e' :
  classes_of (class_toggle c e m) e' =
  if decide (e = e') then classList_toggle c (classes_of m e) else classes_of m e'.
Proof. apply classes_of_insert. Qed.

Lemma has_class_toggle (c0 c : string) (x e : Element) (m : Classes) :
  has_class (class_toggle c0 x m) e c =
  xorb (has_class m e c) (bool_decide (c = c0 /\ x = e)).
Proof.
  unfold has_class. rewrite classes_of_class_toggle.
  destruct (decide (x = e)) as [->|Hne].
  - repeat case_bool_decide; try reflexivity;
      rewrite elem_of_classList_toggle in *; exfalso;
      destruct (decide (c = c0)); subst; tauto.
  - repeat case_bool_decide; try reflexivity; exfalso; tauto.
Qed.

Lemma has_class_remove (c0 c : string) (x e : Element) (m : Classes) :
  has_class (class_remove c0 x m) e c =
  has_class m e c && negb (bool_decide (c = c0 /\ x = e)).
Proof.
  unfold has_class. rewrite classes_of_class_remove.
  destruct (decide (x = e)) as [->|Hne].
  - repeat case_bool_decide; try reflexivity;
      rewrite elem_of_classList_remove in *; exfalso; tauto.
  - repeat case_bool_decide; try reflexivity; exfalso; tauto.
Qed.

Lemma has_class_add (c0 c : string) (x e : Element) (m : Classes) :
  has_class (class_add c0 x m) e c =
  has_class m e c || bool_decide (c = c0 /\ x = e).
Proof.
  unfold has_class. rewrite classes_of_class_add.
  destruct (decide (x = e)) as [->|Hne].
  - repeat case_bool_decide; try reflexivity;
      rewrite elem_of_classList_add in *; exfalso; tauto.
  - repeat case_bool_decide; try reflexivity; exfalso; tauto.
Qed.

End DomFacts.

Module NavigationFacts.
Import Dom Navigation NavigationMore DomFacts.

Local Open Scope stmt_scope.

Lemma link_classes_twice (t1 t2 : string) (h : option string) (cl : list string) :
  link_classes t2 h (link_classes t1 h cl) = link_classes t2 h cl.
Proof.
  unfold link_classes. rewrite classList_remove_app, classList_remove_twice.
  destruct (bool_decide (h = Some t1)); cbn; by rewrite app_nil_r.
Qed.

(** The body of the loop of [setActiveLink], on one link. *)
Lemma link_step (target : string) (x : Element) (s : State) :
  let r := (modify (set_classList (class_remove "active" x)) ;;
            (fun s' =>
               if bool_decide (href s' !! x = Some target)
               then modify (set_classList (class_add "active" x)) s'
               else skip s')) s in
  fst r = Normal /\ same_page s (snd r) /\
  forall e, classes_of (classList (snd r)) e =
            if decide (x = e)
            then link_classes target (href s !! x) (classes_of (classList s) x)
            else classes_of (classList s) e.
Proof.
  cbn zeta. unfold seq, modify, skip. cbn [fst snd href set_classList].
  unfold link_classes.
  destruct (bool_decide (href s !! x = Some target)); cbn [fst snd].
  - split; [reflexivity|]. split; [by repeat split|]. intros e.
    cbn [classList set_classList].
    rewrite classes_of_class_add, !classes_of_class_remove.
    rewrite (decide_True (P := x = x)) by reflexivity.
    destruct (decide (x = e)); [|reflexivity].
    apply classList_add_absent. rewrite elem_of_classList_remove. tauto.
  - split; [reflexivity|]. split; [by repeat split|]. intros e.
    cbn [classList set_classList]. rewrite classes_of_class_remove, app_nil_r.
    reflexivity.
Qed.

Lemma links_loop (target : string) (l : list Element) (i : nat) (s : State) :
  let r := forEach_from i
             (fun link (_ : nat) =>
                modify (set_classList (class_remove "active" link)) ;;
                (fun s' =>
                   if bool_decide (href s' !! link = Some target)
                   then modify (set_classList (class_add "active" link)) s'
                   else skip s')) l s in
  fst r = Normal /\ same_page s (snd r) /\
  forall e, classes_of (classList (snd r)) e =
            if bool_decide (e ∈ l)
            then link_classes target (href s !! e) (classes_of (classList s) e)
            else classes_of (classList s) e.
Proof.
  revert i s. induction l as [|x l IH]; intros i s; cbn zeta.
  - cbn. split; [reflexivity|]. split; [by repeat split|]. intros e.
    by rewrite bool_decide_eq_false_2 by apply not_elem_of_nil.
  - cbn [forEach_from].
    destruct (link_step target x s) as (Hn & Hp & Hc). cbn zeta in *.
    rewrite (fst_seq_normal _ _ _ Hn).
    change (snd (seq ?a ?b s)) with (exec (seq a b) s).
    rewrite (exec_seq_normal _ _ _ Hn).
    match goal with
    | |- context [exec (forEach_from (S i) _ l) ?s1] =>
        destruct (IH (S i) s1) as (Hn2 & Hp2 & Hc2)
    end.
    cbn zeta in *. unfold exec in *.
    split; [exact Hn2|]. split.
    + unfold same_page in *. destruct Hp as (<- & <- & <- & <- & <- & <-).
      exact Hp2.
    + intros e. rewrite Hc2, !Hc.
      destruct Hp as (_ & _ & _ & _ & _ & ->).
      destruct (decide (x = e)) as [->|Hne].
      * rewrite (bool_decide_eq_true_2 (e ∈ e :: l)) by (by left).
        destruct (bool_decide (e ∈ l)); [apply link_classes_twice | reflexivity].
      * destruct (decide (e ∈ l)) as [Hin|Hnin].
        -- rewrite (bool_decide_eq_true_2 (e ∈ l)) by exact Hin.
           rewrite (bool_decide_eq_true_2 (e ∈ x :: l)) by (by right). reflexivity.
        -- assert (Hnin' : e ∉ x :: l).
           { intros [->|H]%elem_of_cons; [by apply Hne | by apply Hnin]. }
           rewrite (bool_decide_eq_false_2 (e ∈ l)) by exact Hnin.
           rewrite (bool_decide_eq_false_2 (e ∈ x :: l)) by exact Hnin'. reflexivity.
Qed.

Lemma setActiveLink_spec (target : string) (s : State) :
  fst (setActiveLink target s) = Normal /\
  same_page s (exec (setActiveLink target) s) /\
  forall e, classes_of (classList (exec (setActiveLink target) s)) e =
            if bool_decide (e ∈ navLinks s)
            then link_classes target (href s !! e) (classes_of (classList s) e)
            else classes_of (classList s) e.
Proof. apply (links_loop target (navLinks s) 0 s). Qed.

(** X12.  setActiveLink(target) never fails and rewrites the class list of
    each navigation link, and of nothing else: 'active' is removed, and put
    back at the end exactly if the link's href attribute equals the target.
    So afterwards a link is active exactly if its href is the target, and
    every other class of every element is as before. *)
Theorem X12_setActiveLink_marks_target (target : string) (s : State) (e : Element) :
  let s' := exec (setActiveLink target) s in
  fst (setActiveLink target s) = Normal /\
  same_page s s' /\
  classes_of (classList s') e =
    (if bool_decide (e ∈ navLinks s)
     then link_classes target (href s !! e) (classes_of (classList s) e)
     else classes_of (classList s) e) /\
  (e ∈ navLinks s ->
     ("active" ∈ classes_of (classList s') e <-> href s !! e = Some target)) /\
  (forall c, c <> "active" ->
     (c ∈ classes_of (classList s') e <-> c ∈ classes_of (classList s) e)).
Proof.
  intros s'. destruct (setActiveLink_spec target s) as (Hn & Hp & Hc).
  fold s' in Hp, Hc.
  split; [exact Hn|]. split; [exact Hp|]. split; [apply Hc|]. split.
  - intros Hin. rewrite Hc, bool_decide_eq_true_2 by exact Hin.
    unfold link_classes. rewrite elem_of_app, elem_of_classList_remove.
    destruct (decide (href s !! e = Some target)) as [Heq|Hne].
    + rewrite bool_decide_eq_true_2 by exact Heq.
      split; [auto | intros _; right; by apply list_elem_of_singleton].
    + rewrite bool_decide_eq_false_2 by exact Hne.
      split; [|tauto]. intros [[_ H]|H]; [by destruct H | by apply elem_of_nil in H].
  - intros c Hc'. rewrite Hc. destruct (bool_decide (e ∈ navLinks s)); [|reflexivity].
    unfold link_classes. rewrite elem_of_app, elem_of_classList_remove.
    split; [intros [[H _]|H]; [exact H|] | tauto].
    destruct (bool_decide (href s !! e = Some target));
      [apply list_elem_of_singleton in H; by destruct Hc' | by apply elem_of_nil in H].
Qed.

Lemma X12_setActiveLink_marks_target_witness :
  let s' := exec (setActiveLink "#fleet") page in
  classes_of (classList s') 4%positive = ["nav-link"] /\
  classes_of (classList s') 5%positive = ["nav-link"; "active"].
Proof.
  intros s'.
  destruct (X12_setActiveLink_marks_target "#fleet" page 4%positive)
    as (_ & _ & H4 & _).
  destruct (X12_setActiveLink_marks_target "#fleet" page 5%positive)
    as (_ & _ & H5 & _).
  fold s' in H4, H5. rewrite H4, H5. split; reflexivity.
Defined.

(** The active link follows the scroll position. *)
Lemma same_page_trans s1 s2 s3 : same_page s1 s2 -> same_page s2 s3 -> same_page s1 s3.
Proof.
  unfold same_page. intros (-> & -> & -> & -> & -> & ->) H. exact H.
Qed.

Lemma sections_loop (scrollY : Q) (sections : list PageSection) (i : nat) (s : State) :
  let s' := exec (forEach_from i
                    (fun section (_ : nat) =>
                       let sectionTop := offsetTop section in
                       let sectionHeight := offsetHeight section in
                       let sectionId := sec_id section in
                       if Qgeb (scrollY + 100) sectionTop &&
                          Qltb (scrollY + 100) (sectionTop + sectionHeight)
                       then setActiveLink ("#" +:+ sectionId)
                       else skip) sections) s in
  same_page s s' /\
  forall e,
    classes_of (classList s') e =
    match last (filter (fun sec => under_probe scrollY sec = true) sections) with
    | Some sec =>
        classes_of (classList (exec (setActiveLink ("#" +:+ sec_id sec)) s)) e
    | None => classes_of (classList s) e
    end.
Proof.
  revert i s. induction sections as [|sec sections IH]; intros i s; cbn zeta.
  - cbn. split; [by repeat split | reflexivity].
  - cbn [forEach_from]. rewrite filter_cons. cbv beta zeta.
    change (Qgeb (scrollY + 100) (offsetTop sec) &&
            Qltb (scrollY + 100) (offsetTop sec + offsetHeight sec))
      with (under_probe scrollY sec).
    destruct (under_probe scrollY sec) eqn:Hhit.
    + destruct (setActiveLink_spec ("#" +:+ sec_id sec) s) as (Hn & Hp & Hc).
      rewrite (exec_seq_normal _ _ _ Hn).
      destruct (IH (S i) (exec (setActiveLink ("#" +:+ sec_id sec)) s)) as [Hp2 Hc2].
      cbn zeta in *. split; [by eapply same_page_trans|].
      intros e. rewrite Hc2. rewrite decide_True by reflexivity.
      rewrite last_cons.
      destruct (last (filter (fun sec0 => under_probe scrollY sec0 = true) sections))
        as [sec'|]; [|reflexivity].
      destruct (setActiveLink_spec ("#" +:+ sec_id sec')
                  (exec (setActiveLink ("#" +:+ sec_id sec)) s)) as (_ & _ & Hc3).
      destruct (setActiveLink_spec ("#" +:+ sec_id sec') s) as (_ & _ & Hc4).
      rewrite Hc3, Hc4, Hc.
      destruct Hp as (_ & _ & _ & -> & _ & ->).
      destruct (bool_decide (e ∈ navLinks s)); [apply link_classes_twice | reflexivity].
    + rewrite (exec_seq_normal skip _ s eq_refl).
      rewrite decide_False by discriminate.
      apply (IH (S i) s).
Qed.

(** X13.  updateActiveLink never fails and changes class lists only.  If
    no section contains the line 100 pixels below the scroll position the
    page is left as it is; otherwise the class lists are those that
    setActiveLink leaves for the last such section in document order, so the
    active links are exactly the links to that section. *)
Theorem X13_last_section_under_probe_wins
    (scrollY : Q) (sections : list PageSection) (s : State) (e : Element) :
  let s' := exec (updateActiveLink scrollY sections) s in
  same_page s s' /\
  classes_of (classList s') e =
    match last (filter (fun sec => under_probe scrollY sec = true) sections) with
    | Some sec =>
        classes_of (classList (exec (setActiveLink ("#" +:+ sec_id sec)) s)) e
    | None => classes_of (classList s) e
    end /\
  (forall sec,
     last (filter (fun sec => under_probe scrollY sec = true) sections) = Some sec ->
     e ∈ navLinks s ->
     ("active" ∈ classes_of (classList s') e <->
      href s !! e = Some ("#" +:+ sec_id sec))).
Proof.
  intros s'. destruct (sections_loop scrollY sections 0 s) as [Hp Hc].
  cbn zeta in Hp, Hc. fold (updateActiveLink scrollY sections) in Hp, Hc.
  unfold forEach in Hp, Hc. fold s' in Hp, Hc.
  split; [exact Hp|]. split; [apply Hc|].
  intros sec Hlast Hin. rewrite Hc, Hlast.
  destruct (setActiveLink_spec ("#" +:+ sec_id sec) s) as (_ & _ & Hc1).
  rewrite Hc1, bool_decide_eq_true_2 by exact Hin.
  unfold link_classes. rewrite elem_of_app, elem_of_classList_remove.
  destruct (decide (href s !! e = Some ("#" +:+ sec_id sec))) as [Heq|Hne].
  - rewrite bool_decide_eq_true_2 by exact Heq.
    split; [auto | intros _; right; by apply list_elem_of_singleton].
  - rewrite bool_decide_eq_false_2 by exact Hne.
    split; [|tauto]. intros [[_ H]|H]; [by destruct H | by apply elem_of_nil in H].
Qed.

(** ** The mobile menu *)

Lemma toggleMobileMenu_spec (s : State) (m t : Element) :
  navMenu s = Some m -> navToggle s = Some t ->
  fst (toggleMobileMenu s) = Normal /\
  same_page s (exec toggleMobileMenu s) /\
  forall e c,
    has_class (classList (exec toggleMobileMenu s)) e c =
    xorb (xorb (xorb (has_class (classList s) e c)
                     (bool_decide (c = "active" /\ m = e)))
               (bool_decide (c = "active" /\ t = e)))
         (bool_decide (c = "menu-open" /\ body s = e)).
Proof.
  intros Hm Ht. unfold toggleMobileMenu, exec, seq, on_element.
  cbn [navMenu navToggle body set_classList fst snd]. rewrite Hm.
  cbn [navMenu navToggle body set_classList fst snd]. rewrite Ht.
  cbn [navMenu navToggle body set_classList fst snd classList].
  split; [reflexivity|]. split; [by repeat split|].
  intros e c. by rewrite !has_class_toggle.
Qed.

(** X14.  closeMobileMenu never fails, even when the menu or its toggle is
    missing.  It removes 'active' from the menu and from the toggle and
    'menu-open' from the body, and changes no other class of any element;
    so afterwards the menu is closed whatever its state was. *)
Theorem X14_closeMobileMenu_closes (s : State) (e : Element) (c : string) :
  let s' := exec closeMobileMenu s in
  fst (closeMobileMenu s) = Normal /\
  same_page s s' /\
  has_class (classList s') e c =
    has_class (classList s) e c &&
    negb (bool_decide (c = "active" /\ navMenu s = Some e)) &&
    negb (bool_decide (c = "active" /\ navToggle s = Some e)) &&
    negb (bool_decide (c = "menu-open" /\ body s = e)) /\
  (forall m, navMenu s = Some m -> has_class (classList s') m "active" = false) /\
  (forall t, navToggle s = Some t -> has_class (classList s') t "active" = false) /\
  has_class (classList s') (body s) "menu-open" = false.
Proof.
  intros s'.
  assert (H : fst (closeMobileMenu s) = Normal /\ same_page s s' /\
    forall e c, has_class (classList s') e c =
      has_class (classList s) e c &&
      negb (bool_decide (c = "active" /\ navMenu s = Some e)) &&
      negb (bool_decide (c = "active" /\ navToggle s = Some e)) &&
      negb (bool_decide (c = "menu-open" /\ body s = e))).
  { subst s'. unfold closeMobileMenu, exec, seq, on_element, on_element_opt.
    destruct (navMenu s) as [m|] eqn:Hm, (navToggle s) as [t|] eqn:Ht;
      cbn [navMenu navToggle body set_classList fst snd classList];
      rewrite ?Hm, ?Ht;
      cbn [navMenu navToggle body set_classList fst snd classList];
      rewrite ?Hm, ?Ht;
      cbn [navMenu navToggle body set_classList fst snd classList];
      (split; [reflexivity|]); (split; [by repeat split|]);
      intros e' c'; rewrite !has_class_remove;
      repeat case_bool_decide; try reflexivity;
      destruct (has_class (classList s) e' c'); try reflexivity;
      exfalso; intuition congruence. }
  destruct H as (Hn & Hp & Hc).
  split; [exact Hn|]. split; [exact Hp|]. split; [apply Hc|].
  split; [|split].
  - intros m Hm. rewrite Hc.
    rewrite (bool_decide_eq_true_2 ("active" = "active" /\ navMenu s = Some m)) by auto.
    cbn. by rewrite andb_false_r.
  - intros t Ht. rewrite Hc.
    rewrite (bool_decide_eq_true_2 ("active" = "active" /\ navToggle s = Some t)) by auto.
    cbn. by rewrite andb_false_r.
  - rewrite Hc.
    rewrite (bool_decide_eq_true_2 ("menu-open" = "menu-open" /\ body s = body s)) by auto.
    cbn. by rewrite andb_false_r.
Qed.

(** X15.  When the menu element is missing toggleMobileMenu throws a
    TypeError before changing anything.  When the menu and the toggle both
    exist it completes and flips 'active' on each and 'menu-open' on the
    body, and two toggles in succession leave every element with exactly
    the classes it had. *)
Theorem X15_toggleMobileMenu_involution (s : State) :
  (navMenu s = None -> toggleMobileMenu s = (Throw, s)) /\
  (forall m t, navMenu s = Some m -> navToggle s = Some t ->
     fst (toggleMobileMenu s) = Normal /\
     fst (toggleMobileMenu (exec toggleMobileMenu s)) = Normal /\
     (forall e c,
        has_class (classList (exec toggleMobileMenu s)) e c =
        xorb (xorb (xorb (has_class (classList s) e c)
                         (bool_decide (c = "active" /\ m = e)))
                   (bool_decide (c = "active" /\ t = e)))
             (bool_decide (c = "menu-open" /\ body s = e))) /\
     (forall e c,
        has_class (classList (exec toggleMobileMenu (exec toggleMobileMenu s))) e c =
        has_class (classList s) e c)).
Proof.
  split.
  - intros Hm. unfold toggleMobileMenu, seq, on_element. by rewrite Hm.
  - intros m t Hm Ht.
    destruct (toggleMobileMenu_spec s m t Hm Ht) as (Hn & Hp & Hc).
    pose proof Hp as (_ & Ht' & Hm' & _ & Hb' & _).
    rewrite Hm in Hm'. rewrite Ht in Ht'.
    destruct (toggleMobileMenu_spec _ m t Hm' Ht') as (Hn2 & _ & Hc2).
    split; [exact Hn|]. split; [exact Hn2|]. split; [exact Hc|].
    intros e c. rewrite Hc2, Hc, Hb'.
    destruct (has_class (classList s) e c), (bool_decide (c = "active" /\ m = e)),
      (bool_decide (c = "active" /\ t = e)), (bool_decide (c = "menu-open" /\ body s = e));
      reflexivity.
Qed.

Lemma X15_toggleMobileMenu_involution_witness :
  fst (toggleMobileMenu page) = Normal /\
  fst (toggleMobileMenu (exec toggleMobileMenu page)) = Normal /\
  (forall e c,
     has_class (classList (exec toggleMobileMenu page)) e c =
     xorb (xorb (xorb (has_class (classList page) e c)
                      (bool_decide (c = "active" /\ 3%positive = e)))
                (bool_decide (c = "active" /\ 2%positive = e)))
          (bool_decide (c = "menu-open" /\ body page = e))) /\
  (forall e c,
     has_class (classList (exec toggleMobileMenu (exec toggleMobileMenu page))) e c =
     has_class (classList page) e c).
Proof.
  apply (proj2 (X15_toggleMobileMenu_involution page) 3%positive 2%positive);
    reflexivity.
Defined.

End NavigationFacts.

Module FleetTabsFacts.
Import Dom FleetTabs DomFacts.

Lemma remove_all (c : string) (l : list Element) (s : State) :
  let s' := foldl (fun s' x => set_classList (class_remove c x) s') s l in
  tabButtons s' = tabButtons s /\ tabContents s' = tabContents s /\
  data_tab s' = data_tab s /\ byId s' = byId s /\
  forall e c',
    has_class (classList s') e c' =
    has_class (classList s) e c' && negb (bool_decide (c' = c /\ e ∈ l)).
Proof.
  revert s. induction l as [|x l IH]; intros s; cbn zeta.
  - cbn. repeat split. intros e c'.
    rewrite bool_decide_eq_false_2; [by rewrite andb_true_r|].
    intros [_ H]. by apply elem_of_nil in H.
  - cbn [foldl]. destruct (IH (set_classList (class_remove c x) s))
      as (Hb & Hc & Hd & Hi & Hh). cbn zeta in *.
    split; [exact Hb|]. split; [exact Hc|]. split; [exact Hd|]. split; [exact Hi|].
    intros e c'. rewrite Hh. cbn [classList set_classList].
    rewrite has_class_remove.
    destruct (has_class (classList s) e c'); [|reflexivity]. cbn [andb].
    rewrite <- negb_orb, <- bool_decide_or. f_equal.
    apply bool_decide_ext. rewrite elem_of_cons. intuition congruence.
Qed.

(** X16.  After switchTab(tabId, button) an element carries 'active'
    exactly if it is the clicked button or the element whose id is tabId,
    or if it carried 'active' before and is neither a tab button nor a tab
    content.  So among the tab buttons and tab contents only the clicked
    button and the target are active; when no element has that id no
    content is active.  No other class of any element changes. *)
Theorem X16_switchTab_activates_one
    (tabId : string) (activeButton : Element) (s : State) (e : Element) :
  let s' := switchTab tabId activeButton s in
  has_class (classList s') e "active" =
    bool_decide (e = activeButton \/ byId s !! tabId = Some e) ||
    (has_class (classList s) e "active" &&
     negb (bool_decide (e ∈ tabButtons s \/ e ∈ tabContents s))) /\
  (forall c, c <> "active" ->
     has_class (classList s') e c = has_class (classList s) e c) /\
  (e ∈ tabButtons s \/ e ∈ tabContents s ->
     (has_class (classList s') e "active" = true <->
      e = activeButton \/ byId s !! tabId = Some e)) /\
  tabButtons s' = tabButtons s /\ tabContents s' = tabContents s /\
  byId s' = byId s.
Proof.
  intros s'. subst s'. unfold switchTab.
  destruct (remove_all "active" (tabButtons s) s) as (Hb1 & Hc1 & Hd1 & Hi1 & Hh1).
  cbn zeta in *.
  set (s1 := foldl _ s (tabButtons s)) in *.
  destruct (remove_all "active" (tabContents s1) s1) as (Hb2 & Hc2 & Hd2 & Hi2 & Hh2).
  cbn zeta in *.
  set (s2 := foldl _ s1 (tabContents s1)) in *.
  cbn [byId set_classList]. rewrite Hi2, Hi1.
  assert (Hmain : forall c,
    has_class
      (classList
         match byId s !! tabId with
         | Some targetContent =>
             set_classList (class_add "active" targetContent)
               (set_classList (class_add "active" activeButton) s2)
         | None => set_classList (class_add "active" activeButton) s2
         end) e c =
    bool_decide (c = "active" /\ (e = activeButton \/ byId s !! tabId = Some e)) ||
    (has_class (classList s) e c &&
     negb (bool_decide (c = "active" /\ (e ∈ tabButtons s \/ e ∈ tabContents s))))).
  { intros c. destruct (byId s !! tabId) as [tc|];
      cbn [classList set_classList];
      rewrite ?has_class_add, Hh2, Hh1, Hc1;
      destruct (has_class (classList s) e c);
      repeat case_bool_decide; try reflexivity; exfalso; intuition congruence. }
  split; [|split; [|split]].
  - rewrite Hmain. f_equal.
    + apply bool_decide_ext. intuition.
    + f_equal. f_equal. apply bool_decide_ext. intuition.
  - intros c Hc. rewrite Hmain.
    rewrite bool_decide_eq_false_2 by tauto.
    rewrite (bool_decide_eq_false_2 (c = "active" /\ _)) by tauto.
    cbn. by rewrite andb_true_r.
  - intros Hin. rewrite Hmain.
    rewrite (bool_decide_eq_true_2 ("active" = "active" /\ (e ∈ tabButtons s \/ _)))
      by auto.
    cbn [negb]. rewrite andb_false_r, orb_false_r, bool_decide_eq_true. tauto.
  - destruct (byId s !! tabId); cbn [tabButtons tabContents byId set_classList];
      rewrite ?Hb2, ?Hb1, ?Hc2, ?Hc1, ?Hi2, ?Hi1; auto.
Qed.

End FleetTabsFacts.

(** * Properties of the preloader, the resize handler and the counters *)

Module PreloaderFacts.
Import Preloader.

Lemma hide_due (now : Z) (s : State) :
  hide now s =
  mkState (preloader s) (minDisplayTime s) (startTime s) (classList s)
    (attached s) (onload s)
    (timeouts s ++ [(Z.max now (startTime s + minDisplayTime s), AddHidden)]).
Proof.
  unfold hide, setTimeout.
  replace (now + Z.max 0 (minDisplayTime s - (now - startTime s)))
    with (Z.max now (startTime s + minDisplayTime s)) by lia.
  reflexivity.
Qed.

Lemma filter_none {A} (P : A -> Prop) `{forall x, Decision (P x)} (l : list A) :
  Forall (fun x => ~ P x) l -> filter P l = [].
Proof.
  induction 1 as [|x l Hx _ IH]; [reflexivity|].
  by rewrite filter_cons, decide_False.
Qed.

Lemma filter_all {A} (P : A -> Prop) `{forall x, Decision (P x)} (l : list A) :
  Forall P l -> filter P l = l.
Proof.
  induction 1 as [|x l Hx _ IH]; [reflexivity|].
  by rewrite filter_cons, decide_True, IH.
Qed.

Lemma advance_early (now : Z) (s : State) :
  quiet s -> now < startTime s + minDisplayTime s -> advance now s = s.
Proof.
  intros Hq Hnow. unfold advance.
  assert (Hnone : Forall (fun t : Z * Action => ~ fst t <= now) (timeouts s)).
  { eapply Forall_impl; [exact Hq|]. cbn. intros t Ht. lia. }
  rewrite (filter_none (fun t : Z * Action => fst t <= now)) by exact Hnone.
  rewrite (filter_all (fun t : Z * Action => ~ fst t <= now)) by exact Hnone.
  cbn. by destruct s.
Qed.

Lemma quiet_hide (now : Z) (s : State) : quiet s -> quiet (hide now s).
Proof.
  intros Hq. rewrite hide_due. unfold quiet in *. cbn.
  apply Forall_app. split; [exact Hq|]. constructor; [cbn; lia | constructor].
Qed.

Lemma early_run (events : list Event) (s : State) :
  quiet s ->
  Forall (fun e => event_time e < startTime s + minDisplayTime s) events ->
  let s' := run events s in
  quiet s' /\ classList s' = classList s /\ attached s' = attached s /\
  preloader s' = preloader s /\ startTime s' = startTime s /\
  minDisplayTime s' = minDisplayTime s.
Proof.
  unfold run. revert s. induction events as [|e events IH]; intros s Hq Hev; cbn.
  - repeat apply conj; auto.
  - apply Forall_cons in Hev as [He Hev].
    assert (Hstep : quiet (step e s) /\ classList (step e s) = classList s /\
              attached (step e s) = attached s /\ preloader (step e s) = preloader s /\
              startTime (step e s) = startTime s /\
              minDisplayTime (step e s) = minDisplayTime s).
    { destruct e as [now|now]; cbn [step event_time] in *.
      - destruct (onload s); [|repeat apply conj; auto].
        split; [by apply quiet_hide|]. rewrite hide_due. repeat apply conj; auto.
      - rewrite advance_early by assumption. repeat apply conj; auto. }
    destruct Hstep as (Hq1 & Hc1 & Ha1 & Hp1 & Hs1 & Hm1).
    destruct (IH (step e s) Hq1) as (Hq2 & Hc2 & Ha2 & Hp2 & Hs2 & Hm2).
    { rewrite Hs1, Hm1. exact Hev. }
    cbn zeta in *. rewrite Hc2, Ha2, Hp2, Hs2, Hm2. repeat apply conj; auto.
Qed.

Lemma construct_quiet el classes0 attached0 now complete now' :
  let s := construct el classes0 attached0 now complete now' in
  quiet s /\ classList s = classes0 /\ attached s = attached0 /\
  startTime s = now /\ minDisplayTime s = 1000 /\ preloader s = el.
Proof.
  unfold construct, init, quiet. cbn [preloader].
  destruct el as [e|]; [|cbn; repeat split; constructor].
  destruct complete.
  - rewrite hide_due. cbn. repeat split. constructor; [cbn; lia | constructor].
  - cbn. repeat split. constructor.
Qed.

(** X17.  The preloader is shown for at least its minimum display time:
    whatever happens during the first 1000 ms after construction (the load
    event, the event loop running), the preloader's classes are unchanged,
    so 'hidden' has not been added, and it is still in the document. *)
Theorem X17_preloader_minimum_display
    (el : option Element) (classes0 : list string) (attached0 : bool)
    (now : Z) (complete : bool) (now' : Z) (events : list Event) :
  Forall (fun e => event_time e < now + 1000) events ->
  let s := run events (construct el classes0 attached0 now complete now') in
  classList s = classes0 /\ attached s = attached0.
Proof.
  intros Hev.
  destruct (construct_quiet el classes0 attached0 now complete now')
    as (Hq & Hc & Ha & Hs & Hm & _). cbn zeta in *.
  destruct (early_run events _ Hq) as (_ & Hc' & Ha' & _).
  { rewrite Hs, Hm. exact Hev. }
  cbn zeta in *. by rewrite Hc', Ha', Hc, Ha.
Qed.

Lemma X17_preloader_minimum_display_witness :
  let s := run [Load 5200; Advance 5300; Advance 5999]
             (construct (Some 1%positive) ["preloader"] true 5000 false 5000) in
  classList s = ["preloader"] /\ attached s = true.
Proof.
  apply (X17_preloader_minimum_display (Some 1%positive) ["preloader"] true 5000
           false 5000 [Load 5200; Advance 5300; Advance 5999]).
  repeat constructor.
Defined.

(** X18.  On a page that is still loading, the load event at time t makes
    hide schedule the class change for max(t, start + 1000), that is for
    the end of the minimum display time or for now if that time has
    passed.  When the event loop reaches a time t1 at or after it, 'hidden'
    is added and the removal is scheduled for t1 + 500; when it reaches a
    time at or after that, the preloader is taken out of the document and
    nothing remains pending. *)
Theorem X18_preloader_hides_then_leaves
    (e : Element) (classes0 : list string) (now t t1 t2 : Z) :
  Z.max t (now + 1000) <= t1 -> t1 + 500 <= t2 ->
  let s0 := construct (Some e) classes0 true now false now in
  timeouts (step (Load t) s0) = [(Z.max t (now + 1000), AddHidden)] /\
  (let s1 := run [Load t; Advance t1] s0 in
   classList s1 = ScrollReveal.classList_add "hidden" classes0 /\
   attached s1 = true /\
   timeouts s1 = [(t1 + 500, RemoveNode)]) /\
  (let s2 := run [Load t; Advance t1; Advance t2] s0 in
   "hidden" ∈ classList s2 /\ attached s2 = false /\ timeouts s2 = []).
Proof.
  intros H1 H2 s0. subst s0. unfold construct, init, run. cbn [preloader foldl step onload].
  rewrite hide_due. cbn [preloader minDisplayTime startTime classList attached onload
                         timeouts app].
  split; [reflexivity|].
  assert (Hadv1 :
    advance t1 (mkState (Some e) 1000 now classes0 true true
                  [(Z.max t (now + 1000), AddHidden)]) =
    mkState (Some e) 1000 now (ScrollReveal.classList_add "hidden" classes0) true true
      [(t1 + 500, RemoveNode)]).
  { unfold advance. cbn [timeouts].
    rewrite !filter_cons, !filter_nil. cbn [fst].
    rewrite (decide_True (P := Z.max t (now + 1000) <= t1)) by lia.
    rewrite (decide_False (P := ~ Z.max t (now + 1000) <= t1)) by lia.
    reflexivity. }
  rewrite Hadv1. split; [by repeat split|].
  unfold advance. cbn [timeouts preloader minDisplayTime startTime classList attached onload].
  rewrite !filter_cons, !filter_nil. cbn [fst].
  rewrite (decide_True (P := t1 + 500 <= t2)) by lia.
  rewrite (decide_False (P := ~ t1 + 500 <= t2)) by lia. cbn.
  split; [apply RevealFacts.classList_add_elem | auto].
Qed.

Lemma X18_preloader_hides_then_leaves_witness :
  let s0 := construct (Some 1%positive) ["preloader"] true 5000 false 5000 in
  timeouts (step (Load 5200) s0) = [(Z.max 5200 (5000 + 1000), AddHidden)] /\
  (let s1 := run [Load 5200; Advance 6000] s0 in
   classList s1 = ScrollReveal.classList_add "hidden" ["preloader"] /\
   attached s1 = true /\
   timeouts s1 = [(6000 + 500, RemoveNode)]) /\
  (let s2 := run [Load 5200; Advance 6000; Advance 6500] s0 in
   "hidden" ∈ classList s2 /\ attached s2 = false /\ timeouts s2 = []).
Proof.
  apply (X18_preloader_hides_then_leaves 1%positive ["preloader"] 5000 5200 6000 6500);
    lia.
Defined.

End PreloaderFacts.

Module ResizeHandlerFacts.
Import ResizeHandler.

Lemma clearTimeout_inv (s : State) :
  inv s ->
  pending (clearTimeout s) = ∅ /\
  next_handle (clearTimeout s) = next_handle s /\
  handled (clearTimeout s) = handled s.
Proof.
  intros Hinv. unfold clearTimeout, inv in *. destruct (resizeTimeout s) as [h|]; cbn.
  - split; [|auto]. apply map_eq. intros h'. rewrite lookup_empty.
    destruct (decide (h' = h)) as [->|Hne].
    + apply lookup_delete_eq.
    + rewrite lookup_delete_ne by congruence. by apply Hinv.
  - auto.
Qed.

Lemma on_resize_spec (now : Z) (s : State) :
  inv s ->
  on_resize now s =
  mkState (Some (next_handle s)) {[ next_handle s := now + 250 ]}
    (Pos.succ (next_handle s)) (handled s).
Proof.
  intros Hinv. destruct (clearTimeout_inv s Hinv) as (Hp & Hn & Hh).
  unfold on_resize. by rewrite Hp, Hn, Hh, insert_empty.
Qed.

Lemma on_resize_pending (now : Z) (s : State) :
  inv s -> pending (on_resize now s) = {[ next_handle s := now + 250 ]}.
Proof. intros Hinv. by rewrite on_resize_spec. Qed.

(** What holds between a state and the inputs that led to it: the
    invariant [inv], the pending timeout is due 250 ms after the last
    resize event, and [handleResize] has run at most once per resize
    event, counting the pending run. *)
Lemma step_keeps (e : Event) (s : State) (lr : option Z) (n : nat) :
  inv s ->
  (forall h due, pending s !! h = Some due -> exists t, lr = Some t /\ due = t + 250) ->
  (length (handled s) + size (pending s) <= n)%nat ->
  (size (pending s) <= 1)%nat ->
  let s' := step e s in
  let lr' := match e with Resize now => Some now | Expire _ _ => lr end in
  let n' := if is_resize e then S n else n in
  inv s' /\
  (forall h due, pending s' !! h = Some due -> exists t, lr' = Some t /\ due = t + 250) /\
  (length (handled s') + size (pending s') <= n')%nat /\
  (size (pending s') <= 1)%nat.
Proof.
  intros Hinv Hdue Hcount Hsize. destruct e as [now|h now]; cbn zeta; cbn [step is_resize].
  - rewrite on_resize_spec by exact Hinv. unfold inv. cbn.
    split; [split; [lia | intros h' Hne; by apply lookup_singleton_ne]|].
    split; [|split].
    + intros h due [_ Hd]%lookup_singleton_Some. eauto.
    + rewrite map_size_singleton. lia.
    + by rewrite map_size_singleton.
  - unfold expire. destruct (pending s !! h) as [due|] eqn:Hh; [|auto].
    destruct (due <=? now); [|auto]. unfold inv in *. cbn.
    assert (Hsz : size (pending s) = S (size (delete h (pending s)))).
    { rewrite <- (insert_delete_id (pending s) h due Hh) at 1.
      apply map_size_insert_None, lookup_delete_eq. }
    split; [|split; [|split]].
    + destruct (resizeTimeout s) as [h1|].
      * destruct Hinv as [Hlt Hothers]. split; [exact Hlt|].
        intros h' Hne. destruct (decide (h' = h)) as [->|Hne'].
        -- apply lookup_delete_eq.
        -- rewrite lookup_delete_ne by congruence. by apply Hothers.
      * rewrite Hinv in Hh. by rewrite lookup_empty in Hh.
    + intros h' due' Hl. apply lookup_delete_Some in Hl as [_ Hl]. by eapply Hdue.
    + rewrite length_app. cbn. lia.
    + lia.
Qed.

Lemma run_keeps (events : list Event) (s : State) (lr : option Z) (n : nat) :
  inv s ->
  (forall h due, pending s !! h = Some due -> exists t, lr = Some t /\ due = t + 250) ->
  (length (handled s) + size (pending s) <= n)%nat ->
  (size (pending s) <= 1)%nat ->
  let s' := run events s in
  let lr' := foldl (fun acc e => match e with Resize now => Some now
                                           | Expire _ _ => acc end) lr events in
  inv s' /\
  (forall h due, pending s' !! h = Some due -> exists t, lr' = Some t /\ due = t + 250) /\
  (length (handled s') + size (pending s') <= n + length (filter (fun e => is_resize e = true) events))%nat /\
  (size (pending s') <= 1)%nat.
Proof.
  unfold run. revert s lr n.
  induction events as [|e events IH]; intros s lr n Hinv Hdue Hcount Hsize; cbn zeta.
  - cbn. rewrite Nat.add_0_r. auto.
  - cbn [foldl].
    destruct (step_keeps e s lr n Hinv Hdue Hcount Hsize) as (H1 & H2 & H3 & H4).
    cbn zeta in *.
    destruct (IH _ _ _ H1 H2 H3 H4) as (H5 & H6 & H7 & H8). cbn zeta in *.
    split; [exact H5|]. split; [exact H6|]. split; [|exact H8].
    rewrite filter_cons. destruct e as [now|h now]; cbn [is_resize] in *.
    + rewrite decide_True by reflexivity. cbn [length]. lia.
    + rewrite decide_False by discriminate. exact H7.
Qed.

(** X19.  The resize listener debounces: after any sequence of resize
    events and timeout expiries at most one call of handleResize is
    pending, it is the one whose handle the listener holds, and it is due
    exactly 250 ms after the last resize event; every resize event cancels
    the pending call and schedules a new one; and handleResize has run, or
    is about to run, at most once per resize event. *)
Theorem X19_resize_is_debounced (h0 : positive) (events : list Event) :
  let s := run events (initial h0) in
  (size (pending s) <= 1)%nat /\
  (forall h due, pending s !! h = Some due ->
     resizeTimeout s = Some h /\
     exists t, last_resize events = Some t /\ due = t + 250) /\
  (forall now, pending (on_resize now s) = {[ next_handle s := now + 250 ]}) /\
  (length (handled s) + size (pending s)
   <= length (filter (fun e => is_resize e = true) events))%nat.
Proof.
  intros s.
  destruct (run_keeps events (initial h0) None 0) as (Hinv & Hdue & Hcount & Hsize).
  - reflexivity.
  - intros h due H. cbn in H. by rewrite lookup_empty in H.
  - cbn. rewrite map_size_empty. lia.
  - cbn. rewrite map_size_empty. lia.
  - cbn zeta in *. fold s in Hinv, Hdue, Hcount, Hsize.
    fold (last_resize events) in Hdue.
    split; [exact Hsize|]. split; [|split; [|exact Hcount]].
    + intros h due Hh. split; [|by eapply Hdue].
      unfold inv in Hinv. destruct (resizeTimeout s) as [h1|].
      * destruct (decide (h = h1)) as [->|Hne]; [reflexivity|].
        destruct Hinv as [_ Hothers]. rewrite Hothers in Hh by exact Hne. discriminate.
      * rewrite Hinv in Hh. by rewrite lookup_empty in Hh.
    + intros now. by apply on_resize_pending.
Qed.

End ResizeHandlerFacts.

Module CounterAnimationFacts.
Import CounterAnimation.

Lemma run_done passes s : hasAnimated s = true -> run passes s = s.
Proof.
  unfold run. induction passes as [|p passes IH]; intros H; cbn; [reflexivity|].
  assert (Hp : on_scroll p s = s).
  { unfold on_scroll, checkCounters. rewrite H. by destruct (bound s). }
  rewrite Hp. by apply IH.
Qed.

Lemma run_unbound passes s : bound s = false -> run passes s = s.
Proof.
  unfold run. induction passes as [|p passes IH]; intros H; cbn; [reflexivity|].
  assert (Hp : on_scroll p s = s) by (unfold on_scroll; by rewrite H).
  rewrite Hp. by apply IH.
Qed.

Lemma run_bound passes els :
  run passes (mkState els false true []) =
  if existsb sees passes then mkState els true true els
  else mkState els false true [].
Proof.
  unfold run. induction passes as [|p passes IH]; cbn [foldl existsb]; [reflexivity|].
  unfold on_scroll at 2. cbn [bound]. unfold checkCounters. cbn [hasAnimated].
  unfold sees at 1. destruct p as [[h|] v]; cbn [fst snd].
  - destruct (v h 100); cbn [orb].
    + apply (run_done passes). reflexivity.
    + exact IH.
  - exact IH.
Qed.

(** X20.  The counter animation is a latch.  Whatever scroll passes
    follow the construction, the animation of each counter is started at
    most once: the started animations are exactly those of all counters,
    in order, if some pass found the hero statistics in the viewport, and
    none otherwise; from the first such pass on hasAnimated is set and
    later passes change nothing. *)
Theorem X20_counters_animate_once
    (els : list Element) (passes : list (option Element * (Element -> Z -> bool))) :
  let s := run passes (construct els) in
  started s = (if existsb sees passes then els else []) /\
  hasAnimated s = existsb sees passes && negb (length els =? 0)%nat /\
  counters s = els /\
  (forall more, hasAnimated s = true -> run more s = s).
Proof.
  intros s. subst s. unfold construct, init. cbn [counters hasAnimated started].
  destruct (Nat.eqb_spec (length els) 0) as [Hlen|Hlen].
  - rewrite run_unbound by reflexivity. cbn.
    apply length_zero_iff_nil in Hlen. subst els.
    rewrite andb_false_r. split; [by destruct (existsb sees passes)|].
    split; [reflexivity|]. split; [reflexivity | discriminate].
  - rewrite run_bound. rewrite andb_true_r.
    destruct (existsb sees passes); cbn; repeat split; try discriminate.
    intros more _. by apply run_done.
Qed.

End CounterAnimationFacts.

(** * Properties of form validation *)

Module RegexFacts.
Import Regex.

Lemma Matches_Sym_inv p s : Matches (Sym p) s <-> exists c, s = [c] /\ p c = true.
Proof.
  split.
  - inversion 1; subst. eauto.
  - intros (c & -> & H). by constructor.
Qed.

Lemma Matches_Cat_inv r1 r2 s :
  Matches (Cat r1 r2) s <-> exists s1 s2, s = s1 ++ s2 /\ Matches r1 s1 /\ Matches r2 s2.
Proof.
  split.
  - inversion 1; subst. eauto.
  - intros (s1 & s2 & -> & H1 & H2). by constructor.
Qed.

Lemma nullable_spec (r : re) : nullable r = true <-> Matches r [].
Proof.
  induction r as [| |p|r1 IH1 r2 IH2|r1 IH1 r2 IH2|r IH]; cbn.
  - split; [discriminate | inversion 1].
  - split; [constructor | reflexivity].
  - split; [discriminate | inversion 1].
  - rewrite andb_true_iff, IH1, IH2. split.
    + intros [H1 H2]. apply (MCat r1 r2 [] [] H1 H2).
    + intros H. apply Matches_Cat_inv in H as (s1 & s2 & Heq & H1 & H2).
      symmetry in Heq. apply app_eq_nil in Heq as [-> ->]. auto.
  - rewrite orb_true_iff, IH1, IH2. split.
    + intros [H|H]; [by apply MAltL | by apply MAltR].
    + inversion 1; subst; auto.
  - split; [constructor | reflexivity].
Qed.

Lemma star_cons (r : re) (c : N) (s : jsstring) :
  Matches (Star r) (c :: s) ->
  exists s1 s2, s = s1 ++ s2 /\ Matches r (c :: s1) /\ Matches (Star r) s2.
Proof.
  intros H. remember (Star r) as r' eqn:Hr. remember (c :: s) as cs eqn:Hcs.
  revert s Hcs. induction H as [| | | | | |r0 s1 s2 H1 _ H2 IH2]; try discriminate.
  injection Hr as ->. intros s Hcs.
  destruct s1 as [|c1 s1].
  - cbn in Hcs. by apply IH2.
  - cbn in Hcs. injection Hcs as -> <-. eauto.
Qed.

Lemma deriv_spec (r : re) (c : N) (s : jsstring) :
  Matches (deriv c r) s <-> Matches r (c :: s).
Proof.
  revert s. induction r as [| |p|r1 IH1 r2 IH2|r1 IH1 r2 IH2|r IH]; intros s; cbn.
  - split; inversion 1.
  - split; inversion 1.
  - destruct (p c) eqn:Hp.
    + split.
      * inversion 1; subst. by constructor.
      * inversion 1; subst. constructor.
    + split; [inversion 1|]. inversion 1; subst. congruence.
  - assert (Hcat : Matches (Cat (deriv c r1) r2) s ->  Matches (Cat r1 r2) (c :: s)).
    { intros H. apply Matches_Cat_inv in H as (s1 & s2 & -> & H1 & H2).
      apply IH1 in H1. apply (MCat r1 r2 (c :: s1) s2 H1 H2). }
    assert (Hinv : Matches (Cat r1 r2) (c :: s) ->
              (exists s1 s2, s = s1 ++ s2 /\ Matches r1 (c :: s1) /\ Matches r2 s2) \/
              (Matches r1 [] /\ Matches r2 (c :: s))).
    { intros H. apply Matches_Cat_inv in H as (s1 & s2 & Heq & H1 & H2).
      destruct s1 as [|c1 s1]; cbn in Heq.
      - right. rewrite Heq. auto.
      - injection Heq as <- ->. left. eauto. }
    destruct (nullable r1) eqn:Hn.
    + split.
      * inversion 1 as [| | |? ? ? H1|? ? ? H1| |]; subst; [by apply Hcat|].
        apply nullable_spec in Hn. apply IH2 in H1.
        apply (MCat r1 r2 [] (c :: s) Hn H1).
      * intros H. destruct (Hinv H) as [(s1 & s2 & -> & H1 & H2)|[H1 H2]].
        -- apply MAltL. apply MCat; [by apply IH1 | exact H2].
        -- apply MAltR. by apply IH2.
    + split; [exact Hcat|].
      intros H. destruct (Hinv H) as [(s1 & s2 & -> & H1 & H2)|[H1 H2]].
      * apply MCat; [by apply IH1 | exact H2].
      * apply nullable_spec in H1. congruence.
  - split.
    + inversion 1; subst; [apply MAltL; by apply IH1 | apply MAltR; by apply IH2].
    + inversion 1; subst; [apply MAltL; by apply IH1 | apply MAltR; by apply IH2].
  - split.
    + intros H. apply Matches_Cat_inv in H as (s1 & s2 & -> & H1 & H2).
      apply IH in H1. apply (MStarApp r (c :: s1) s2 H1 H2).
    + intros H. apply star_cons in H as (s1 & s2 & -> & H1 & H2).
      apply MCat; [by apply IH | exact H2].
Qed.

(** The derivative matcher decides entire matches. *)
Lemma test_spec (r : re) (s : jsstring) : test r s = true <-> Matches r s.
Proof.
  unfold test. revert r. induction s as [|c s IH]; intros r; cbn [foldl].
  - apply nullable_spec.
  - rewrite IH. apply deriv_spec.
Qed.

(** What the derived forms match. *)
Lemma Matches_Star_Sym p s : Matches (Star (Sym p)) s <-> Forall (fun c => p c = true) s.
Proof.
  split.
  - intros H. remember (Star (Sym p)) as r eqn:Hr.
    induction H as [| | | | | |r0 s1 s2 H1 _ H2 IH2]; try discriminate.
    + constructor.
    + injection Hr as ->. apply Forall_app. split; [|by apply IH2].
      apply Matches_Sym_inv in H1 as (c & -> & Hc). by repeat constructor.
  - induction 1 as [|c s Hc _ IH]; [constructor|].
    apply (MStarApp (Sym p) [c] s); [by constructor | exact IH].
Qed.

Lemma Matches_Plus_Sym p s :
  Matches (Plus (Sym p)) s <-> s <> [] /\ Forall (fun c => p c = true) s.
Proof.
  unfold Plus. rewrite Matches_Cat_inv. split.
  - intros (s1 & s2 & -> & H1 & H2).
    apply Matches_Sym_inv in H1 as (c & -> & Hc). apply Matches_Star_Sym in H2.
    split; [discriminate | by constructor].
  - intros [Hne Hall]. destruct Hall as [|c s Hc Hall]; [by destruct Hne|].
    exists [c], s. split; [reflexivity|].
    split; [by constructor | by apply Matches_Star_Sym].
Qed.

Lemma Matches_Upto_Sym n p s :
  Matches (Upto n (Sym p)) s <->
  (length s <= n)%nat /\ Forall (fun c => p c = true) s.
Proof.
  revert s. induction n as [|n IH]; intros s; cbn [Upto].
  - split.
    + inversion 1; subst. split; [reflexivity | constructor].
    + intros [Hlen _]. destruct s; [constructor | cbn in Hlen; lia].
  - unfold Opt. split.
    + inversion 1 as [| | |? ? ? H1|? ? ? H1| |]; subst.
      * apply Matches_Cat_inv in H1 as (s1 & s2 & -> & H1 & H2).
        apply Matches_Sym_inv in H1 as (c & -> & Hc). apply IH in H2 as [Hlen Hall].
        split; [cbn; lia | by constructor].
      * inversion H1; subst. split; [cbn; lia | constructor].
    + intros [Hlen Hall]. destruct Hall as [|c s Hc Hall].
      * apply MAltR. constructor.
      * apply MAltL. apply (MCat (Sym p) _ [c] s); [by constructor|].
        apply IH. split; [cbn in Hlen; lia | exact Hall].
Qed.

End RegexFacts.


Module FormHandlerFacts.
Import Regex FormHandler RegexFacts.

Local Open Scope N_scope.

Lemma Matches_Opt_Sym p s :
  Matches (Opt (Sym p)) s <-> s = [] \/ exists c, s = [c] /\ p c = true.
Proof.
  unfold Opt. split.
  - inversion 1 as [| | |? ? ? H1|? ? ? H1| |]; subst.
    + right. by apply Matches_Sym_inv.
    + left. by inversion H1.
  - intros [->|H].
    + apply MAltR. constructor.
    + apply MAltL. by apply Matches_Sym_inv.
Qed.

Lemma filter_digits_all (s : jsstring) :
  Forall (fun c => is_digit c = true) (filter (fun c => is_digit c = true) s).
Proof.
  apply Forall_forall. intros c Hc. by apply list_elem_of_filter in Hc as [Hc _].
Qed.

(** On a string of digits the phone pattern asks for a first digit that is
    not 0 and at most fifteen more. *)
Lemma phoneRegex_digits (ds : jsstring) :
  Forall (fun c => is_digit c = true) ds ->
  Matches phoneRegex ds <->
  exists d rest, ds = d :: rest /\ d <> 48 /\ (length rest <= 15)%nat.
Proof.
  intros Hds. unfold phoneRegex. rewrite Matches_Cat_inv. split.
  - intros (s0 & s1 & -> & H0 & H1).
    apply Matches_Opt_Sym in H0 as [->|(c & -> & Hc)].
    + apply Matches_Cat_inv in H1 as (a & b & -> & Ha & Hb).
      apply Matches_Sym_inv in Ha as (d & -> & Hd).
      apply Matches_Upto_Sym in Hb as [Hlen _].
      exists d, b. split; [reflexivity|]. split; [|exact Hlen].
      apply andb_true_iff in Hd as [Hd _]. apply N.leb_le in Hd. lia.
    + apply N.eqb_eq in Hc as ->. cbn in Hds.
      apply Forall_cons in Hds as [Hc _]. discriminate Hc.
  - intros (d & rest & -> & Hd & Hlen).
    apply Forall_cons in Hds as [Hdig Hrest].
    exists [], (d :: rest). split; [reflexivity|].
    split; [apply Matches_Opt_Sym; by left|].
    apply (MCat _ _ [d] rest).
    + constructor. unfold is_digit in Hdig.
      apply andb_true_iff in Hdig as [H1 H2].
      apply N.leb_le in H1. apply andb_true_iff. split; [|exact H2].
      apply N.leb_le. lia.
    + apply Matches_Upto_Sym. by split.
Qed.

(** What the e-mail pattern matches. *)
Lemma emailRegex_spec (s : jsstring) :
  Matches emailRegex s <->
  exists a b c, s = a ++ 64 :: b ++ 46 :: c /\
    a <> [] /\ b <> [] /\ c <> [] /\
    Forall (fun ch => not_space_or_at ch = true) a /\
    Forall (fun ch => not_space_or_at ch = true) b /\
    Forall (fun ch => not_space_or_at ch = true) c.
Proof.
  unfold emailRegex. split.
  - intros H.
    apply Matches_Cat_inv in H as (a & s1 & -> & Ha & H).
    apply Matches_Cat_inv in H as (at' & s2 & -> & Hat & H).
    apply Matches_Cat_inv in H as (b & s3 & -> & Hb & H).
    apply Matches_Cat_inv in H as (dot & c & -> & Hdot & Hc).
    apply Matches_Sym_inv in Hat as (x & -> & Hx). apply N.eqb_eq in Hx as ->.
    apply Matches_Sym_inv in Hdot as (y & -> & Hy). apply N.eqb_eq in Hy as ->.
    apply Matches_Plus_Sym in Ha as [Ha1 Ha2].
    apply Matches_Plus_Sym in Hb as [Hb1 Hb2].
    apply Matches_Plus_Sym in Hc as [Hc1 Hc2].
    exists a, b, c. repeat apply conj; auto.
  - intros (a & b & c & -> & Ha1 & Hb1 & Hc1 & Ha2 & Hb2 & Hc2).
    apply MCat; [by apply Matches_Plus_Sym|].
    apply (MCat _ _ [64] (b ++ 46 :: c)); [by constructor|].
    apply MCat; [by apply Matches_Plus_Sym|].
    apply (MCat _ _ [46] c); [by constructor|].
    by apply Matches_Plus_Sym.
Qed.

Lemma not_space_or_at_spec (ch : N) :
  not_space_or_at ch = true <-> is_space ch = false /\ ch <> 64.
Proof.
  unfold not_space_or_at. rewrite negb_true_iff, orb_false_iff, N.eqb_neq. tauto.
Qed.

Lemma no_at (l : jsstring) :
  Forall (fun ch => not_space_or_at ch = true) l ->
  filter (fun ch => ch = 64) l = [].
Proof.
  induction 1 as [|ch l Hch _ IH]; [reflexivity|].
  apply not_space_or_at_spec in Hch as [_ Hch].
  rewrite filter_cons, decide_False by exact Hch. exact IH.
Qed.

Lemma no_space (l : jsstring) :
  Forall (fun ch => not_space_or_at ch = true) l ->
  Forall (fun ch => is_space ch = false) l.
Proof.
  intros H. eapply Forall_impl; [exact H|].
  intros ch Hch. by apply not_space_or_at_spec in Hch as [Hch _].
Qed.

Lemma nonempty_length {A} (l : list A) : l <> [] -> (1 <= length l)%nat.
Proof. destruct l; [congruence | cbn; lia]. Qed.

(** White space only trims to the empty string. *)
Lemma trim_blank (s : jsstring) :
  Forall (fun ch => is_space ch = true) s -> trim s = [].
Proof.
  intros H. unfold trim.
  assert (Hs : trimStart s = []).
  { induction H as [|ch l Hch _ IH]; [reflexivity|]. cbn. by rewrite Hch. }
  by rewrite Hs.
Qed.

(** The verdict on a required control. *)
Lemma required_valid (f : Field) :
  required f = true ->
  fst (validateField_result f) = true <->
  trim (value f) <> [] /\
  (type f = "email"%string -> isValidEmail (trim (value f)) = true) /\
  (type f = "tel"%string -> isValidPhone (trim (value f)) = true).
Proof.
  intros Hreq. unfold validateField_result. rewrite Hreq. cbv zeta.
  case_bool_decide as Hv; cbn [andb negb].
  - rewrite !andb_false_r. cbn. split; [discriminate | tauto].
  - rewrite !andb_true_r.
    case_bool_decide as He; case_bool_decide as Ht; cbn [andb];
      destruct (isValidEmail (trim (value f))) eqn:Hem;
      destruct (isValidPhone (trim (value f))) eqn:Hph; cbn;
      split; try discriminate; try tauto;
      intros (_ & H1 & H2); auto.
Qed.

(** The loop of [validateForm]: the verdicts are conjoined, and every
    control visited gets its message. *)
Lemma validate_loop (l : list (nat * Field)) (b : bool) (s : State) :
  foldl (fun '(isValid, s') '(index, field) =>
           let '(ok, s'') := validateField index field s' in
           (if negb ok then false else isValid, s''))
        (b, s) l =
  (b && forallb (fun '(_, field) => fst (validateField_result field)) l,
   mkState (inputs s)
     (errors s ++
      map (fun '(index, field) => (index, snd (validateField_result field))) l)).
Proof.
  revert b s. induction l as [|[index field] l IH]; intros b s; cbn [foldl forallb map].
  - rewrite andb_true_r, app_nil_r. by destruct s.
  - unfold validateField at 2.
    destruct (validateField_result field) as [ok msg] eqn:Hres.
    rewrite IH. cbn [inputs errors fst snd]. rewrite <- app_assoc. cbn [app].
    f_equal. destruct ok, b; reflexivity.
Qed.

(** X21 (isValidPhone): only the digits of the input count: a phone
    number is accepted exactly when its digits, everything else dropped,
    number between one and sixteen and the first of them is not 0. *)
Theorem X21_isValidPhone_counts_digits (phone : jsstring) :
  isValidPhone phone = true <->
  exists d rest,
    filter (fun c => is_digit c = true) phone = d :: rest /\
    d <> 48 /\ (length rest <= 15)%nat.
Proof.
  unfold isValidPhone. rewrite test_spec.
  apply phoneRegex_digits, filter_digits_all.
Qed.

(** X22 (isValidEmail): an address is accepted exactly when it reads
    a@b.c with a, b and c not empty and free of white space and of @. *)
Theorem X22_isValidEmail_shape (email : jsstring) :
  isValidEmail email = true <->
  exists a b c, email = a ++ 64 :: b ++ 46 :: c /\
    a <> [] /\ b <> [] /\ c <> [] /\
    Forall (fun ch => not_space_or_at ch = true) a /\
    Forall (fun ch => not_space_or_at ch = true) b /\
    Forall (fun ch => not_space_or_at ch = true) c.
Proof.
  unfold isValidEmail. rewrite test_spec. apply emailRegex_spec.
Qed.

(** X23 (isValidEmail): an accepted address holds no white space, exactly
    one @, and at least five code units. *)
Theorem X23_valid_email_one_at (email : jsstring) :
  isValidEmail email = true ->
  Forall (fun ch => is_space ch = false) email /\
  length (filter (fun ch => ch = 64) email) = 1%nat /\
  (5 <= length email)%nat.
Proof.
  unfold isValidEmail. rewrite test_spec, emailRegex_spec.
  intros (a & b & c & -> & Ha1 & Hb1 & Hc1 & Ha2 & Hb2 & Hc2).
  split; [|split].
  - apply Forall_app. split; [by apply no_space|].
    apply Forall_cons. split; [reflexivity|].
    apply Forall_app. split; [by apply no_space|].
    apply Forall_cons. split; [reflexivity | by apply no_space].
  - rewrite filter_app, filter_cons, decide_True by reflexivity.
    rewrite filter_app, filter_cons, decide_False by discriminate.
    by rewrite !no_at.
  - apply nonempty_length in Ha1, Hb1, Hc1.
    rewrite length_app. cbn [length]. rewrite length_app. cbn [length]. lia.
Qed.

Lemma X23_valid_email_one_at_witness :
  Forall (fun ch => is_space ch = false) [97; 64; 98; 46; 99] /\
  length (filter (fun ch => ch = 64) [97; 64; 98; 46; 99]) = 1%nat /\
  (5 <= length [97; 64; 98; 46; 99])%nat.
Proof. apply (X23_valid_email_one_at [97; 64; 98; 46; 99]). reflexivity. Defined.

(** X24 (validateForm): the form is accepted exactly when every required
    control holds more than white space and, where it is an e-mail or a
    phone control, a valid address or number; controls that are not
    required are not looked at. *)
Theorem X24_validateForm_accepts (s : State) :
  fst (validateForm s) = true <->
  forall f, f ∈ inputs s -> required f = true ->
    trim (value f) <> [] /\
    (type f = "email"%string -> isValidEmail (trim (value f)) = true) /\
    (type f = "tel"%string -> isValidPhone (trim (value f)) = true).
Proof.
  unfold validateForm. cbv zeta. rewrite validate_loop. cbn [fst andb].
  rewrite <- Is_true_true, forallb_True, Forall_forall. unfold required_inputs. split.
  - intros H f Hf Hreq. apply list_elem_of_lookup in Hf as [i Hi].
    apply required_valid; [exact Hreq|]. apply Is_true_true.
    apply (H (i, f)). apply list_elem_of_filter. split; [exact Hreq|].
    apply elem_of_lookup_imap. eauto.
  - intros H [i f] Hin. apply list_elem_of_filter in Hin as [Hreq Hin].
    apply elem_of_lookup_imap in Hin as (j & g & [= -> ->] & Hj).
    apply Is_true_true. apply required_valid; [exact Hreq|].
    apply H; [|exact Hreq]. apply list_elem_of_lookup. eauto.
Qed.

(** X25 (validateForm): a failure does not end the pass: every required
    control gets its message, in document order, and no other control gets
    one. *)
Theorem X25_validateForm_reports_every_required (s : State) :
  errors (snd (validateForm s)) =
    errors s ++
    map (fun '(index, field) => (index, snd (validateField_result field)))
        (required_inputs s) /\
  inputs (snd (validateForm s)) = inputs s.
Proof.
  unfold validateForm. cbv zeta. rewrite validate_loop. by split.
Qed.

(** X26 (validateField): a value of white space only counts as empty: a
    required control is then refused with the message for a missing value,
    whatever its type, and a control that is not required is accepted. *)
Theorem X26_blank_value_is_empty (f : Field) :
  Forall (fun ch => is_space ch = true) (value f) ->
  validateField_result f =
    (negb (required f),
     if required f then "This field is required"%string else ""%string).
Proof.
  intros H. unfold validateField_result. rewrite (trim_blank _ H). cbv zeta.
  rewrite (bool_decide_eq_true_2 ([] = [])) by reflexivity.
  cbn [negb]. rewrite !andb_false_r, andb_true_r.
  by destruct (required f).
Qed.

Lemma X26_blank_value_is_empty_witness :
  validateField_result (mkField [32; 9; 160] "email" true) =
    (false, "This field is required"%string).
Proof.
  apply (X26_blank_value_is_empty (mkField [32; 9; 160] "email" true)).
  repeat constructor.
Defined.

End FormHandlerFacts.
